(** * Configuration synchronisation pipeline: hub, relay, leaf and signed identity

    A shallow embedding of the Go sources of the configuration distribution
    system (controller = hub, agent = relay, worker = leaf) together with the
    properties of its specification.

    Conventions of the embedding:
    - a Go [string] is a Rocq [string] (a sequence of 8-bit characters), a
      Go [[]byte] is a [list ascii]; the conversions [[]byte(s)] and
      [string(b)] are [list_ascii_of_string] and [string_of_list_ascii];
    - a Go [int] is a [Z] kept inside the signed 64-bit range by [wrap64];
    - a Go [error] result is an [option] (or a dedicated error type), [None]
      standing for [nil];
    - network, database and cache outcomes that the code cannot control are
      explicit inputs of the step functions. *)

From Stdlib Require Import ZArith Bool String Ascii List Lia.
From stdpp Require Import base option list gmap strings.
Import ListNotations.

Local Open Scope string_scope.
Local Open Scope list_scope.
Local Open Scope Z_scope.

(* ##################################################################### *)
(** * Part I: the embedding of the sources *)
(* ##################################################################### *)

(* ===================================================================== *)
(** * Go machine integers and strings *)
(* ===================================================================== *)

Module GoInt.

Definition MaxInt64 : Z := 9223372036854775807.
Definition MinInt64 : Z := -9223372036854775808.

(** Two's complement reduction of a mathematical integer to [int64]. *)
Definition wrap64 (z : Z) : Z := (z + 2 ^ 63) mod 2 ^ 64 - 2 ^ 63.

Definition in_int64 (z : Z) : Prop := MinInt64 <= z <= MaxInt64.

(** [a + b] and [a * b] on Go's [int] / [int64]. *)
Definition add64 (a b : Z) : Z := wrap64 (a + b).
Definition mul64 (a b : Z) : Z := wrap64 (a * b).

(** [time.Second] in nanoseconds, the unit of the [int64] [time.Duration]. *)
Definition Second : Z := 1000000000.

(** The test of a Go string against the empty string. *)
Definition is_empty_string (s : string) : bool :=
  match s with EmptyString => true | _ => false end.

End GoInt.

(* ===================================================================== *)
(** * pkg/crypto: signed identity tokens *)
(* ===================================================================== *)

Module Crypto.
Import GoInt.

(** ** SHA-256 (crypto/sha256), after FIPS 180-4, on 32-bit words in [Z] *)

Definition w32 (x : Z) : Z := x mod 2 ^ 32.
Definition add32 (a b : Z) : Z := w32 (a + b).
Definition rotr (n x : Z) : Z :=
  w32 (Z.lor (Z.shiftr x n) (Z.shiftl x (32 - n))).
Definition not32 (x : Z) : Z := Z.lxor x (2 ^ 32 - 1).

Definition Ch (x y z : Z) : Z := Z.lxor (Z.land x y) (Z.land (not32 x) z).
Definition Maj (x y z : Z) : Z :=
  Z.lxor (Z.lxor (Z.land x y) (Z.land x z)) (Z.land y z).
Definition bsig0 (x : Z) : Z := Z.lxor (Z.lxor (rotr 2 x) (rotr 13 x)) (rotr 22 x).
Definition bsig1 (x : Z) : Z := Z.lxor (Z.lxor (rotr 6 x) (rotr 11 x)) (rotr 25 x).
Definition ssig0 (x : Z) : Z := Z.lxor (Z.lxor (rotr 7 x) (rotr 18 x)) (Z.shiftr x 3).
Definition ssig1 (x : Z) : Z := Z.lxor (Z.lxor (rotr 17 x) (rotr 19 x)) (Z.shiftr x 10).

(** The first 64 primes, by trial division. *)
Definition is_prime (p : nat) : bool :=
  forallb (fun d => negb (Nat.eqb (Nat.modulo p d) 0)) (seq 2 (p - 2)).

Definition primes64 : list Z :=
  Eval vm_compute in map Z.of_nat (firstn 64 (List.filter is_prime (seq 2 400))).

(** The integer cube root of [n], by trying the bits from [2^bits] down. *)
Fixpoint icbrt_bits (bits : nat) (n r : Z) : Z :=
  match bits with
  | O => r
  | S b =>
      let r' := r + 2 ^ Z.of_nat b in
      icbrt_bits b n (if r' * r' * r' <=? n then r' else r)
  end.

Definition icbrt (n : Z) : Z := icbrt_bits 40 n 0.

(** The round constants: the first 32 bits of the fractional parts of the
    cube roots of the first 64 primes. *)
Definition K256 : list Z :=
  Eval vm_compute in map (fun p => w32 (icbrt (p * 2 ^ 96))) primes64.

(** The initial hash value: the first 32 bits of the fractional parts of
    the square roots of the first 8 primes. *)
Definition H256_init : list Z :=
  Eval vm_compute in map (fun p => w32 (Z.sqrt (p * 2 ^ 64))) (firstn 8 primes64).

Definition byte_val (c : ascii) : Z := Z.of_N (N_of_ascii c).
Definition byte_of (z : Z) : ascii := ascii_of_N (Z.to_N (z mod 256)).

(** Big-endian encoding of [x] on [n] bytes. *)
Fixpoint be_bytes (n : nat) (x : Z) : list ascii :=
  match n with
  | O => []
  | S m => byte_of (Z.shiftr x (8 * Z.of_nat m)) :: be_bytes m x
  end.

(** The padding appended to a message of [len] bytes: 0x80, zeros up to
    56 mod 64, then the bit length on 64 bits. *)
Definition sha_padding (len : Z) : list ascii :=
  let zeros := (55 - len) mod 64 in
  byte_of 128 :: repeat zero (Z.to_nat zeros) ++ be_bytes 8 (8 * len).

(** Reading the big-endian 32-bit words of a byte sequence. *)
Fixpoint words_of (bs : list ascii) : list Z :=
  match bs with
  | a :: b :: c :: d :: rest =>
      (byte_val a * 16777216 + byte_val b * 65536 + byte_val c * 256 + byte_val d)
        :: words_of rest
  | _ => []
  end.

(** Message schedule, most recent word first: from [W(t-1) .. W(t-16) ..]
    computes [n] further words. *)
Fixpoint schedule (n : nat) (rev_w : list Z) : list Z :=
  match n with
  | O => rev_w
  | S m =>
      let w := add32 (add32 (ssig1 (nth 1 rev_w 0)) (nth 6 rev_w 0))
                     (add32 (ssig0 (nth 14 rev_w 0)) (nth 15 rev_w 0)) in
      schedule m (w :: rev_w)
  end.

Record regs := Regs { ra : Z; rb : Z; rc : Z; rd : Z; re : Z; rf : Z; rg : Z; rh : Z }.

Definition round (r : regs) (k w : Z) : regs :=
  let t1 := add32 (add32 (add32 (rh r) (bsig1 (re r))) (Ch (re r) (rf r) (rg r)))
                  (add32 k w) in
  let t2 := add32 (bsig0 (ra r)) (Maj (ra r) (rb r) (rc r)) in
  Regs (add32 t1 t2) (ra r) (rb r) (rc r) (add32 (rd r) t1) (re r) (rf r) (rg r).

Fixpoint rounds (r : regs) (ks ws : list Z) : regs :=
  match ks, ws with
  | k :: ks', w :: ws' => rounds (round r k w) ks' ws'
  | _, _ => r
  end.

Definition regs_of (h : list Z) : regs :=
  Regs (nth 0 h 0) (nth 1 h 0) (nth 2 h 0) (nth 3 h 0)
       (nth 4 h 0) (nth 5 h 0) (nth 6 h 0) (nth 7 h 0).

(** One application of the compression function to the 16 words of a block. *)
Definition compress (h : list Z) (block : list Z) : list Z :=
  let ws := rev (schedule 48 (rev block)) in
  let r := rounds (regs_of h) K256 ws in
  [ add32 (nth 0 h 0) (ra r); add32 (nth 1 h 0) (rb r);
    add32 (nth 2 h 0) (rc r); add32 (nth 3 h 0) (rd r);
    add32 (nth 4 h 0) (re r); add32 (nth 5 h 0) (rf r);
    add32 (nth 6 h 0) (rg r); add32 (nth 7 h 0) (rh r) ].

Fixpoint blocks (fuel : nat) (h : list Z) (ws : list Z) : list Z :=
  match fuel with
  | O => h
  | S m =>
      match ws with
      | [] => h
      | _ => blocks m (compress h (firstn 16 ws)) (skipn 16 ws)
      end
  end.

(** [sha256.Sum256]: the 32 bytes of the digest. *)
Definition sha256 (msg : list ascii) : list ascii :=
  let padded := msg ++ sha_padding (Z.of_nat (length msg)) in
  let ws := words_of padded in
  flat_map (be_bytes 4) (blocks (length ws) H256_init ws).

(** ** HMAC (crypto/hmac with sha256.New), after RFC 2104 *)

Definition BlockSize : nat := 64.

Definition xor_byte (k : Z) (c : ascii) : ascii := byte_of (Z.lxor (byte_val c) k).

(** [hmac.New]: a key longer than the block is hashed first; the key is then
    copied into zeroed [ipad] and [opad] buffers of one block. *)
Definition hmac_key_block (key : list ascii) : list ascii :=
  let key' := if Nat.ltb BlockSize (length key) then sha256 key else key in
  key' ++ repeat zero (BlockSize - length key').

(** [h.Write(msg); h.Sum(nil)]. *)
Definition hmac_sha256 (key msg : list ascii) : list ascii :=
  let kb := hmac_key_block key in
  let ipad := map (xor_byte 0x36) kb in
  let opad := map (xor_byte 0x5c) kb in
  sha256 (opad ++ sha256 (ipad ++ msg)).

(** [hmac.Equal]: constant-time comparison; true exactly on equal slices. *)
Fixpoint hmac_equal (a b : list ascii) : bool :=
  match a, b with
  | [], [] => true
  | x :: a', y :: b' => Ascii.eqb x y && hmac_equal a' b'
  | _, _ => false
  end.

(** ** base64.StdEncoding (encoding/base64), after RFC 4648 section 4 *)

Definition encodeStd : list ascii :=
  list_ascii_of_string
    "ABCDEFGHIJKLMNOPQRSTUVWXYZabcdefghijklmnopqrstuvwxyz0123456789+/".

Definition padChar : ascii := "="%char.

(** [enc.encode[i]] for a 6-bit index. *)
Definition enc_char (i : Z) : ascii := nth (Z.to_nat i) encodeStd padChar.

Fixpoint index_from (n : Z) (c : ascii) (l : list ascii) : option Z :=
  match l with
  | [] => None
  | x :: l' => if Ascii.eqb x c then Some n else index_from (n + 1) c l'
  end.

(** [enc.decodeMap[c]], [None] standing for the invalid marker 0xff. *)
Definition dec_char (c : ascii) : option Z := index_from 0 c encodeStd.

(** [EncodeToString]. *)
Fixpoint EncodeChars (src : list ascii) : list ascii :=
  match src with
  | [] => []
  | [a] =>
      let val := Z.shiftl (byte_val a) 16 in
      [ enc_char (Z.land (Z.shiftr val 18) 0x3F);
        enc_char (Z.land (Z.shiftr val 12) 0x3F); padChar; padChar ]
  | [a; b] =>
      let val := Z.lor (Z.shiftl (byte_val a) 16) (Z.shiftl (byte_val b) 8) in
      [ enc_char (Z.land (Z.shiftr val 18) 0x3F);
        enc_char (Z.land (Z.shiftr val 12) 0x3F);
        enc_char (Z.land (Z.shiftr val 6) 0x3F); padChar ]
  | a :: b :: c :: rest =>
      let val := Z.lor (Z.lor (Z.shiftl (byte_val a) 16) (Z.shiftl (byte_val b) 8))
                       (byte_val c) in
      enc_char (Z.land (Z.shiftr val 18) 0x3F)
        :: enc_char (Z.land (Z.shiftr val 12) 0x3F)
        :: enc_char (Z.land (Z.shiftr val 6) 0x3F)
        :: enc_char (Z.land val 0x3F)
        :: EncodeChars rest
  end.

Definition EncodeToString (src : list ascii) : string :=
  string_of_list_ascii (EncodeChars src).

(** The value assembled from four 6-bit digits by [decodeQuantum]. *)
Definition quantum_val (d0 d1 d2 d3 : Z) : Z :=
  Z.lor (Z.lor (Z.lor (Z.shiftl d0 18) (Z.shiftl d1 12)) (Z.shiftl d2 6)) d3.

Definition is_newline (c : ascii) : bool :=
  Ascii.eqb c "010"%char || Ascii.eqb c "013"%char.

(** Decoding of the input once line breaks are dropped.  The decoder is the
    non-strict one: padding is mandatory, it may only close the last quantum,
    and the unused low bits of a padded quantum are not checked. *)
Fixpoint DecodeChars (src : list ascii) : option (list ascii) :=
  match src with
  | [] => Some []
  | c0 :: c1 :: c2 :: c3 :: rest =>
      match dec_char c0, dec_char c1 with
      | Some d0, Some d1 =>
          match dec_char c2, dec_char c3 with
          | Some d2, Some d3 =>
              let val := quantum_val d0 d1 d2 d3 in
              match DecodeChars rest with
              | Some out =>
                  Some (byte_of (Z.shiftr val 16) :: byte_of (Z.shiftr val 8)
                          :: byte_of val :: out)
              | None => None
              end
          | Some d2, None =>
              if Ascii.eqb c3 padChar then
                match rest with
                | [] =>
                    let val := quantum_val d0 d1 d2 0 in
                    Some [byte_of (Z.shiftr val 16); byte_of (Z.shiftr val 8)]
                | _ => None
                end
              else None
          | None, _ =>
              if Ascii.eqb c2 padChar && Ascii.eqb c3 padChar then
                match rest with
                | [] => Some [byte_of (Z.shiftr (quantum_val d0 d1 0 0) 16)]
                | _ => None
                end
              else None
          end
      | _, _ => None
      end
  | _ => None
  end.

(** [DecodeString]: carriage returns and line feeds are skipped wherever
    they occur; any other malformation is a [CorruptInputError] ([None]). *)
Definition DecodeString (s : string) : option (list ascii) :=
  DecodeChars (List.filter (fun c => negb (is_newline c)) (list_ascii_of_string s)).

(** ** strings.Split with a one-byte separator *)

Fixpoint Split (s : string) (sep : ascii) : list string :=
  match s with
  | EmptyString => [EmptyString]
  | String c rest =>
      if Ascii.eqb c sep then EmptyString :: Split rest sep
      else match Split rest sep with
           | h :: t => String c h :: t
           | [] => [String c EmptyString]
           end
  end.

(** ** Generate and Verify *)

Inductive error : Set :=
| ErrEmptyInput      (* "text and secretKey cannot be empty" *)
| ErrInvalidFormat   (* "invalid signed text format" *)
| ErrCorruptInput.   (* base64.CorruptInputError *)

Definition Generate (text secretKey : string) : string * option error :=
  if is_empty_string text || is_empty_string secretKey then
    (EmptyString, Some ErrEmptyInput)
  else
    let encodedText := EncodeToString (list_ascii_of_string text) in
    let signature :=
      EncodeToString (hmac_sha256 (list_ascii_of_string secretKey)
                                  (list_ascii_of_string text)) in
    ((encodedText ++ "." ++ signature)%string, None).

Definition Verify (signedText secretKey : string) : bool * string * option error :=
  match Split signedText "."%char with
  | [part0; part1] =>
      match DecodeString part0 with
      | None => (false, EmptyString, Some ErrCorruptInput)
      | Some textBytes =>
          let originalText := string_of_list_ascii textBytes in
          let expectedSignature :=
            hmac_sha256 (list_ascii_of_string secretKey)
                        (list_ascii_of_string originalText) in
          match DecodeString part1 with
          | None => (false, EmptyString, Some ErrCorruptInput)
          | Some inputSignature =>
              if negb (hmac_equal inputSignature expectedSignature) then
                (false, EmptyString, None)
              else
                (true, originalText, None)
          end
      end
  | _ => (false, EmptyString, Some ErrInvalidFormat)
  end.

(** ** Vocabulary of the properties *)

(** Bytes in lower-case hexadecimal, to state digests. *)
Definition hex_digit (n : Z) : ascii :=
  nth (Z.to_nat n) (list_ascii_of_string "0123456789abcdef") "0"%char.

Definition hex_of_bytes (bs : list ascii) : string :=
  string_of_list_ascii
    (flat_map (fun c => [hex_digit (byte_val c / 16); hex_digit (byte_val c mod 16)]) bs).

Definition sextets : list Z := map Z.of_nat (seq 0 64).

(** What every character of the alphabet satisfies, as a checkable predicate:
    it decodes to its own index and is neither a line break, the separator
    of a signed text, nor the padding character. *)
Definition alphabet_char_ok (i : Z) : bool :=
  match dec_char (enc_char i) with Some j => Z.eqb i j | None => false end
  && negb (is_newline (enc_char i))
  && negb (Ascii.eqb (enc_char i) "."%char)
  && negb (Ascii.eqb (enc_char i) padChar).

(** Characters a base64 text is made of. *)
Definition plain_char (c : ascii) : bool :=
  negb (is_newline c) && negb (Ascii.eqb c "."%char).

(** ** Splitting a signed text *)

Fixpoint has_char (sep : ascii) (s : string) : bool :=
  match s with
  | EmptyString => false
  | String c rest => Ascii.eqb c sep || has_char sep rest
  end.

(** The specification's notion of a structurally malformed token: it does
    not split into exactly two parts, or one part is not valid base64. *)
Definition malformed (signedText : string) : bool :=
  match Split signedText "."%char with
  | [part0; part1] =>
      match DecodeString part0, DecodeString part1 with
      | Some _, Some _ => false
      | _, _ => true
      end
  | _ => true
  end.

End Crypto.

(* ===================================================================== *)
(** * pkg/errors: application errors *)
(* ===================================================================== *)

Module Errors.

(** An [error] value is either an error of a driver or client library, or an
    [AppError] with its code, message, HTTP status and wrapped cause. *)
Inductive error : Type :=
| RawError (msg : string)
| AppError (Code Message : string) (HTTPStatus : Z) (Err : cause)
with cause : Type :=
| no_cause
| caused_by (err : error).

Definition ErrCodeValidation : string := "ERR_VALIDATION".
Definition ErrCodeInvalidInput : string := "ERR_INVALID_INPUT".
Definition ErrCodeNotFound : string := "ERR_NOT_FOUND".
Definition ErrCodeDBError : string := "ERR_DATABASE".
Definition ErrCodeInternal : string := "ERR_INTERNAL".

Definition StatusOK : Z := 200.
Definition StatusBadRequest : Z := 400.
Definition StatusNotFound : Z := 404.
Definition StatusInternalServerError : Z := 500.

Definition Wrap (err : error) (code message : string) : error :=
  AppError code message StatusInternalServerError (caused_by err).

Definition NotFound (resource : string) : error :=
  AppError ErrCodeNotFound (resource ++ " not found")%string StatusNotFound no_cause.

Definition Database (err : error) : error :=
  AppError ErrCodeDBError "Database operation failed" StatusInternalServerError
           (caused_by err).

(** [As]: the first [AppError] of the chain; library errors wrap none. *)
Definition As (err : error) : option (string * string * Z) :=
  match err with
  | AppError code message status _ => Some (code, message, status)
  | RawError _ => None
  end.

Definition IsNotFound (err : option error) : bool :=
  match err with
  | None => false
  | Some e =>
      match As e with
      | Some (code, _, _) => String.eqb code ErrCodeNotFound
      | None => false
      end
  end.

(** A Go result pair [(value, error)] of which exactly one side is set. *)
Inductive result (A : Type) : Type :=
| Ok (a : A)
| Err (e : error).
Arguments Ok {A} a.
Arguments Err {A} e.

End Errors.

(* ===================================================================== *)
(** * The hub: domain, repository and cache of the configuration *)
(* ===================================================================== *)

Module ConfigStore.
Import GoInt Errors.

(** [config.Config]. *)
Record Config : Type := mkConfig {
  UUID : string;
  Version : Z;
  ConfigURL : string;
  PoolingInterval : Z;
  CreatedAt : string
}.

(** The columns of table [config] besides its primary key [uuid]. *)
Record ConfigRow : Type := mkRow {
  col_version : Z;
  col_config_url : string;
  col_pooling_interval : Z;
  col_created_at : string
}.

Definition to_row (c : Config) : ConfigRow :=
  mkRow (Version c) (ConfigURL c) (PoolingInterval c) (CreatedAt c).

Definition of_row (r : string * ConfigRow) : Config :=
  mkConfig (fst r) (col_version (snd r)) (col_config_url (snd r))
           (col_pooling_interval (snd r)) (col_created_at (snd r)).

(** The state of the hub: the table, keyed by primary key, and the value
    cached under key [config:latest], if any. *)
Record hub : Type := mkHub {
  db : gmap string ConfigRow;
  cache : option Config
}.

(** [ORDER BY version DESC, uuid LIMIT 1]: whether row [c] comes before
    row [best]. *)
Definition before (c best : Config) : bool :=
  (Version best <? Version c)
  || ((Version c =? Version best) && String.ltb (UUID c) (UUID best)).

Definition pick (best : option Config) (r : string * ConfigRow) : option Config :=
  match best with
  | None => Some (of_row r)
  | Some b => if before (of_row r) b then Some (of_row r) else Some b
  end.

Definition first_by_version (rows : list (string * ConfigRow)) : option Config :=
  foldl pick None rows.

(** The row the query of [GetLatestConfig] selects. *)
Definition latest (d : gmap string ConfigRow) : option Config :=
  first_by_version (map_to_list d).

Definition latest_version (d : gmap string ConfigRow) : option Z :=
  Version <$> latest d.

(** ** repository *)

(** [repository.GetLatestConfig]; [fault] is the error of the database
    call, if it fails for a reason other than an empty table. *)
Definition GetLatestConfig (fault : option error) (d : gmap string ConfigRow)
  : result Config :=
  match fault with
  | Some e => Err (Database e)
  | None =>
      match latest d with
      | None => Err (NotFound "config")
      | Some cfg => Ok cfg
      end
  end.

(** [repository.Create]: an INSERT, refused on a primary key already used. *)
Definition Create (fault : option error) (config : Config) (d : gmap string ConfigRow)
  : gmap string ConfigRow * option error :=
  match fault with
  | Some e => (d, Some e)
  | None =>
      match d !! UUID config with
      | Some _ => (d, Some (RawError "duplicate key value violates unique constraint"))
      | None => (<[UUID config := to_row config]> d, None)
      end
  end.

(** [repository.Update]: [Save] writes all columns of the row with the
    primary key of [config], inserting the row if there is none. *)
Definition Update (fault : option error) (config : Config) (d : gmap string ConfigRow)
  : gmap string ConfigRow * option error :=
  match fault with
  | Some e => (d, Some e)
  | None => (<[UUID config := to_row config]> d, None)
  end.

(** ** cache *)

(** [ConfigCache.SetConfig]. *)
Definition SetConfig (fault : option error) (config : Config) (c : option Config)
  : option Config * option error :=
  match fault with
  | Some e => (c, Some e)
  | None => (Some config, None)
  end.

(** [ConfigCache.GetConfig]; a missing key is the client's [redis.Nil]. *)
Definition GetConfig (fault : option error) (c : option Config) : result Config :=
  match fault with
  | Some e => Err e
  | None =>
      match c with
      | None => Err (RawError "redis: nil")
      | Some cfg => Ok cfg
      end
  end.

End ConfigStore.

(* ===================================================================== *)
(** * The hub: use cases *)
(* ===================================================================== *)

Module ConfigUsecase.
Import GoInt Errors ConfigStore.

(** [config.SaveCreate] and [config.SaveUpdate], their fields prefixed with
    the name of the operation; [None] is a nil pointer. *)
Record SaveCreate : Type := mkSaveCreate {
  CreateConfigUrl : string;
  CreatePoolingInterval : Z
}.

Record SaveUpdate : Type := mkSaveUpdate {
  UpdateConfigUrl : string;
  UpdatePoolingInterval : option Z
}.

(** What a call obtains from its environment: the fresh identifier, the
    clock, and for each call to a collaborator the error it fails with. *)
Record Env : Type := mkEnv {
  uuid_New : string;
  time_Now : string;
  agent_GetById : option error;
  cache_Get_fault : option error;
  db_Get_fault : option error;
  db_Write_fault : option error;
  cache_Set_fault : option error
}.

Definition GetLatestConfig (env : Env) (agentID : option string) (h : hub)
  : hub * result Config :=
  let agent_err := match agentID with Some _ => agent_GetById env | None => None end in
  match agent_err with
  | Some err =>
      if IsNotFound (Some err) then (h, Err (NotFound "agent"))
      else (h, Err (Wrap err ErrCodeInternal "failed to get agent"))
  | None =>
      match ConfigStore.GetConfig (cache_Get_fault env) (cache h) with
      | Ok chaced => (h, Ok chaced)
      | Err _ =>
          match ConfigStore.GetLatestConfig (db_Get_fault env) (db h) with
          | Err err =>
              if IsNotFound (Some err) then (h, Err (NotFound "config"))
              else (h, Err (Wrap err ErrCodeInternal "failed to get latest config"))
          | Ok config =>
              let '(c', _) := SetConfig (cache_Set_fault env) config (cache h) in
              (mkHub (db h) c', Ok config)
          end
      end
  end.

Definition Create (env : Env) (save : SaveCreate) (h : hub) : hub * result Config :=
  let now := time_Now env in
  let r := ConfigStore.GetLatestConfig (db_Get_fault env) (db h) in
  let finish (version : Z) :=
    let newConfig :=
      mkConfig (uuid_New env) version (CreateConfigUrl save)
               (CreatePoolingInterval save) now in
    match ConfigStore.Create (db_Write_fault env) newConfig (db h) with
    | (d', Some err) => (mkHub d' (cache h), Err (Wrap err "config" "failed to create config"))
    | (d', None) =>
        match SetConfig (cache_Set_fault env) newConfig (cache h) with
        | (c', Some err) => (mkHub d' c', Err (Wrap err "config" "failed to cache config"))
        | (c', None) => (mkHub d' c', Ok newConfig)
        end
    end in
  match r with
  | Err err =>
      if negb (IsNotFound (Some err)) then (h, Err err)
      else finish 1
  | Ok latestConfig => finish (add64 (Version latestConfig) 1)
  end.

Definition Update (env : Env) (save : SaveUpdate) (h : hub) : hub * option error :=
  match ConfigStore.GetLatestConfig (db_Get_fault env) (db h) with
  | Err err =>
      if IsNotFound (Some err) then (h, Some (NotFound "config"))
      else (h, Some (Wrap err "config" "failed to get config"))
  | Ok config =>
      let config1 :=
        if negb (is_empty_string (UpdateConfigUrl save)) then
          mkConfig (UUID config) (Version config) (UpdateConfigUrl save)
                   (PoolingInterval config) (CreatedAt config)
        else config in
      let config2 :=
        match UpdatePoolingInterval save with
        | Some i =>
            if 0 <=? i then
              mkConfig (UUID config1) (Version config1) (ConfigURL config1) i
                       (CreatedAt config1)
            else config1
        | None => config1
        end in
      match ConfigStore.Update (db_Write_fault env) config2 (db h) with
      | (d', Some err) => (mkHub d' (cache h), Some (Wrap err "config" "failed to update config"))
      | (d', None) =>
          match SetConfig (cache_Set_fault env) config2 (cache h) with
          | (c', Some err) => (mkHub d' c', Some (Wrap err "config" "failed to cache config"))
          | (c', None) => (mkHub d' c', None)
          end
      end
  end.

End ConfigUsecase.

(* ===================================================================== *)
(** * The hub: HTTP handlers of the configuration *)
(* ===================================================================== *)

Module ConfigHandler.
Import GoInt Errors ConfigStore ConfigUsecase.

(** What a handler sends: the HTTP status and the envelope
    [response.Response] with its success flag, error code and data. *)
Record Response : Type := mkResponse {
  Status : Z;
  Success : bool;
  ErrorCode : option string;
  ErrorMessage : option string;
  Data : option Config
}.

Definition response_Success (data : option Config) : Response :=
  mkResponse StatusOK true None None data.

(** [response.Error]: an error that is no [AppError] is wrapped as an
    internal one. *)
Definition response_Error (err : error) : Response :=
  match As err with
  | Some (code, message, status) => mkResponse status false (Some code) (Some message) None
  | None =>
      mkResponse StatusInternalServerError false (Some ErrCodeInternal)
                 (Some "An unexpected error occurred") None
  end.

(** [response.BindingError] on [validator.ValidationErrors]. *)
Definition response_ValidationFailed : Response :=
  mkResponse StatusBadRequest false (Some ErrCodeValidation)
             (Some "Validation failed") None.

(** The [binding] tags of [SaveCreate]: [config_url] is [required],
    [pooling_interval] has [min=30].  The input is the decoded body; a body
    that is not JSON of the right shape is answered before validation. *)
Definition binding_SaveCreate (input : SaveCreate) : bool :=
  negb (is_empty_string (CreateConfigUrl input))
  && (30 <=? CreatePoolingInterval input).

(** The [binding] tags of [SaveUpdate]: both fields have [omitempty], and
    [pooling_interval], a pointer, has [min=30] when it is not nil. *)
Definition binding_SaveUpdate (input : SaveUpdate) : bool :=
  match UpdatePoolingInterval input with
  | None => true
  | Some i => 30 <=? i
  end.

Definition Create (env : Env) (input : SaveCreate) (h : hub) : hub * Response :=
  if negb (binding_SaveCreate input) then (h, response_ValidationFailed)
  else
    match ConfigUsecase.Create env input h with
    | (h', Err err) => (h', response_Error err)
    | (h', Ok config) => (h', response_Success (Some config))
    end.

Definition Update (env : Env) (input : SaveUpdate) (h : hub) : hub * Response :=
  if negb (binding_SaveUpdate input) then (h, response_ValidationFailed)
  else
    match ConfigUsecase.Update env input h with
    | (h', Some err) => (h', response_Error err)
    | (h', None) => (h', response_Success None)
    end.

End ConfigHandler.

(* ===================================================================== *)
(** * The hub: vocabulary of its properties *)
(* ===================================================================== *)

Module HubSpec.
Import GoInt Errors ConfigStore ConfigUsecase.

(** [v] is the greatest version of the table. *)
Definition max_version (d : gmap string ConfigRow) (v : Z) : Prop :=
  (exists k r, d !! k = Some r /\ col_version r = v) /\
  (forall k r, d !! k = Some r -> col_version r <= v).

(** The order of versions as [get_latest] reports them, "not found" coming
    before every version. *)
Definition version_le (a b : option Z) : Prop :=
  match a, b with
  | None, _ => True
  | Some _, None => False
  | Some x, Some y => x <= y
  end.

(** The configuration [Create] builds. *)
Definition created_config (env : Env) (save : SaveCreate) (h : hub) : Config :=
  mkConfig (uuid_New env)
           (match latest (db h) with
            | None => 1
            | Some latestConfig => add64 (Version latestConfig) 1
            end)
           (CreateConfigUrl save) (CreatePoolingInterval save) (time_Now env).

(** The configuration [Update] writes, given the one it read. *)
Definition updated_config (save : SaveUpdate) (config : Config) : Config :=
  let config1 :=
    if negb (is_empty_string (UpdateConfigUrl save)) then
      mkConfig (UUID config) (Version config) (UpdateConfigUrl save)
               (PoolingInterval config) (CreatedAt config)
    else config in
  match UpdatePoolingInterval save with
  | Some i =>
      if 0 <=? i then
        mkConfig (UUID config1) (Version config1) (ConfigURL config1) i
                 (CreatedAt config1)
      else config1
  | None => config1
  end.

(** ** Sequences of operations at the hub *)

Inductive op : Type :=
| OpCreate (env : Env) (save : SaveCreate)
| OpUpdate (env : Env) (save : SaveUpdate).

Definition step (h : hub) (o : op) : hub :=
  match o with
  | OpCreate env save => fst (Create env save h)
  | OpUpdate env save => fst (Update env save h)
  end.

Definition run (ops : list op) (h : hub) : hub := foldl step h ops.

Definition op_env (o : op) : Env :=
  match o with OpCreate env _ => env | OpUpdate env _ => env end.

(** The cache agrees with the store: what it holds, if anything, has the
    greatest version of the table. *)
Definition cache_in_sync (h : hub) : Prop :=
  forall c, cache h = Some c -> latest_version (db h) = Some (Version c).

(** The greatest stored version leaves room for one more. *)
Definition version_in_range (h : hub) : Prop :=
  forall v, latest_version (db h) = Some v -> MinInt64 <= v < MaxInt64.

(** A hub holding one configuration, version 1, stored and cached. *)
Definition hub_v1 : hub :=
  mkHub {[ "id-1" := mkRow 1 "https://example.com/a" 30 "2024-01-01T00:00:00Z" ]}
        (Some (mkConfig "id-1" 1 "https://example.com/a" 30 "2024-01-01T00:00:00Z")).

(** An environment in which every call succeeds, and one in which the
    cache write fails. *)
Definition env_ok : Env :=
  mkEnv "id-2" "2024-01-02T00:00:00Z" None None None None None.

Definition env_cache_down : Env :=
  mkEnv "id-2" "2024-01-02T00:00:00Z" None None None None
        (Some (RawError "dial tcp: connection refused")).

(** No database or cache call of the operation fails. *)
Definition no_fault (env : Env) : Prop :=
  db_Get_fault env = None /\ db_Write_fault env = None /\ cache_Set_fault env = None.

End HubSpec.

(* ===================================================================== *)
(** * The relay: the polling loop of cmd/agents *)
(* ===================================================================== *)

Module Agent.
Import GoInt ConfigStore.

(** A [*Config] is an address in the heap of allocated configurations;
    allocation appends, so an address is an index and a fresh one is the
    length of the heap. *)
Definition ptr : Type := nat.

(** The variables the loop of [startPolling] works on: its parameters
    [lastConfig] and [interval] (the ticker runs at [interval]), and the
    package-level [countFetch] and [version]. *)
Record state : Type := mkState {
  heap : list Config;
  lastConfig : ptr;
  interval : Z;
  countFetch : Z;
  version : Z;
  configFile : option Config
}.

(** What a cycle does that can be observed from outside, in order. *)
Inductive event : Type :=
| FetchFailed
| WroteConfigFile (cfg : Config)
| Pushed (cfg : Config) (succeeded : bool)
| TickerReset (d : Z)
| Unchanged.

(** What the collaborators answer during one cycle: the configuration the
    controller returns, if the fetch succeeds, and whether the push to the
    worker succeeds. *)
Record answers : Type := mkAnswers {
  fetched : option Config;
  push_ok : bool
}.

Inductive outcome : Type :=
| Continue (st : state) (trace : list event)
| Panic (trace : list event).

(** [fetchConfigFromController], on a successful exchange: the snapshot is
    written when [version == 0 || response.Data.Version > version], and the
    address of the decoded value, a new allocation, is returned. *)
Definition fetchConfigFromController (cfg : Config) (st : state)
  : state * ptr * list event :=
  let newConfig := length (heap st) in
  let writes := (version st =? 0) || (version st <? Version cfg) in
  (mkState (heap st ++ [cfg]) (lastConfig st) (interval st) (countFetch st)
           (version st) (if writes then Some cfg else configFile st),
   newConfig,
   if writes then [WroteConfigFile cfg] else []).

(** The condition of the loop on which it pushes, as the code evaluates it:
    a comparison of the two pointers, or the counter above 3. *)
Definition changed (newConfig last : ptr) (count : Z) : bool :=
  negb (Nat.eqb newConfig last) || (3 <? count).

(** One firing of the ticker in [startPolling]. *)
Definition tick (a : answers) (st : state) : outcome :=
  match fetched a with
  | None => Continue st [FetchFailed]
  | Some cfg =>
      let '(st1, newConfig, tr) := fetchConfigFromController cfg st in
      let count := add64 (countFetch st1) 1 in
      if changed newConfig (lastConfig st1) count then
        let tr1 := tr ++ [Pushed cfg (push_ok a)] in
        let newInterval := mul64 (PoolingInterval cfg) Second in
        if negb (newInterval =? interval st1) then
          if newInterval <=? 0 then Panic tr1
          else
            Continue (mkState (heap st1) newConfig newInterval 0 (version st1)
                              (configFile st1))
                     (tr1 ++ [TickerReset newInterval])
        else
          Continue (mkState (heap st1) newConfig (interval st1) 0 (version st1)
                            (configFile st1))
                   tr1
      else
        Continue (mkState (heap st1) (lastConfig st1) (interval st1) count
                          (version st1) (configFile st1))
                 (tr ++ [Unchanged])
  end.

(** The configuration [lastConfig] points to. *)
Definition last_applied (st : state) : option Config := heap st !! lastConfig st.

(** Whether a trace contains a push. *)
Definition pushes (tr : list event) : bool :=
  existsb (fun e => match e with Pushed _ _ => true | _ => false end) tr.

Definition trace_of (o : outcome) : list event :=
  match o with Continue _ tr => tr | Panic tr => tr end.

(** The decision the specification asks for: the fetched version is greater
    than the last applied one, or the counter of unchanged polls, this poll
    included, is above the threshold of 3. *)
Definition should_push (fetchedConfig last : Config) (count : Z) : bool :=
  (Version last <? Version fetchedConfig) || (3 <? count).

End Agent.

(* ===================================================================== *)
(** * The relay: internal/agent/scheduler *)
(* ===================================================================== *)

Module Scheduler.
Import GoInt ConfigStore.

(** The fields of [ConfigScheduler] that [fetchConfig] reads and writes:
    the current configuration ([None] for nil) and the period of the
    ticker ([None] when there is no ticker). *)
Record state : Type := mkState {
  currentConfig : option Config;
  ticker : option Z
}.

Inductive event : Type :=
| FetchFailed
| IntervalUpdated (seconds : Z)
| ConfigUpdate (cfg : Config)
| Unchanged.

Inductive outcome : Type :=
| Continue (st : state) (trace : list event)
| Panic (trace : list event).

(** [updateInterval]: the ticker is replaced; [time.NewTicker] panics on a
    period that is not positive ([None]). *)
Definition updateInterval (newInterval : Z) (st : state) : option state :=
  let interval := mul64 newInterval Second in
  if interval <=? 0 then None
  else Some (mkState (currentConfig st) (Some interval)).

(** [fetchConfig], with the answer of the controller and whether a callback
    [onConfigUpdate] is installed. *)
Definition fetchConfig (fetched : option Config) (has_callback : bool) (st : state)
  : outcome :=
  match fetched with
  | None => Continue st [FetchFailed]
  | Some newConfig =>
      let is_new :=
        match currentConfig st with
        | None => true
        | Some cur => Version cur <? Version newConfig
        end in
      if is_new then
        let finish (st1 : state) (tr : list event) :=
          Continue (mkState (Some newConfig) (ticker st1))
                   (tr ++ (if has_callback then [ConfigUpdate newConfig] else [])) in
        match currentConfig st with
        | Some cur =>
            if negb (PoolingInterval cur =? PoolingInterval newConfig) then
              match updateInterval (PoolingInterval newConfig) st with
              | None => Panic []
              | Some st1 => finish st1 [IntervalUpdated (PoolingInterval newConfig)]
              end
            else finish st []
        | None => finish st []
        end
      else Continue st [Unchanged]
  end.

Definition trace_of (o : outcome) : list event :=
  match o with Continue _ tr => tr | Panic tr => tr end.

End Scheduler.

(* ===================================================================== *)
(** * The relay: internal/agent/version_checker *)
(* ===================================================================== *)

Module VersionChecker.
Import GoInt ConfigStore.

Inductive event : Type :=
| FetchFailed
| Pushed (cfg : Config) (succeeded : bool)
| ConfigUpdate (cfg : Config)
| Unchanged.

(** What the collaborators answer during one check: the version and the
    configuration the controller returns, if these calls succeed, and
    whether the push to the worker succeeds. *)
Record answers : Type := mkAnswers {
  remoteVersion : option Z;
  fetched : option Config;
  push_ok : bool
}.

(** [checkVersion] on the field [currentVersion], with whether a callback
    [onConfigUpdate] is installed. *)
Definition checkVersion (a : answers) (has_callback : bool) (currentVersion : Z)
  : Z * list event :=
  match remoteVersion a with
  | None => (currentVersion, [FetchFailed])
  | Some remote =>
      let localVersion := currentVersion in
      if localVersion <? remote then
        match fetched a with
        | None => (currentVersion, [FetchFailed])
        | Some newConfig =>
            if push_ok a then
              (remote, Pushed newConfig true
                         :: (if has_callback then [ConfigUpdate newConfig] else []))
            else (remote, [Pushed newConfig false])
        end
      else (currentVersion, [Unchanged])
  end.

End VersionChecker.

(* ===================================================================== *)
(** * The relay: scenarios *)
(* ===================================================================== *)

Module RelaySpec.
Import GoInt ConfigStore Agent.

(** The largest interval, in seconds, that [time.Duration] can hold. *)
Definition MaxSeconds : Z := 9223372036.

(** The scenarios of the specification: the relay has applied version 1
    (interval 30 s) and has just reset its counter. *)
Definition cfg_v1 : Config :=
  mkConfig "id-1" 1 "https://example.com/a" 30 "2024-01-01T00:00:00Z".

Definition cfg_v2 : Config :=
  mkConfig "id-2" 2 "https://example.com/a" 60 "2024-01-02T00:00:00Z".

Definition relay_v1 : state :=
  mkState [cfg_v1] 0%nat (30 * Second) 0 0 (Some cfg_v1).

End RelaySpec.

(* ===================================================================== *)
(** * The leaf: the configuration holder and the task of the worker *)
(* ===================================================================== *)

Module Worker.
Import GoInt Errors.

(** [worker.WorkerConfig] and [worker.UpdateConfigRequest], the fields of
    the request prefixed with [Req]. *)
Record WorkerConfig : Type := mkWorkerConfig {
  ConfigURL : string;
  PoolingInterval : Z;
  Version : Z;
  UUID : string
}.

Record UpdateConfigRequest : Type := mkRequest {
  ReqConfigURL : string;
  ReqPoolingInterval : Z;
  ReqVersion : Z;
  ReqUUID : string
}.

(** The package-level variables: [globalConfig] ([None] for nil) and
    whether [configMutex] is held. *)
Record state : Type := mkState {
  globalConfig : option WorkerConfig;
  configMutex : bool
}.

(** A call either returns, leaving a state behind, or waits for the lock
    without end. *)
Inductive call (A : Type) : Type :=
| Returns (st : state) (a : A)
| Blocks.
Arguments Returns {A} st a.
Arguments Blocks {A}.

(** What the outbound request comes to. *)
Inductive http_result : Type :=
| NewRequestError (e : error)
| DoError (e : error)
| ReadError (e : error)
| Body (StatusCode : Z) (bodyBytes : string).

Definition config_of (req : UpdateConfigRequest) : WorkerConfig :=
  mkWorkerConfig (ReqConfigURL req) (ReqPoolingInterval req) (ReqVersion req)
                 (ReqUUID req).

(** [Worker.UpdateConfig]: lock, overwrite, unlock on return. *)
Definition UpdateConfig (req : UpdateConfigRequest) (st : state) : call (option error) :=
  if configMutex st then Blocks
  else Returns (mkState (Some (config_of req)) false) None.

Section Hit.

(** [encoding/json]: the type of decoded values and [json.Unmarshal] into
    an [any], [None] when the text is not JSON. *)
Variable JSON : Type.
Variable json_Unmarshal : string -> option JSON.

(** The dynamic value [Hit] returns: a string or a decoded structure. *)
Inductive any : Type :=
| RawText (s : string)
| Decoded (v : JSON).

(** [Worker.Hit]; [http] is what a GET of a given URL comes to.  The lock
    taken at entry is released once the target is read, but not on the
    return taken when no configuration is held. *)
Definition Hit (http : string -> http_result) (st : state) : call (result any) :=
  if configMutex st then Blocks
  else
    match globalConfig st with
    | None => Returns (mkState None true) (Err (NotFound "config"))
    | Some held =>
        let configURL := ConfigURL held in
        if is_empty_string configURL then Returns st (Err (NotFound "config"))
        else
          match http configURL with
          | NewRequestError e =>
              Returns st (Err (Wrap e ErrCodeInternal "failed to create request"))
          | DoError e =>
              Returns st (Err (Wrap e ErrCodeInternal "failed to send request"))
          | ReadError e =>
              Returns st (Err (Wrap e ErrCodeInternal "failed to read response body"))
          | Body _ bodyBytes =>
              match json_Unmarshal bodyBytes with
              | None => Returns st (Ok (RawText bodyBytes))
              | Some result => Returns st (Ok (RawText bodyBytes))
              end
          end
    end.

End Hit.

Arguments RawText {JSON} s.
Arguments Decoded {JSON} v.

(** ** The handler of a push *)

(** The [binding] tags of [UpdateConfigRequest]: every field is [required]
    (not the zero value) and the interval has [min=30]. *)
Definition binding_UpdateConfigRequest (req : UpdateConfigRequest) : bool :=
  negb (is_empty_string (ReqConfigURL req))
  && negb (ReqPoolingInterval req =? 0) && (30 <=? ReqPoolingInterval req)
  && negb (ReqVersion req =? 0)
  && negb (is_empty_string (ReqUUID req)).

Inductive reply : Type :=
| ValidationFailed
| Failed (err : error)
| Updated (version : Z).

(** [WorkerHandler.UpdateConfig]. *)
Definition HandleUpdateConfig (req : UpdateConfigRequest) (st : state) : call reply :=
  if negb (binding_UpdateConfigRequest req) then Returns st ValidationFailed
  else
    match UpdateConfig req st with
    | Blocks => Blocks
    | Returns st' (Some err) => Returns st' (Failed err)
    | Returns st' None => Returns st' (Updated (ReqVersion req))
    end.

(** ** The states the worker goes through, one request at a time *)

Definition state_after {A} (c : call A) (st : state) : state :=
  match c with Returns st' _ => st' | Blocks => st end.

Inductive reachable : state -> Prop :=
| reachable_start : reachable (mkState None false)
| reachable_Hit st JSON (unmarshal : string -> option JSON) http :
    reachable st -> reachable (state_after (Hit JSON unmarshal http st) st)
| reachable_UpdateConfig st req :
    reachable st -> reachable (state_after (HandleUpdateConfig req st) st).

(** A decoder of the three JSON literals, to run [Hit] on. *)
Inductive literal : Type := JNull | JTrue | JFalse.

Definition decode_literal (s : string) : option literal :=
  if String.eqb s "null" then Some JNull
  else if String.eqb s "true" then Some JTrue
  else if String.eqb s "false" then Some JFalse
  else None.

End Worker.

(* ===================================================================== *)
(** * The leaf: scenarios *)
(* ===================================================================== *)

Module LeafSpec.
Import GoInt Errors Worker.

(** Scenario D: the leaf holds version 5 and receives version 3. *)
Definition held_v5 : state :=
  mkState (Some (mkWorkerConfig "https://example.com/b" 60 5 "id-5")) false.

Definition push_v3 : UpdateConfigRequest :=
  mkRequest "https://example.com/a" 30 3 "id-3".

End LeafSpec.

(* ===================================================================== *)
(** * pkg/errors: classification of errors *)
(* ===================================================================== *)

Module ErrorsEdge.
Import GoInt Errors.

Definition ErrCodeExternalService : string := "ERR_EXTERNAL_SERVICE".
Definition ErrCodeTimeout : string := "ERR_TIMEOUT".
Definition ErrCodeRateLimit : string := "ERR_RATE_LIMIT".

(** [err.Error()]: the message of a library error, and the format of
    [AppError.Error]. *)
Fixpoint Error (e : error) : string :=
  match e with
  | RawError msg => msg
  | AppError code message _ no_cause => (code ++ ": " ++ message)%string
  | AppError code message _ (caused_by e') =>
      (code ++ ": " ++ message ++ " (" ++ Error e' ++ ")")%string
  end.

(** [GetHTTPStatus]; [None] is a nil error. *)
Definition GetHTTPStatus (err : option error) : Z :=
  match err with
  | None => StatusInternalServerError
  | Some e =>
      match As e with
      | Some (_, _, status) => status
      | None => StatusInternalServerError
      end
  end.

Definition IsClientError (err : option error) : bool :=
  let status := GetHTTPStatus err in
  (400 <=? status) && (status <? 500).

Definition IsServerError (err : option error) : bool :=
  let status := GetHTTPStatus err in
  (500 <=? status) && (status <? 600).

(** [c|32] on a byte. *)
Definition or32 (c : ascii) : Z := Z.lor (Crypto.byte_val c) 32.

(** The inner loop of [containsIgnoreCaseSlow], over [j]: [substr] against
    the bytes of the text from index [i] on, [s] being that rest of the
    text.  The outer loop keeps [i + len(substr) <= len(s)], so the text
    does not end first. *)
Fixpoint match_at (s substr : string) : bool :=
  match substr with
  | EmptyString => true
  | String c2 substr' =>
      match s with
      | EmptyString => false
      | String c1 s' =>
          if negb (Ascii.eqb c1 c2) && negb (or32 c1 =? or32 c2) then false
          else match_at s' substr'
      end
  end.

(** [containsIgnoreCaseSlow]: the loop over [i], as a recursion over the
    rest of the text from [i] on; [i <= len(s) - len(substr)] says that
    this rest is not shorter than [substr]. *)
Fixpoint containsIgnoreCaseSlow (s substr : string) : bool :=
  if (String.length s <? String.length substr)%nat then false
  else if match_at s substr then true
  else
    match s with
    | EmptyString => false
    | String _ s' => containsIgnoreCaseSlow s' substr
    end.

(** [(s[0]|32) >= 'a' && (s[0]|32) <= 'z'] *)
Definition first_is_letter (s : string) : bool :=
  match s with
  | EmptyString => false
  | String c _ => (97 <=? or32 c) && (or32 c <=? 122)
  end.

Definition containsIgnoreCase (s substr : string) : bool :=
  (String.length substr <=? String.length s)%nat
  && (String.eqb s substr
      || ((0 <? String.length s)%nat && (0 <? String.length substr)%nat
          && first_is_letter s
          && containsIgnoreCaseSlow s substr)).

Definition retryablePatterns : list string :=
  [ "connection refused"; "connection reset"; "timeout"; "temporary failure";
    "service unavailable"; "too many connections"; "network is unreachable";
    "no such host"; "i/o timeout" ].

(** The map [retryableCodes], a missing key reading as false. *)
Definition retryableCodes (code : string) : bool :=
  String.eqb code ErrCodeExternalService
  || String.eqb code ErrCodeTimeout
  || String.eqb code ErrCodeRateLimit
  || String.eqb code ErrCodeDBError.

Definition IsRetryable (err : option error) : bool :=
  match err with
  | None => false
  | Some e =>
      match As e with
      | None => existsb (containsIgnoreCase (Error e)) retryablePatterns
      | Some (code, _, _) => retryableCodes code
      end
  end.

(** ** Errors of other types that wrap an error *)

(** An error as [IsRetryable] can be given one: an error of the model as it
    is, or an error of another type that wraps an error, as [fmt.Errorf]
    makes one with [%w]; [text] is what its [Error] returns, [inner] what
    its [Unwrap] returns. *)
Inductive wrapper : Type :=
| Direct (e : error)
| Errorf (text : string) (inner : wrapper).

(** [errors.As] walks the chain of [Unwrap] down to the first [AppError]. *)
Fixpoint As_chain (w : wrapper) : option (string * string * Z) :=
  match w with
  | Direct e => As e
  | Errorf _ inner => As_chain inner
  end.

Definition Error_chain (w : wrapper) : string :=
  match w with
  | Direct e => Error e
  | Errorf text _ => text
  end.

(** [IsRetryable] on an error that is not nil, wrappers included. *)
Definition IsRetryable_chain (w : wrapper) : bool :=
  match As_chain w with
  | None => existsb (containsIgnoreCase (Error_chain w)) retryablePatterns
  | Some (code, _, _) => retryableCodes code
  end.

(** ** Vocabulary of the properties *)

(** Two texts of the same length whose bytes agree up to bit 5. *)
Fixpoint eq_fold (a b : string) : bool :=
  match a, b with
  | EmptyString, EmptyString => true
  | String x a', String y b' => (or32 x =? or32 y) && eq_fold a' b'
  | _, _ => false
  end.

(** [substr] occurs in [s], up to bit 5 of each byte. *)
Definition occurs_fold (substr s : string) : Prop :=
  exists pre mid post, s = (pre ++ mid ++ post)%string /\ eq_fold mid substr = true.

End ErrorsEdge.

(* ===================================================================== *)
(** * pkg/response: pagination *)
(* ===================================================================== *)

Module Pagination.
Import GoInt.

(** [response.Meta]. *)
Record Meta : Type := mkMeta {
  Page : Z;
  PageSize : Z;
  TotalItems : Z;
  TotalPages : Z
}.

(** The meta information [Paginated] sends; [/] and [%] of Go truncate
    towards zero. *)
Definition Paginated (page pageSize total : Z) : Meta :=
  let pageSize := if pageSize <=? 0 then 10 else pageSize in
  let page := if page <=? 0 then 1 else page in
  let totalPages := Z.quot total pageSize in
  let totalPages :=
    if 0 <? Z.rem total pageSize then add64 totalPages 1 else totalPages in
  mkMeta page pageSize total totalPages.

End Pagination.

(* ===================================================================== *)
(** * The hub: agents, their registration and the guards of the routes *)
(* ===================================================================== *)

Module Agents.
Import GoInt Errors.

(** [agents.Agent]; the table [agents] is a map from the primary key
    [uuid] to the column [created_at]. *)
Record Agent : Type := mkAgent {
  UUID : string;
  CreatedAt : string
}.

(** [repository.Create]: an INSERT, refused on a primary key already used. *)
Definition Create (fault : option error) (agent : Agent) (t : gmap string string)
  : gmap string string * option error :=
  match fault with
  | Some e => (t, Some e)
  | None =>
      match t !! UUID agent with
      | Some _ => (t, Some (RawError "duplicate key value violates unique constraint"))
      | None => (<[UUID agent := CreatedAt agent]> t, None)
      end
  end.

(** [repository.GetById]. *)
Definition GetById (fault : option error) (ID : string) (t : gmap string string)
  : result Agent :=
  match fault with
  | Some e => Err (Database e)
  | None =>
      match t !! ID with
      | None => Err (NotFound "agent")
      | Some created => Ok (mkAgent ID created)
      end
  end.

End Agents.

Module AgentUsecase.
Import GoInt Errors Agents.

Record Env : Type := mkEnv {
  uuid_New : string;
  time_Now : string;
  db_Write_fault : option error
}.

(** The errors of package crypto as [error] values; the offset that ends
    the message of a [base64.CorruptInputError] is left out. *)
Definition crypto_error (e : Crypto.error) : error :=
  match e with
  | Crypto.ErrEmptyInput => RawError "text and secretKey cannot be empty"
  | Crypto.ErrInvalidFormat => RawError "invalid signed text format"
  | Crypto.ErrCorruptInput => RawError "illegal base64 data at input byte"
  end.

(** [AgentUsecase.Create], with [cfg.Security.AgentSig]. *)
Definition Create (env : Env) (AgentSig : string) (t : gmap string string)
  : gmap string string * result string :=
  let now := time_Now env in
  let agent := mkAgent (uuid_New env) now in
  match Agents.Create (db_Write_fault env) agent t with
  | (t', Some err) => (t', Err (Wrap err "agent" "failed to create agent"))
  | (t', None) =>
      match Crypto.Generate (UUID agent) AgentSig with
      | (_, Some err) =>
          (t', Err (Wrap (crypto_error err) "agent" "failed to create access token"))
      | (tokenAccessConfig, None) => (t', Ok tokenAccessConfig)
      end
  end.

End AgentUsecase.

Module Middleware.
Import GoInt Errors.

(** [strings.SplitN(s, sep, 2)] for a separator of one byte: the text
    before the first separator and the whole rest, or [s] alone. *)
Fixpoint SplitN2 (s : string) (sep : ascii) : list string :=
  match s with
  | EmptyString => [EmptyString]
  | String c rest =>
      if Ascii.eqb c sep then [EmptyString; rest]
      else match SplitN2 rest sep with
           | h :: t => String c h :: t
           | [] => [String c EmptyString]
           end
  end.

(** What a guard does with a request: it answers 401 and aborts, it hands
    over to the next handler with what it has set in the context, or the
    index expression [SplitN(...)[1]] panics. *)
Inductive outcome (A : Type) : Type :=
| Unauthorized
| Next (ctx : A)
| PanicIndexOutOfRange.
Arguments Unauthorized {A}.
Arguments Next {A} ctx.
Arguments PanicIndexOutOfRange {A}.

(** [InternalGetConfigVaidation], with [cfg.Security.AgentSig] and the
    header [Authorization]; the context it hands over holds key [uuid]. *)
Definition InternalGetConfigVaidation (AgentSig authHeader : string) : outcome string :=
  if is_empty_string authHeader then Unauthorized
  else
    match SplitN2 authHeader " "%char with
    | _ :: token :: _ =>
        match Crypto.Verify token AgentSig with
        | (_, _, Some _) => Unauthorized
        | (false, _, None) => Unauthorized
        | (true, uuid, None) => Next uuid
        end
    | _ => PanicIndexOutOfRange
    end.

(** [ValidationAgentWorker], with [cfg.Auth.InternalKey]. *)
Definition ValidationAgentWorker (InternalKey authHeader : string) : outcome unit :=
  if is_empty_string authHeader then Unauthorized
  else
    match SplitN2 authHeader " "%char with
    | _ :: token :: _ =>
        if negb (String.eqb InternalKey token) then Unauthorized
        else Next tt
    | _ => PanicIndexOutOfRange
    end.

End Middleware.

Module AgentRoute.
Import GoInt Errors ConfigStore ConfigUsecase ConfigHandler.

(** The environment of a read whose agent lookup is
    [agentsRepository.GetById] on table [t]. *)
Definition with_agents (fault : option error) (t : gmap string string)
    (agentID : string) (env : Env) : Env :=
  mkEnv (uuid_New env) (time_Now env)
        (match Agents.GetById fault agentID t with
         | Err e => Some e
         | Ok _ => None
         end)
        (cache_Get_fault env) (db_Get_fault env) (db_Write_fault env)
        (cache_Set_fault env).

(** [response.Unauthorized(c, "Unauthorized")]. *)
Definition response_Unauthorized : Response :=
  mkResponse 401 false (Some "ERR_UNAUTHORIZED") (Some "Unauthorized") None.

(** [ConfigHandler.GetLatestConfigModel]; [uuid] is what the context holds
    under key [uuid], if anything. *)
Definition GetLatestConfigModel (env : Env) (fault : option error)
    (t : gmap string string) (uuid : option string) (h : hub) : hub * Response :=
  match uuid with
  | None => (h, response_Unauthorized)
  | Some uuidStr =>
      match ConfigUsecase.GetLatestConfig (with_agents fault t uuidStr env)
                                          (Some uuidStr) h with
      | (h', Err err) => (h', response_Error err)
      | (h', Ok config) => (h', response_Success (Some config))
      end
  end.

(** [ConfigHandler.GetLatestConfigAdmin]. *)
Definition GetLatestConfigAdmin (env : Env) (h : hub) : hub * Response :=
  match ConfigUsecase.GetLatestConfig env None h with
  | (h', Err err) => (h', response_Error err)
  | (h', Ok config) => (h', response_Success (Some config))
  end.

(** Route [GET /config/agent]: the guard, then the handler; [None] when
    the guard panics. *)
Definition get_config_agent (AgentSig : string) (env : Env) (fault : option error)
    (t : gmap string string) (authHeader : string) (h : hub) : option (hub * Response) :=
  match Middleware.InternalGetConfigVaidation AgentSig authHeader with
  | Middleware.Unauthorized => Some (h, response_Unauthorized)
  | Middleware.Next uuid => Some (GetLatestConfigModel env fault t (Some uuid) h)
  | Middleware.PanicIndexOutOfRange => None
  end.

(** ** Sequences of requests to the configuration routes *)

Inductive request : Type :=
| PostConfig (env : Env) (input : SaveCreate)
| PutConfig (env : Env) (input : SaveUpdate)
| GetConfigAdmin (env : Env)
| GetConfigAgent (env : Env) (fault : option error) (t : gmap string string)
                 (uuid : string).

Definition serve (h : hub) (r : request) : hub :=
  match r with
  | PostConfig env input => fst (ConfigHandler.Create env input h)
  | PutConfig env input => fst (ConfigHandler.Update env input h)
  | GetConfigAdmin env => fst (GetLatestConfigAdmin env h)
  | GetConfigAgent env fault t uuid =>
      fst (GetLatestConfigModel env fault t (Some uuid) h)
  end.

Definition serve_all (rs : list request) (h : hub) : hub := foldl serve h rs.

(** The identifier [uuid.New] hands to the request, if it creates. *)
Definition fresh_uuid (r : request) : option string :=
  match r with
  | PostConfig env _ => Some (uuid_New env)
  | _ => None
  end.

End AgentRoute.

(* ===================================================================== *)
(** * pkg/utils: JSON files *)
(* ===================================================================== *)

Module Utils.
Import GoInt.

(* The regular files below the working directory are a map from the
   cleaned relative path to the content, a [gmap string string]. *)

(** One step of [filepath.Clean] on a relative path, the elements kept so
    far in reverse: empty elements and [.] are dropped, [..] removes the
    element before it unless there is none or it is [..] itself. *)
Definition clean_step (kept : list string) (elem : string) : list string :=
  if String.eqb elem EmptyString || String.eqb elem "." then kept
  else if String.eqb elem ".." then
    match kept with
    | [] => [".."]
    | top :: below => if String.eqb top ".." then ".." :: kept else below
    end
  else elem :: kept.

Fixpoint join_elems (elems : list string) : string :=
  match elems with
  | [] => EmptyString
  | [e] => e
  | e :: rest => (e ++ "/" ++ join_elems rest)%string
  end.

(** The cleaned path of the elements kept, given in reverse; it is [.]
    when no element is left. *)
Definition path_of (kept : list string) : string :=
  match rev kept with
  | [] => "."
  | elems => join_elems elems
  end.

(** [filepath.Join(".", fileName)] on a system whose separator is [/]: the
    cleaned [./fileName], its elements being what lies between the
    separators. *)
Definition Join_dot (fileName : string) : string :=
  path_of (foldl clean_step [] (Crypto.Split fileName "/"%char)).

Section JSON.

(** [encoding/json] for the type [T] of the call. *)
Variable T : Type.
Variable json_Unmarshal : string -> option T.
Variable json_Marshal : T -> string.

(** [ReadJSON]: [None] for an error. *)
Definition ReadJSON (fileName : string) (fs : gmap string string) : option T :=
  match fs !! Join_dot fileName with
  | None => None
  | Some file => json_Unmarshal file
  end.

(** [WriteJson]; [write_fails] says whether [json.Marshal] or
    [os.WriteFile] fails, in which case nothing is written. *)
Definition WriteJson (write_fails : bool) (fileName : string) (cfg : T)
    (fs : gmap string string)
  : gmap string string * bool :=
  let data := json_Marshal cfg in
  if write_fails then (fs, false)
  else (<[Join_dot (fileName ++ ".json")%string := data]> fs, true).

End JSON.

End Utils.

(* ===================================================================== *)
(** * The relay: registration and the exchange with the controller *)
(* ===================================================================== *)

Module AgentStartup.
Import GoInt Utils.

(** What a call to [client.Do] comes to: an error, or an answer with a
    status and a body that reads or not. *)
Inductive do_answer : Type :=
| DoError
| Answer (StatusCode : Z) (body : option string).

Inductive error : Type :=
| ErrCreatingRequest
| ErrSendingRequest
| ErrReadingResponse
| ErrUnexpectedStatus (StatusCode : Z) (body : string)
| ErrDecodingResponse.

Inductive event : Type :=
| PostRegister.

Section JSON.

(** The file of type [Credential], as its field [credential_key], and the
    field [data] of the answer to a registration. *)
Variable Credential_Unmarshal : string -> option string.
Variable Credential_Marshal : string -> string.
Variable response_Unmarshal : string -> option string.

(** [selfRegistration]: what it leaves on disk, what it returns, and the
    registrations it has sent.  [request_ok] says whether [http.NewRequest]
    succeeds, [register] is the answer to the request, [write_fails]
    whether the credential cannot be written. *)
Definition selfRegistration (request_ok : bool) (register : do_answer)
    (write_fails : bool) (fs : gmap string string)
  : gmap string string * (string * option error) * list event :=
  let register_now :=
    if negb request_ok then (fs, (EmptyString, Some ErrCreatingRequest), [])
    else
      match register with
      | DoError => (fs, (EmptyString, Some ErrSendingRequest), [PostRegister])
      | Answer _ None => (fs, (EmptyString, Some ErrReadingResponse), [PostRegister])
      | Answer StatusCode (Some body) =>
          if negb (StatusCode =? 200) then
            (fs, (EmptyString, Some (ErrUnexpectedStatus StatusCode body)),
             [PostRegister])
          else
            match response_Unmarshal body with
            | None => (fs, (EmptyString, Some ErrDecodingResponse), [PostRegister])
            | Some Data =>
                let '(fs', _) :=
                  WriteJson string Credential_Marshal write_fails "credential" Data fs in
                (fs', (Data, None), [PostRegister])
            end
      end in
  match ReadJSON string Credential_Unmarshal "credential" fs with
  | Some CredentialKey =>
      if negb (is_empty_string CredentialKey) then (fs, (CredentialKey, None), [])
      else register_now
  | None => register_now
  end.

(** The starts of the relay one after the other, each with the answer of
    the controller to its registration, should it send one. *)
Fixpoint starts (runs : list (do_answer * bool)) (fs : gmap string string)
  : list (string * option error * list event) :=
  match runs with
  | [] => []
  | (register, write_fails) :: rest =>
      let '(fs', r, tr) := selfRegistration true register write_fails fs in
      (r, tr) :: starts rest fs'
  end.

End JSON.

(** ** The exchange of [fetchConfigFromController] *)





End AgentStartup.

(* ===================================================================== *)
(** * The relay: the loop over many cycles, and what it pushes *)
(* ===================================================================== *)

Module AgentRun.
Import GoInt ConfigStore Agent.

(** The cycles of [startPolling] one after the other, up to a panic. *)
Fixpoint run (cycles : list answers) (st : state) : outcome :=
  match cycles with
  | [] => Continue st []
  | a :: rest =>
      match tick a st with
      | Panic tr => Panic tr
      | Continue st' tr =>
          match run rest st' with
          | Panic tr' => Panic (tr ++ tr')
          | Continue st'' tr' => Continue st'' (tr ++ tr')
          end
      end
  end.

(** The state in which [main] starts the loop: the initial configuration
    has been fetched, which wrote the snapshot, and [lastConfig] points to
    it. *)
Definition started (initialConfig : Config) : state :=
  mkState [initialConfig] 0%nat (mul64 (PoolingInterval initialConfig) Second) 0 0
          (Some initialConfig).

Definition is_fetch (a : answers) : bool :=
  match fetched a with Some _ => true | None => false end.

Definition is_push (e : event) : bool :=
  match e with Pushed _ _ => true | _ => false end.

Definition is_unchanged (e : event) : bool :=
  match e with Unchanged => true | _ => false end.

Definition is_write (e : event) : bool :=
  match e with WroteConfigFile _ => true | _ => false end.

(** The configuration of the last cycle whose fetch succeeds, [last] when
    there is none. *)
Definition last_fetched (cycles : list answers) (last : option Config) : option Config :=
  foldl (fun acc a => match fetched a with Some cfg => Some cfg | None => acc end)
        last cycles.

(** [pushConfigToWorker]: the body it posts, as the worker decodes it. *)
Definition pushConfigToWorker_request (config : Config) : Worker.UpdateConfigRequest :=
  Worker.mkRequest (ConfigURL config) (PoolingInterval config) (Version config)
                   (UUID config).

End AgentRun.

(* ===================================================================== *)
(** * The relay: the life cycle of the scheduler *)
(* ===================================================================== *)

Module SchedulerLifecycle.
Import GoInt ConfigStore Scheduler.

(** [ConfigScheduler] with its flag [running]. *)
Record scheduler : Type := mkScheduler {
  core : state;
  running : bool
}.

Inductive outcome : Type :=
| Continue (s : scheduler) (trace : list event)
| Panic.

(** [Start], up to the start of the periodic loop: the flag, the ticker
    ([time.NewTicker] panics on a period that is not positive) and the
    initial fetch. *)
Definition Start (fetched : option Config) (has_callback : bool) (initialInterval : Z)
    (s : scheduler) : outcome :=
  if running s then Continue s []
  else
    let interval := mul64 initialInterval Second in
    if interval <=? 0 then Panic
    else
      match fetchConfig fetched has_callback
                        (mkState (currentConfig (core s)) (Some interval)) with
      | Scheduler.Continue st tr => Continue (mkScheduler st true) tr
      | Scheduler.Panic _ => Panic
      end.

(** [SetInitialConfig]. *)
Definition SetInitialConfig (fetched : option Config) (has_callback : bool)
    (cfg : Config) (s : scheduler) : outcome :=
  Start fetched has_callback (PoolingInterval cfg)
        (mkScheduler (mkState (Some cfg) (ticker (core s))) (running s)).

(** [ForceFetch]: the state it leaves, and whether it returns an error. *)
Definition ForceFetch (fetched : option Config) (has_callback : bool) (st : state)
  : state * list event * bool :=
  match fetched with
  | None => (st, [], true)
  | Some newConfig =>
      (mkState (Some newConfig) (ticker st),
       if has_callback then [ConfigUpdate newConfig] else [],
       false)
  end.

(** The firings of the ticker one after the other, each with the answer of
    the controller, up to a panic. *)
Fixpoint fires (answers : list (option Config)) (has_callback : bool) (st : state)
  : option state :=
  match answers with
  | [] => Some st
  | fetched :: rest =>
      match fetchConfig fetched has_callback st with
      | Scheduler.Panic _ => None
      | Scheduler.Continue st' _ => fires rest has_callback st'
      end
  end.

(** The ticker runs at the interval of the configuration held. *)
Definition ticker_follows_config (st : state) : Prop :=
  exists cfg, currentConfig st = Some cfg /\
              ticker st = Some (PoolingInterval cfg * Second).

Definition interval_ok (fetched : option Config) : Prop :=
  match fetched with
  | None => True
  | Some cfg => 0 < PoolingInterval cfg <= RelaySpec.MaxSeconds
  end.

End SchedulerLifecycle.

(* ===================================================================== *)
(** * The leaf: requests from a given state on *)
(* ===================================================================== *)

Module WorkerRun.
Import GoInt Errors Worker.

(** The states the worker goes through from [st0] on. *)
Inductive reachable_from (st0 : state) : state -> Prop :=
| from_start : reachable_from st0 st0
| from_Hit st JSON (unmarshal : string -> option JSON) http :
    reachable_from st0 st ->
    reachable_from st0 (state_after (Hit JSON unmarshal http st) st)
| from_UpdateConfig st req :
    reachable_from st0 st ->
    reachable_from st0 (state_after (HandleUpdateConfig req st) st).

(** A held configuration that passes the tags of the push it came in. *)
Definition valid_config (c : WorkerConfig) : Prop :=
  ConfigURL c <> EmptyString /\ 30 <= PoolingInterval c /\
  Version c <> 0 /\ UUID c <> EmptyString.

End WorkerRun.

(* ===================================================================== *)
(** * Vocabulary of further properties *)
(* ===================================================================== *)

Module CryptoSpec.
Import Crypto.

(** The bytes of a part of a signed text with its line breaks removed. *)
Definition without_line_breaks (s : string) : list ascii :=
  List.filter (fun c => negb (is_newline c)) (list_ascii_of_string s).

End CryptoSpec.

Module HubInvariants.
Import GoInt ConfigStore.

(** The versions of the table are the numbers from 1 to its number of
    rows, each on one row. *)
Definition numbered (d : gmap string ConfigRow) : Prop :=
  (forall k r, d !! k = Some r -> 1 <= col_version r <= Z.of_nat (size d)) /\
  (forall k1 k2 r1 r2,
     d !! k1 = Some r1 -> d !! k2 = Some r2 ->
     col_version r1 = col_version r2 -> k1 = k2) /\
  (forall v, 1 <= v <= Z.of_nat (size d) ->
             exists k r, d !! k = Some r /\ col_version r = v).

(** A configuration that the worker's tags accept once pushed. *)
Definition servable (c : Config) : Prop :=
  UUID c <> EmptyString /\ ConfigURL c <> EmptyString /\
  30 <= PoolingInterval c /\ 1 <= Version c.

Definition hub_servable (h : hub) : Prop :=
  (forall k r, db h !! k = Some r -> servable (of_row (k, r))) /\
  (forall c, cache h = Some c -> servable c).

End HubInvariants.

(* ===================================================================== *)
(** * The relay: internal/agent/config, the configuration file *)
(* ===================================================================== *)

Module AgentConfigFile.
Import GoInt.

(** [AgentConfig]. *)
Record AgentConfig : Type := mkAgentConfig {
  AgentID : string;
  Token : string;
  ControllerURL : string;
  CheckInterval : Z
}.

Inductive error : Type :=
| ErrReadFile        (* "failed to read agent config file" *)
| ErrParseFile       (* "failed to parse agent config file" *)
| ErrAgentID         (* "agent_id is required" *)
| ErrToken           (* "token is required" *)
| ErrControllerURL   (* "controller_url is required" *)
| ErrWriteFile.      (* "failed to write agent config file" *)

Definition default_path (path : string) : string :=
  if is_empty_string path then "agent_config.json" else path.

Section JSON.

(** [encoding/json] on [AgentConfig]; marshalling a structure of strings
    and an integer does not fail. *)
Variable json_Unmarshal : string -> option AgentConfig.
Variable json_MarshalIndent : AgentConfig -> string.

(** [LoadAgentConfig], the files being given by their path. *)
Definition LoadAgentConfig (path : string) (fs : gmap string string)
  : AgentConfig + error :=
  let path := default_path path in
  match fs !! path with
  | None => inr ErrReadFile
  | Some data =>
      match json_Unmarshal data with
      | None => inr ErrParseFile
      | Some cfg =>
          if is_empty_string (AgentID cfg) then inr ErrAgentID
          else if is_empty_string (Token cfg) then inr ErrToken
          else if is_empty_string (ControllerURL cfg) then inr ErrControllerURL
          else if CheckInterval cfg <? 30 then
            inl (mkAgentConfig (AgentID cfg) (Token cfg) (ControllerURL cfg) 30)
          else inl cfg
      end
  end.

(** [SaveAgentConfig]; [write_fails] says whether [os.WriteFile] fails. *)
Definition SaveAgentConfig (write_fails : bool) (path : string) (cfg : AgentConfig)
    (fs : gmap string string) : gmap string string * option error :=
  let path := default_path path in
  let data := json_MarshalIndent cfg in
  if write_fails then (fs, Some ErrWriteFile)
  else (<[path := data]> fs, None).

End JSON.

(** A configuration [LoadAgentConfig] accepts. *)
Definition loadable (cfg : AgentConfig) : Prop :=
  AgentID cfg <> EmptyString /\ Token cfg <> EmptyString /\
  ControllerURL cfg <> EmptyString.

End AgentConfigFile.

(* ===================================================================== *)
(** * The hub: operations and reads over time *)
(* ===================================================================== *)

Module HubHistory.
Import GoInt Errors ConfigStore ConfigUsecase HubSpec.

(** What happens at the hub: a create or an update, or a read of the
    latest configuration through the use case. *)
Inductive action : Type :=
| Do (o : op)
| Get (env : Env) (agentID : option string).

Definition act (h : hub) (a : action) : hub :=
  match a with
  | Do o => step h o
  | Get env agentID => fst (ConfigUsecase.GetLatestConfig env agentID h)
  end.

Definition history (acts : list action) (h : hub) : hub := foldl act h acts.

(** The version a read returns, [None] when it returns an error. *)
Definition read_version (env : Env) (agentID : option string) (h : hub) : option Z :=
  match snd (ConfigUsecase.GetLatestConfig env agentID h) with
  | Ok c => Some (Version c)
  | Err _ => None
  end.

(** The cache write of an operation does not fail. *)
Definition cache_write_ok (a : action) : Prop :=
  match a with
  | Do o => cache_Set_fault (op_env o) = None
  | Get _ _ => True
  end.

(** The versions of the store leave room for [n] more creates. *)
Definition version_room (n : Z) (h : hub) : Prop :=
  n < MaxInt64 /\
  forall v, latest_version (db h) = Some v -> MinInt64 <= v /\ v + n < MaxInt64.

(** An environment in which the cache is down, for reads and for writes. *)
Definition env_cache_off : Env :=
  mkEnv "id-3" "2024-01-03T00:00:00Z" None
        (Some (RawError "dial tcp: connection refused")) None None
        (Some (RawError "dial tcp: connection refused")).

End HubHistory.

(* ##################################################################### *)
(** * Part II: lemmas and theorems *)
(* ##################################################################### *)

(* ===================================================================== *)
(** * Facts about machine integers and strings *)
(* ===================================================================== *)

Module GoProperties.
Import GoInt.

Lemma wrap64_small z : in_int64 z -> wrap64 z = z.
Proof.
  unfold in_int64, MinInt64, MaxInt64, wrap64. intros H.
  rewrite Z.mod_small; lia.
Qed.

Lemma wrap64_range z : in_int64 (wrap64 z).
Proof.
  unfold in_int64, MinInt64, MaxInt64, wrap64.
  pose proof (Z.mod_pos_bound (z + 2 ^ 63) (2 ^ 64) ltac:(lia)). lia.
Qed.

Lemma is_empty_string_false s : s <> EmptyString -> is_empty_string s = false.
Proof. destruct s; [congruence | reflexivity]. Qed.

End GoProperties.

(* ===================================================================== *)
(** * Properties of the signed-identity protocol *)
(* ===================================================================== *)

Module CryptoProperties.
Import GoInt GoProperties Crypto.

(** ** Facts about the byte and bit-level helpers *)

Lemma byte_val_range c : 0 <= byte_val c < 256.
Proof.
  unfold byte_val. pose proof (N_ascii_bounded c). lia.
Qed.

Lemma byte_of_val z c : z mod 256 = byte_val c -> byte_of z = c.
Proof.
  unfold byte_of, byte_val. intros ->.
  rewrite N2Z.id. apply ascii_N_embedding.
Qed.

(** A bitwise or of a multiple of [2^n] with a value below [2^n] is a sum. *)
Lemma lor_disjoint_add x y n :
  0 <= n -> x mod 2 ^ n = 0 -> 0 <= y < 2 ^ n -> Z.lor x y = x + y.
Proof.
  intros Hn Hx Hy.
  assert (Hland : Z.land x y = 0).
  { apply Z.bits_inj'. intros k Hk.
    rewrite Z.land_spec, Z.bits_0.
    destruct (Z.lt_ge_cases k n) as [Hlt | Hge].
    - rewrite <- (Z.mod_pow2_bits_low x n k) by lia.
      rewrite Hx, Z.bits_0. reflexivity.
    - destruct (Z.eq_dec y 0) as [-> | Hy0].
      + rewrite Z.bits_0. apply andb_false_r.
      + rewrite (Z.bits_above_log2 y k); [apply andb_false_r | lia |].
        apply Z.lt_le_trans with n; [| exact Hge].
        apply Z.log2_lt_pow2; lia. }
  rewrite <- Z.lxor_lor by exact Hland.
  symmetry. apply Z.add_nocarry_lxor. exact Hland.
Qed.

Ltac shifts_to_arith :=
  repeat first
    [ rewrite Z.shiftl_mul_pow2 by lia
    | rewrite Z.shiftr_div_pow2 by lia
    | rewrite Z.shiftl_0_l ];
  change 0x3F with (Z.ones 6);
  repeat rewrite Z.land_ones by lia;
  change (2 ^ 6) with 64; change (2 ^ 8) with 256; change (2 ^ 12) with 4096;
  change (2 ^ 16) with 65536; change (2 ^ 18) with 262144.

Lemma quantum_val_arith d0 d1 d2 d3 :
  0 <= d0 < 64 -> 0 <= d1 < 64 -> 0 <= d2 < 64 -> 0 <= d3 < 64 ->
  quantum_val d0 d1 d2 d3 = d0 * 262144 + d1 * 4096 + d2 * 64 + d3.
Proof.
  intros H0 H1 H2 H3. unfold quantum_val. shifts_to_arith.
  rewrite (lor_disjoint_add (d0 * 262144) (d1 * 4096) 18);
    [| lia | change (2 ^ 18) with 262144; Z.div_mod_to_equations; lia
     | change (2 ^ 18) with 262144; lia].
  rewrite (lor_disjoint_add _ (d2 * 64) 12);
    [| lia | change (2 ^ 12) with 4096; Z.div_mod_to_equations; lia
     | change (2 ^ 12) with 4096; lia].
  rewrite (lor_disjoint_add _ d3 6);
    [| lia | change (2 ^ 6) with 64; Z.div_mod_to_equations; lia
     | change (2 ^ 6) with 64; lia].
  reflexivity.
Qed.

Lemma pack3_arith a b c :
  0 <= a < 256 -> 0 <= b < 256 -> 0 <= c < 256 ->
  Z.lor (Z.lor (Z.shiftl a 16) (Z.shiftl b 8)) c = a * 65536 + b * 256 + c.
Proof.
  intros Ha Hb Hc. shifts_to_arith.
  rewrite (lor_disjoint_add (a * 65536) (b * 256) 16);
    [| lia | change (2 ^ 16) with 65536; Z.div_mod_to_equations; lia
     | change (2 ^ 16) with 65536; lia].
  rewrite (lor_disjoint_add _ c 8);
    [| lia | change (2 ^ 8) with 256; Z.div_mod_to_equations; lia
     | change (2 ^ 8) with 256; lia].
  reflexivity.
Qed.

Lemma pack2_arith a b :
  0 <= a < 256 -> 0 <= b < 256 ->
  Z.lor (Z.shiftl a 16) (Z.shiftl b 8) = a * 65536 + b * 256.
Proof.
  intros Ha Hb. shifts_to_arith.
  rewrite (lor_disjoint_add (a * 65536) (b * 256) 16);
    [| lia | change (2 ^ 16) with 65536; Z.div_mod_to_equations; lia
     | change (2 ^ 16) with 65536; lia].
  reflexivity.
Qed.

(** ** The base64 alphabet *)

Lemma sextet_in i : 0 <= i < 64 -> In i sextets.
Proof.
  intros Hi. unfold sextets. apply in_map_iff.
  exists (Z.to_nat i). split; [lia | apply in_seq; lia].
Qed.

Lemma alphabet_ok i : 0 <= i < 64 -> alphabet_char_ok i = true.
Proof.
  intros Hi.
  assert (Hall : forallb alphabet_char_ok sextets = true) by (vm_compute; reflexivity).
  rewrite forallb_forall in Hall. apply Hall, sextet_in, Hi.
Qed.

Lemma dec_enc_char i : 0 <= i < 64 -> dec_char (enc_char i) = Some i.
Proof.
  intros Hi. pose proof (alphabet_ok i Hi) as H. unfold alphabet_char_ok in H.
  repeat (apply andb_prop in H; destruct H as [H _]).
  destruct (dec_char (enc_char i)) as [j |]; [| discriminate].
  apply Z.eqb_eq in H. congruence.
Qed.

Lemma enc_char_plain i : 0 <= i < 64 -> plain_char (enc_char i) = true.
Proof.
  intros Hi. pose proof (alphabet_ok i Hi) as H. unfold alphabet_char_ok in H.
  apply andb_prop in H. destruct H as [H _].
  apply andb_prop in H. destruct H as [H H2].
  apply andb_prop in H. destruct H as [_ H1].
  unfold plain_char. rewrite H1, H2. reflexivity.
Qed.

Lemma padChar_plain : plain_char padChar = true.
Proof. reflexivity. Qed.

Lemma dec_padChar : dec_char padChar = None.
Proof. reflexivity. Qed.

Lemma sextet_range x : 0 <= Z.land x 0x3F < 64.
Proof.
  change 0x3F with (Z.ones 6). rewrite Z.land_ones by lia.
  apply Z.mod_pos_bound. reflexivity.
Qed.

(** ** Induction on a byte sequence three bytes at a time *)

Lemma list_ind3 {A} (P : list A -> Prop) :
  P [] -> (forall a, P [a]) -> (forall a b, P [a; b]) ->
  (forall a b c rest, P rest -> P (a :: b :: c :: rest)) ->
  forall l, P l.
Proof.
  intros H0 H1 H2 H3.
  fix IH 1. intros [| a [| b [| c rest]]].
  - exact H0.
  - apply H1.
  - apply H2.
  - apply H3, IH.
Qed.

Lemma EncodeChars_plain src : forallb plain_char (EncodeChars src) = true.
Proof.
  induction src as [| a | a b | a b c rest IH] using list_ind3;
    cbn [EncodeChars forallb].
  - reflexivity.
  - rewrite !enc_char_plain by apply sextet_range. reflexivity.
  - rewrite !enc_char_plain by apply sextet_range. reflexivity.
  - rewrite !enc_char_plain by apply sextet_range. exact IH.
Qed.

Lemma filter_plain l :
  forallb plain_char l = true ->
  List.filter (fun c => negb (is_newline c)) l = l.
Proof.
  induction l as [| c l IH]; simpl; intros H; [reflexivity |].
  apply andb_prop in H. destruct H as [Hc Hl].
  unfold plain_char in Hc. apply andb_prop in Hc. destruct Hc as [Hc _].
  rewrite Hc, IH by exact Hl. reflexivity.
Qed.

(** ** Decoding inverts encoding *)

Lemma DecodeChars_EncodeChars src : DecodeChars (EncodeChars src) = Some src.
Proof.
  induction src as [| a | a b | a b c rest IH] using list_ind3.
  - reflexivity.
  - pose proof (byte_val_range a) as Ha.
    cbn [EncodeChars DecodeChars].
    rewrite !dec_enc_char by apply sextet_range.
    rewrite dec_padChar, !Ascii.eqb_refl. cbn [andb].
    do 2 f_equal. apply byte_of_val.
    rewrite quantum_val_arith by (try apply sextet_range; lia).
    shifts_to_arith. Z.div_mod_to_equations. lia.
  - pose proof (byte_val_range a) as Ha. pose proof (byte_val_range b) as Hb.
    cbn [EncodeChars DecodeChars].
    rewrite !dec_enc_char by apply sextet_range.
    rewrite dec_padChar, Ascii.eqb_refl.
    rewrite quantum_val_arith by (try apply sextet_range; lia).
    rewrite pack2_arith by assumption.
    f_equal. f_equal; [| f_equal]; apply byte_of_val;
      shifts_to_arith; Z.div_mod_to_equations; lia.
  - pose proof (byte_val_range a) as Ha. pose proof (byte_val_range b) as Hb.
    pose proof (byte_val_range c) as Hc.
    cbn [EncodeChars DecodeChars].
    rewrite !dec_enc_char by apply sextet_range.
    rewrite IH.
    rewrite quantum_val_arith by apply sextet_range.
    rewrite pack3_arith by assumption.
    f_equal. f_equal; [| f_equal; [| f_equal]]; apply byte_of_val;
      shifts_to_arith; Z.div_mod_to_equations; lia.
Qed.

Lemma DecodeString_EncodeToString src :
  DecodeString (EncodeToString src) = Some src.
Proof.
  unfold DecodeString, EncodeToString.
  rewrite list_ascii_of_string_of_list_ascii.
  rewrite filter_plain by apply EncodeChars_plain.
  apply DecodeChars_EncodeChars.
Qed.

(** ** Splitting a signed text *)

Lemma Split_no_sep s sep : has_char sep s = false -> Split s sep = [s].
Proof.
  induction s as [| c rest IH]; cbn [has_char Split]; intros H.
  - reflexivity.
  - apply orb_false_elim in H. destruct H as [Hc Hrest].
    rewrite Hc, IH by exact Hrest. reflexivity.
Qed.

Lemma Split_app a b sep :
  has_char sep a = false ->
  Split (a ++ String sep b)%string sep = a :: Split b sep.
Proof.
  induction a as [| c rest IH]; cbn [has_char]; intros H.
  - change (Split (String sep b) sep = [EmptyString] ++ Split b sep).
    cbn [Split]. rewrite Ascii.eqb_refl. reflexivity.
  - apply orb_false_elim in H. destruct H as [Hc Hrest].
    change (String c rest ++ String sep b)%string
      with (String c (rest ++ String sep b)%string).
    cbn [Split]. rewrite Hc, IH by exact Hrest. reflexivity.
Qed.

Lemma has_char_plain l :
  forallb plain_char l = true -> has_char "."%char (string_of_list_ascii l) = false.
Proof.
  induction l as [| c l IH]; cbn [forallb string_of_list_ascii has_char]; intros H.
  - reflexivity.
  - apply andb_prop in H. destruct H as [Hc Hl].
    unfold plain_char in Hc. apply andb_prop in Hc. destruct Hc as [_ Hc].
    apply negb_true_iff in Hc. rewrite Hc, IH by exact Hl. reflexivity.
Qed.

Lemma EncodeToString_no_dot src : has_char "."%char (EncodeToString src) = false.
Proof. apply has_char_plain, EncodeChars_plain. Qed.

Lemma Split_encoded a b :
  Split (EncodeToString a ++ "." ++ EncodeToString b)%string "."%char
  = [EncodeToString a; EncodeToString b].
Proof.
  change ("." ++ EncodeToString b)%string with (String "."%char (EncodeToString b)).
  rewrite Split_app by apply EncodeToString_no_dot.
  rewrite Split_no_sep by apply EncodeToString_no_dot.
  reflexivity.
Qed.

(** ** The comparison of signatures *)

Lemma hmac_equal_spec a b : hmac_equal a b = true <-> a = b.
Proof.
  revert b. induction a as [| x a IH]; intros [| y b]; cbn [hmac_equal];
    try (split; [discriminate | discriminate]); try tauto.
  rewrite andb_true_iff, Ascii.eqb_eq, IH.
  split; [intros [-> ->]; reflexivity | intros [= -> ->]; auto].
Qed.

Lemma hmac_equal_refl a : hmac_equal a a = true.
Proof. apply hmac_equal_spec. reflexivity. Qed.

(** What [Verify] answers on a token issued by [Generate], for any key. *)
Lemma Verify_Generate v s s' :
  v <> EmptyString -> s <> EmptyString ->
  Verify (fst (Generate v s)) s' =
    if hmac_equal (hmac_sha256 (list_ascii_of_string s) (list_ascii_of_string v))
                  (hmac_sha256 (list_ascii_of_string s') (list_ascii_of_string v))
    then (true, v, None) else (false, EmptyString, None).
Proof.
  intros Hv Hs. unfold Generate.
  rewrite (is_empty_string_false v Hv), (is_empty_string_false s Hs). cbn [orb fst].
  unfold Verify. rewrite Split_encoded.
  rewrite !DecodeString_EncodeToString.
  rewrite string_of_list_ascii_of_string.
  destruct (hmac_equal _ _); reflexivity.
Qed.

(** Keys that differ by trailing zero bytes, within one block, are the same
    HMAC key. *)
Lemma hmac_key_block_zero key :
  (length key < BlockSize)%nat ->
  hmac_key_block (key ++ [zero]) = hmac_key_block key.
Proof.
  intros Hlen. unfold hmac_key_block.
  assert (H1 : Nat.ltb BlockSize (length (key ++ [zero])) = false).
  { apply Nat.ltb_ge. rewrite length_app. cbn [length]. lia. }
  assert (H2 : Nat.ltb BlockSize (length key) = false).
  { apply Nat.ltb_ge. lia. }
  rewrite H1, H2, length_app. cbn [length].
  rewrite <- app_assoc. f_equal.
  replace (BlockSize - length key)%nat with (S (BlockSize - (length key + 1)))%nat by lia.
  reflexivity.
Qed.

Lemma hmac_sha256_zero key msg :
  (length key < BlockSize)%nat ->
  hmac_sha256 (key ++ [zero]) msg = hmac_sha256 key msg.
Proof.
  intros Hlen. unfold hmac_sha256. rewrite hmac_key_block_zero by exact Hlen.
  reflexivity.
Qed.

Lemma list_ascii_of_string_app a b :
  list_ascii_of_string (a ++ b)%string = list_ascii_of_string a ++ list_ascii_of_string b.
Proof.
  induction a as [| c a IH]; [reflexivity |].
  change (String c a ++ b)%string with (String c (a ++ b)%string).
  cbn [list_ascii_of_string]. rewrite IH. reflexivity.
Qed.

(** A token verifies under the secret it was issued with followed by a zero
    byte, as long as the secret is shorter than a block. *)
Lemma Verify_zero_padded_secret v s :
  v <> EmptyString -> s <> EmptyString -> (String.length s < BlockSize)%nat ->
  Verify (fst (Generate v s)) (s ++ String zero EmptyString)%string = (true, v, None).
Proof.
  intros Hv Hs Hlen. rewrite Verify_Generate by assumption.
  rewrite list_ascii_of_string_app. cbn [list_ascii_of_string].
  rewrite hmac_sha256_zero.
  - rewrite hmac_equal_refl. reflexivity.
  - replace (length (list_ascii_of_string s)) with (String.length s); [exact Hlen |].
    clear. induction s as [| c s IH]; cbn; congruence.
Qed.

(** ** The models of the libraries on published test vectors *)

(** FIPS 180-4, the digest of "abc". *)
Example sha256_abc :
  hex_of_bytes (sha256 (list_ascii_of_string "abc"))
  = "ba7816bf8f01cfea414140de5dae2223b00361a396177a9cb410ff61f20015ad".
Proof. vm_compute. reflexivity. Qed.

(** A message of two blocks (FIPS 180-4, 448 bits). *)
Example sha256_two_blocks :
  hex_of_bytes
    (sha256 (list_ascii_of_string
               "abcdbcdecdefdefgefghfghighijhijkijkljklmklmnlmnomnopnopq"))
  = "248d6a61d20638b8e5c026930c3e6039a33ce45964ff2167f6ecedd419db06c1".
Proof. vm_compute. reflexivity. Qed.

(** RFC 4231, test case 2. *)
Example hmac_sha256_rfc4231 :
  hex_of_bytes (hmac_sha256 (list_ascii_of_string "Jefe")
                            (list_ascii_of_string "what do ya want for nothing?"))
  = "5bdcc146bf60754e6a042426089575c75a003f089d2739839dec58b964ec3843".
Proof. vm_compute. reflexivity. Qed.

(** RFC 4648, section 10. *)
Example base64_rfc4648 :
  map (fun s => EncodeToString (list_ascii_of_string s))
      ["f"; "fo"; "foo"; "foob"; "fooba"; "foobar"]
  = ["Zg=="; "Zm8="; "Zm9v"; "Zm9vYg=="; "Zm9vYmE="; "Zm9vYmFy"].
Proof. vm_compute. reflexivity. Qed.

(** A token as [Generate] issues it. *)
Example Generate_agent_1 :
  Generate "agent-1" "secret"
  = ("YWdlbnQtMQ==.fRhojHI5FdO/zLoS7o5hkWzYNJPUAQ7o3n9g69jYeBQ=", None).
Proof. vm_compute. reflexivity. Qed.

(** ** Properties of the signed-identity protocol *)

(** C4 (as amended).  For every non-empty identity value [v] and non-empty
    secret [s], [Generate] succeeds and [Verify] of the issued token under
    [s] answers valid with [v] recovered; under any secret [s'] whose
    HMAC-SHA256 of [v] differs from the one under [s], it answers invalid,
    with no error. *)
Theorem Verify_Generate_roundtrip (v s s' : string) :
  v <> EmptyString -> s <> EmptyString ->
  snd (Generate v s) = None /\
  Verify (fst (Generate v s)) s = (true, v, None) /\
  (hmac_sha256 (list_ascii_of_string s') (list_ascii_of_string v)
     <> hmac_sha256 (list_ascii_of_string s) (list_ascii_of_string v) ->
   Verify (fst (Generate v s)) s' = (false, EmptyString, None)).
Proof.
  intros Hv Hs. split; [| split].
  - unfold Generate. rewrite (is_empty_string_false v Hv), (is_empty_string_false s Hs).
    reflexivity.
  - rewrite Verify_Generate by assumption. rewrite hmac_equal_refl. reflexivity.
  - intros Hne. rewrite Verify_Generate by assumption.
    destruct (hmac_equal _ _) eqn:E; [| reflexivity].
    apply hmac_equal_spec in E. congruence.
Qed.

(** The round trip at the identity "agent-1" and the secrets "secret" and
    "other". *)
Lemma Verify_Generate_roundtrip_witness :
  snd (Generate "agent-1" "secret") = None /\
  Verify (fst (Generate "agent-1" "secret")) "secret" = (true, "agent-1", None) /\
  Verify (fst (Generate "agent-1" "secret")) "other" = (false, EmptyString, None).
Proof.
  destruct (Verify_Generate_roundtrip "agent-1" "secret" "other") as (H1 & H2 & H3);
    [discriminate | discriminate |].
  split; [exact H1 | split; [exact H2 |]].
  apply H3. vm_compute. discriminate.
Defined.

(** C4 fails as stated in two ways.  With an empty identity [Generate]
    refuses to issue a token, and what it returns does not verify.  And two
    different secrets may verify the same token: "k" and "k" followed by a
    zero byte are the same HMAC key. *)
Lemma Verify_Generate_counterexample :
  Generate EmptyString "k" = (EmptyString, Some ErrEmptyInput) /\
  Verify (fst (Generate EmptyString "k")) "k" = (false, EmptyString, Some ErrInvalidFormat) /\
  String "k" (String zero EmptyString) <> "k" /\
  Verify (fst (Generate "a" "k")) (String "k" (String zero EmptyString))
    = (true, "a", None).
Proof.
  split; [reflexivity | split; [reflexivity | split; [discriminate |]]].
  vm_compute. reflexivity.
Qed.

(** C8.  [Verify] returns an error exactly on a structurally malformed token
    (one that does not split into exactly two parts around the separator, or
    one part of which is not valid base64), its answer then being invalid;
    on a well-formed token whose decoded signature differs from the
    recomputed one it answers invalid with no error. *)
Theorem Verify_error_iff_malformed (signedText secretKey : string) :
  (malformed signedText = true ->
     exists e, Verify signedText secretKey = (false, EmptyString, Some e)) /\
  (malformed signedText = false -> snd (Verify signedText secretKey) = None) /\
  (forall part0 part1 textBytes inputSignature,
     Split signedText "."%char = [part0; part1] ->
     DecodeString part0 = Some textBytes ->
     DecodeString part1 = Some inputSignature ->
     inputSignature <> hmac_sha256 (list_ascii_of_string secretKey) textBytes ->
     Verify signedText secretKey = (false, EmptyString, None)).
Proof.
  unfold malformed, Verify. split; [| split].
  - intros H.
    destruct (Split signedText ".") as [| p0 [| p1 [| p2 ps]]];
      try (exists ErrInvalidFormat; reflexivity).
    destruct (DecodeString p0) as [t |]; [| exists ErrCorruptInput; reflexivity].
    destruct (DecodeString p1) as [g |]; [discriminate |].
    exists ErrCorruptInput. reflexivity.
  - intros H.
    destruct (Split signedText ".") as [| p0 [| p1 [| p2 ps]]]; try discriminate.
    destruct (DecodeString p0) as [t |]; [| discriminate].
    destruct (DecodeString p1) as [g |]; [| discriminate].
    destruct (negb _); reflexivity.
  - intros p0 p1 t g -> -> -> Hne.
    rewrite list_ascii_of_string_of_list_ascii.
    destruct (hmac_equal g _) eqn:E; [| reflexivity].
    apply hmac_equal_spec in E. congruence.
Qed.

(** The three outcomes of [Verify] on concrete tokens: a token with three
    parts, a token issued under another secret, and the issued token. *)
Lemma Verify_error_iff_malformed_witness :
  (exists e, Verify "YQ==.YQ==.YQ==" "k" = (false, EmptyString, Some e)) /\
  snd (Verify (fst (Generate "a" "k")) "k") = None /\
  Verify "YQ==.YQ==" "k" = (false, EmptyString, None).
Proof.
  split; [| split].
  - apply (proj1 (Verify_error_iff_malformed "YQ==.YQ==.YQ==" "k")). reflexivity.
  - apply (proj1 (proj2 (Verify_error_iff_malformed (fst (Generate "a" "k")) "k"))).
    vm_compute. reflexivity.
  - apply (proj2 (proj2 (Verify_error_iff_malformed "YQ==.YQ==" "k"))
             "YQ==" "YQ==" ["a"%char] ["a"%char]);
      try reflexivity.
    vm_compute. discriminate.
Defined.

End CryptoProperties.

(* ===================================================================== *)
(** * Properties of the hub *)
(* ===================================================================== *)

Module HubProperties.
Import GoInt GoProperties Errors ConfigStore ConfigUsecase HubSpec HubHistory.

(** ** The row selected by the query *)

Lemma pick_is_Some acc r : is_Some (pick acc r).
Proof. unfold pick. destruct acc as [b |]; [destruct (before _ b) |]; eauto. Qed.

Lemma foldl_pick_Some rows b : is_Some (foldl pick (Some b) rows).
Proof.
  revert b. induction rows as [| r rows IH]; intros b; cbn [foldl]; [eauto |].
  destruct (pick_is_Some (Some b) r) as [b' ->]. apply IH.
Qed.

Lemma first_by_version_None rows : first_by_version rows = None <-> rows = [].
Proof.
  unfold first_by_version. destruct rows as [| r rows]; [done |].
  cbn [foldl pick]. split; [| done].
  intros H. destruct (foldl_pick_Some rows (of_row r)) as [c Hc]. congruence.
Qed.

Lemma pick_cases acc r c :
  pick acc r = Some c ->
  (acc = Some c \/ c = of_row r) /\
  (forall b, acc = Some b -> Version b <= Version c) /\
  Version (of_row r) <= Version c.
Proof.
  unfold pick. destruct acc as [b |].
  - destruct (before (of_row r) b) eqn:E; intros [= <-].
    + split; [by right |]. split; [| lia].
      intros b' [= <-]. unfold before in E.
      apply orb_prop in E. destruct E as [E | E]; [lia |].
      apply andb_prop in E. lia.
    + split; [by left |]. split; [intros b' [= <-]; lia |].
      unfold before in E. apply orb_false_elim in E. lia.
  - intros [= <-]. split; [by right |]. split; [done | lia].
Qed.

Lemma foldl_pick_spec rows : forall acc c,
  foldl pick acc rows = Some c ->
  (acc = Some c \/ exists r, r ∈ rows /\ c = of_row r) /\
  (forall b, acc = Some b -> Version b <= Version c) /\
  (forall r, r ∈ rows -> Version (of_row r) <= Version c).
Proof.
  induction rows as [| r rows IH]; intros acc c; cbn [foldl].
  - intros ->. split; [by left |]. split; [by intros b [= ->] |].
    intros r Hr. by apply elem_of_nil in Hr.
  - intros H. destruct (pick_is_Some acc r) as [b Hb]. rewrite Hb in H.
    destruct (IH _ _ H) as (Hin & Hacc & Hall).
    destruct (pick_cases _ _ _ Hb) as (Hsrc & Hle & Hr).
    specialize (Hacc b eq_refl).
    split; [| split].
    + destruct Hin as [[= ->] | (r' & Hr' & ->)].
      * destruct Hsrc as [-> | ->]; [by left |].
        right. exists r. split; [apply elem_of_cons; by left | done].
      * right. exists r'. split; [apply elem_of_cons; by right | done].
    + intros b' Hb'. specialize (Hle b' Hb'). lia.
    + intros r' Hr'. apply elem_of_cons in Hr'. destruct Hr' as [-> | Hr'].
      * lia.
      * by apply Hall.
Qed.

Lemma latest_None d : latest d = None <-> d = ∅.
Proof.
  unfold latest. rewrite first_by_version_None. apply map_to_list_empty_iff.
Qed.

(** The selected row is a row of the table and no row has a greater
    version. *)
Lemma latest_Some d c :
  latest d = Some c ->
  d !! UUID c = Some (to_row c) /\
  (forall k r, d !! k = Some r -> col_version r <= Version c).
Proof.
  unfold latest, first_by_version. intros H.
  destruct (foldl_pick_spec _ _ _ H) as (Hin & _ & Hall). split.
  - destruct Hin as [[=] | ([k r] & Hr & ->)].
    apply elem_of_map_to_list in Hr. destruct r. exact Hr.
  - intros k r Hkr. apply (Hall (k, r)). by apply elem_of_map_to_list.
Qed.

Lemma max_version_unique d v1 v2 : max_version d v1 -> max_version d v2 -> v1 = v2.
Proof.
  intros [(k1 & r1 & H1 & <-) U1] [(k2 & r2 & H2 & <-) U2].
  specialize (U1 _ _ H2). specialize (U2 _ _ H1). lia.
Qed.

Lemma latest_version_Some d v : latest_version d = Some v <-> max_version d v.
Proof.
  unfold latest_version. split.
  - intros H. destruct (latest d) as [c |] eqn:E; [| done].
    injection H as <-. destruct (latest_Some _ _ E) as [Hc Hall].
    split; [| exact Hall]. exists (UUID c), (to_row c). by split.
  - intros Hmax. destruct (latest d) as [c |] eqn:E.
    + cbn. f_equal. destruct (latest_Some _ _ E) as [Hc Hall].
      apply (max_version_unique d); [| exact Hmax].
      split; [| exact Hall]. exists (UUID c), (to_row c). by split.
    + apply latest_None in E. subst d.
      destruct Hmax as [(k & r & Hk & _) _]. by rewrite lookup_empty in Hk.
Qed.

Lemma latest_version_None d : latest_version d = None <-> d = ∅.
Proof.
  unfold latest_version. rewrite <- latest_None.
  destruct (latest d); [split; discriminate | done].
Qed.

(** Tables that agree on the version stored under each key select the same
    version. *)
Lemma latest_version_ext d d' :
  (forall k, col_version <$> d' !! k = col_version <$> d !! k) ->
  latest_version d' = latest_version d.
Proof.
  intros Hext.
  assert (Hmax : forall v, max_version d v -> max_version d' v).
  { intros v [(k & r & Hk & Hv) Hall]. split.
    - specialize (Hext k). rewrite Hk in Hext. cbn in Hext.
      destruct (d' !! k) as [r' |] eqn:E; [| done].
      exists k, r'. split; [done |]. cbn in Hext. congruence.
    - intros k' r' Hk'. specialize (Hext k'). rewrite Hk' in Hext. cbn in Hext.
      destruct (d !! k') as [r0 |] eqn:E; [| done].
      cbn in Hext. injection Hext as ->. by apply (Hall k'). }
  destruct (latest_version d) as [v |] eqn:E.
  - apply latest_version_Some. apply Hmax. by apply latest_version_Some.
  - apply latest_version_None in E. subst d. apply latest_version_None.
    apply map_eq. intros k. specialize (Hext k).
    rewrite lookup_empty in Hext |- *. cbn in Hext.
    by destruct (d' !! k).
Qed.

Lemma version_le_refl a : version_le a a.
Proof. destruct a; cbn; [lia | done]. Qed.

Lemma version_le_trans a b c : version_le a b -> version_le b c -> version_le a c.
Proof. destruct a, b, c; cbn; try done; lia. Qed.

Lemma latest_version_insert_fresh d k r :
  d !! k = None ->
  exists v', latest_version (<[k := r]> d) = Some v' /\
             col_version r <= v' /\
             version_le (latest_version d) (Some v').
Proof.
  intros Hk.
  destruct (latest_version (<[k := r]> d)) as [v' |] eqn:E.
  - exists v'. split; [done |].
    apply latest_version_Some in E. destruct E as [_ Hall]. split.
    + apply (Hall k). apply lookup_insert_eq.
    + destruct (latest_version d) as [v |] eqn:E'; [| done]. cbn.
      apply latest_version_Some in E'. destruct E' as [(k0 & r0 & Hk0 & <-) _].
      apply (Hall k0). rewrite lookup_insert_ne; [done | congruence].
  - apply latest_version_None in E. by apply insert_non_empty in E.
Qed.

(** A row inserted with a version above all others is the one selected. *)
Lemma latest_insert_greatest d cfg :
  d !! UUID cfg = None ->
  (forall k r, d !! k = Some r -> col_version r < Version cfg) ->
  latest (<[UUID cfg := to_row cfg]> d) = Some cfg.
Proof.
  intros Hfresh Hgt.
  destruct (latest (<[UUID cfg := to_row cfg]> d)) as [c |] eqn:E.
  - destruct (latest_Some _ _ E) as [Hc Hall].
    pose proof (Hall _ _ (lookup_insert_eq d (UUID cfg) (to_row cfg))) as Hle.
    cbn in Hle.
    destruct (decide (UUID cfg = UUID c)) as [Heq | Hne].
    + rewrite <- Heq, lookup_insert_eq in Hc. injection Hc as Hrow.
      f_equal. destruct c, cfg. cbn in *. unfold to_row in Hrow. cbn in Hrow.
      congruence.
    + rewrite lookup_insert_ne in Hc by done.
      specialize (Hgt _ _ Hc). cbn in Hgt. lia.
  - apply latest_None in E. by apply insert_non_empty in E.
Qed.

(** ** What the use cases do to the table *)

Lemma IsNotFound_NotFound r : IsNotFound (Some (NotFound r)) = true.
Proof. reflexivity. Qed.

Lemma IsNotFound_Database e : IsNotFound (Some (Database e)) = false.
Proof. reflexivity. Qed.

(** [Create] either leaves the table as it is, or inserts the new
    configuration under a key that was free. *)
Lemma Create_db env save h :
  db (fst (Create env save h)) = db h \/
  (db h !! uuid_New env = None /\
   db_Get_fault env = None /\ db_Write_fault env = None /\
   db (fst (Create env save h))
     = <[uuid_New env := to_row (created_config env save h)]> (db h)).
Proof.
  unfold Create, created_config, ConfigStore.GetLatestConfig, ConfigStore.Create,
    SetConfig.
  destruct (db_Get_fault env) as [e |]; [left; reflexivity |].
  destruct (latest (db h)) as [c |];
    try rewrite IsNotFound_NotFound; cbn [negb UUID];
    (destruct (db_Write_fault env) as [e |]; [left; reflexivity |]);
    (destruct (db h !! uuid_New env) as [r |] eqn:Hk; [left; reflexivity |]);
    right; destruct (cache_Set_fault env); cbn; auto.
Qed.

(** A successful [Create] returns the configuration it built, stored and
    cached. *)
Lemma Create_Ok env save h h' cfg :
  Create env save h = (h', Ok cfg) ->
  cfg = created_config env save h /\
  db h !! uuid_New env = None /\
  db h' = <[uuid_New env := to_row cfg]> (db h) /\
  cache h' = Some cfg.
Proof.
  unfold Create, created_config, ConfigStore.GetLatestConfig, ConfigStore.Create,
    SetConfig.
  destruct (db_Get_fault env) as [e |]; [cbn; intros [=] |].
  destruct (latest (db h)) as [c |];
    try rewrite IsNotFound_NotFound; cbn [negb UUID];
    (destruct (db_Write_fault env) as [e |]; [intros [=] |]);
    (destruct (db h !! uuid_New env) as [r |] eqn:Hk; [intros [=] |]);
    (destruct (cache_Set_fault env); intros [= <- <-]); cbn; auto.
Qed.

(** [Update] either leaves the table as it is, or rewrites the selected row
    keeping its key and version. *)
Lemma Update_db env save h :
  db (fst (Update env save h)) = db h \/
  exists c url interval,
    latest (db h) = Some c /\
    db (fst (Update env save h))
      = <[UUID c := mkRow (Version c) url interval (CreatedAt c)]> (db h).
Proof.
  unfold Update, ConfigStore.GetLatestConfig, ConfigStore.Update, SetConfig.
  destruct (db_Get_fault env) as [e |]; [left; reflexivity |].
  destruct (latest (db h)) as [c |] eqn:Hc; [| left; reflexivity].
  destruct (db_Write_fault env) as [e |]; [left; reflexivity |].
  right.
  destruct (is_empty_string (UpdateConfigUrl save)),
    (UpdatePoolingInterval save) as [i |]; cbn [negb];
    try destruct (0 <=? i); destruct (cache_Set_fault env); cbn;
    eexists c, _, _; (split; [reflexivity |]); reflexivity.
Qed.

(** [Update] changes no version: every key holds the version it held. *)
Lemma Update_versions env save h k :
  col_version <$> db (fst (Update env save h)) !! k = col_version <$> db h !! k.
Proof.
  destruct (Update_db env save h) as [-> | (c & url & interval & Hc & ->)];
    [reflexivity |].
  destruct (latest_Some _ _ Hc) as [Hrow _].
  destruct (decide (UUID c = k)) as [<- | Hne].
  - rewrite lookup_insert_eq, Hrow. reflexivity.
  - by rewrite lookup_insert_ne.
Qed.

(** ** Sequences of operations at the hub *)

Lemma step_version_le h o :
  version_le (latest_version (db h)) (latest_version (db (step h o))).
Proof.
  destruct o as [env save | env save]; cbn [step].
  - destruct (Create_db env save h) as [-> | (Hfresh & _ & _ & ->)];
      [apply version_le_refl |].
    destruct (latest_version_insert_fresh (db h) (uuid_New env)
                (to_row (created_config env save h)) Hfresh) as (v' & -> & _ & Hle).
    exact Hle.
  - rewrite (latest_version_ext (db h) (db (fst (Update env save h))));
      [apply version_le_refl |].
    apply Update_versions.
Qed.

Lemma run_version_le ops : forall h,
  version_le (latest_version (db h)) (latest_version (db (run ops h))).
Proof.
  induction ops as [| o ops IH]; intros h; cbn [run foldl].
  - apply version_le_refl.
  - eapply version_le_trans; [apply (step_version_le h o) | apply IH].
Qed.

Lemma add64_succ v : MinInt64 <= v < MaxInt64 -> add64 v 1 = v + 1.
Proof.
  intros Hv. unfold add64. apply wrap64_small.
  unfold in_int64, MinInt64, MaxInt64 in *. lia.
Qed.

(** ** The cache in front of the store *)

(** [Create], case by case: nothing is written; or the row is written and
    the cache write fails; or both are written. *)
Lemma Create_cases env save h :
  fst (Create env save h) = h \/
  (db h !! uuid_New env = None /\
   ((cache_Set_fault env <> None /\
     fst (Create env save h)
       = mkHub (<[uuid_New env := to_row (created_config env save h)]> (db h)) (cache h)) \/
    (cache_Set_fault env = None /\
     Create env save h
       = (mkHub (<[uuid_New env := to_row (created_config env save h)]> (db h))
                (Some (created_config env save h)),
          Ok (created_config env save h))))).
Proof.
  unfold Create, created_config, ConfigStore.GetLatestConfig, ConfigStore.Create,
    SetConfig.
  destruct h as [d c]. cbn [db cache].
  destruct (db_Get_fault env) as [e |]; [left; reflexivity |].
  destruct (latest d) as [l |];
    try rewrite IsNotFound_NotFound; cbn [negb UUID];
    (destruct (db_Write_fault env) as [e |]; [left; reflexivity |]);
    (destruct (d !! uuid_New env) as [r |] eqn:Hk; [left; reflexivity |]);
    right; (split; [reflexivity |]);
    (destruct (cache_Set_fault env); [left | right]); cbn; auto.
Qed.

Lemma updated_config_key save c :
  UUID (updated_config save c) = UUID c /\ Version (updated_config save c) = Version c.
Proof.
  unfold updated_config.
  destruct (is_empty_string (UpdateConfigUrl save)),
    (UpdatePoolingInterval save) as [i |]; cbn [negb];
    try destruct (0 <=? i); cbn; auto.
Qed.

(** [Update], case by case: nothing is written; or the selected row is
    rewritten under its key and the cache write fails; or both are
    written. *)
Lemma Update_cases env save h :
  fst (Update env save h) = h \/
  exists c,
    latest (db h) = Some c /\
    ((cache_Set_fault env <> None /\
      fst (Update env save h)
        = mkHub (<[UUID c := to_row (updated_config save c)]> (db h)) (cache h)) \/
     (cache_Set_fault env = None /\
      fst (Update env save h)
        = mkHub (<[UUID c := to_row (updated_config save c)]> (db h))
                (Some (updated_config save c)))).
Proof.
  unfold Update, ConfigStore.GetLatestConfig, ConfigStore.Update, SetConfig.
  destruct h as [d ch]. cbn [db cache].
  destruct (db_Get_fault env) as [e |]; [left; reflexivity |].
  destruct (latest d) as [c |] eqn:Hc; [| left; reflexivity].
  destruct (db_Write_fault env) as [e |]; [left; reflexivity |].
  right. exists c. split; [reflexivity |].
  fold (updated_config save c).
  rewrite (proj1 (updated_config_key save c)).
  destruct (cache_Set_fault env); [left | right]; (split; [done | reflexivity]).
Qed.

Lemma created_config_version env save h :
  version_in_range h ->
  Version (created_config env save h)
  = match latest_version (db h) with None => 1 | Some v => v + 1 end.
Proof.
  intros Hrange. unfold created_config, latest_version.
  destruct (latest (db h)) as [c |] eqn:Hc; cbn; [| reflexivity].
  apply add64_succ. apply Hrange. unfold latest_version. by rewrite Hc.
Qed.

(** Once written, the created configuration is the latest one. *)
Lemma created_config_latest env save h :
  version_in_range h ->
  db h !! uuid_New env = None ->
  latest (<[uuid_New env := to_row (created_config env save h)]> (db h))
  = Some (created_config env save h).
Proof.
  intros Hrange Hfresh.
  change (uuid_New env) with (UUID (created_config env save h)).
  apply latest_insert_greatest; [exact Hfresh |].
  intros k r Hk. rewrite created_config_version by exact Hrange.
  unfold latest_version. destruct (latest (db h)) as [c |] eqn:Hc; cbn.
  - destruct (latest_Some _ _ Hc) as [_ Hall]. specialize (Hall _ _ Hk). lia.
  - apply latest_None in Hc. rewrite Hc, lookup_empty in Hk. done.
Qed.

(** An operation whose cache write does not fail keeps the cache in sync. *)
Lemma step_cache_in_sync h o :
  version_in_range h -> cache_in_sync h ->
  cache_Set_fault (op_env o) = None ->
  cache_in_sync (step h o).
Proof.
  intros Hrange Hsync Hset. destruct o as [env save | env save]; cbn [step op_env] in *.
  - destruct (Create_cases env save h) as [-> | (Hfresh & [[Hf _] | [_ ->]])];
      [exact Hsync | congruence |].
    intros c. cbn [fst cache db]. intros [= <-].
    unfold latest_version. by rewrite created_config_latest.
  - destruct (Update_cases env save h) as [-> | (c & Hc & [[Hf _] | [_ ->]])];
      [exact Hsync | congruence |].
    destruct (updated_config_key save c) as [Huuid Hver].
    intros c0. cbn [cache db]. intros [= <-].
    rewrite (latest_version_ext (db h)).
    + unfold latest_version. rewrite Hc. cbn. by rewrite Hver.
    + intros k. destruct (latest_Some _ _ Hc) as [Hrow _].
      destruct (decide (UUID c = k)) as [<- | Hne].
      * rewrite lookup_insert_eq, Hrow. cbn. by rewrite Hver.
      * by rewrite lookup_insert_ne.
Qed.

(** With the cache in sync, the cache-first read of the use case answers
    with the greatest version of the store, and leaves the store as it is
    and the cache in sync. *)
Lemma GetLatestConfig_in_sync env agentID h h' c :
  cache_in_sync h ->
  ConfigUsecase.GetLatestConfig env agentID h = (h', Ok c) ->
  latest_version (db h) = Some (Version c) /\ db h' = db h /\ cache_in_sync h'.
Proof.
  intros Hsync. unfold ConfigUsecase.GetLatestConfig, GetConfig,
    ConfigStore.GetLatestConfig, SetConfig.
  destruct (match agentID with Some _ => agent_GetById env | None => None end);
    [destruct (IsNotFound _); intros [=] |].
  assert (Hmiss :
    match (match db_Get_fault env with
           | Some e => Err (Database e)
           | None => match latest (db h) with
                     | Some cfg => Ok cfg
                     | None => Err (NotFound "config")
                     end
           end) with
    | Ok config =>
        let '(c', _) := match cache_Set_fault env with
                        | Some e => (cache h, Some e)
                        | None => (Some config, None)
                        end in (mkHub (db h) c', Ok config)
    | Err err =>
        if IsNotFound (Some err) then (h, Err (NotFound "config"))
        else (h, Err (Wrap err ErrCodeInternal "failed to get latest config"))
    end = (h', Ok c) ->
    latest_version (db h) = Some (Version c) /\ db h' = db h /\ cache_in_sync h').
  { destruct (db_Get_fault env); [cbn; intros [=] |].
    destruct (latest (db h)) as [l |] eqn:Hl; [| cbn; intros [=]].
    destruct (cache_Set_fault env); intros [= <- <-]; cbn [db cache];
      (split; [unfold latest_version; by rewrite Hl |]); (split; [reflexivity |]).
    - exact Hsync.
    - intros c0 [= <-]. cbn [db]. unfold latest_version. by rewrite Hl. }
  destruct (cache_Get_fault env); [exact Hmiss |].
  destruct (cache h) as [cached |] eqn:Hcache; [| exact Hmiss].
  intros [= <- <-]. split; [by apply Hsync |]. split; [reflexivity | exact Hsync].
Qed.

(** ** Operations and reads over time *)

(** A read that returns an error leaves the hub as it is. *)
Lemma GetLatestConfig_Err_hub env agentID h h' e :
  ConfigUsecase.GetLatestConfig env agentID h = (h', Err e) -> h' = h.
Proof.
  unfold ConfigUsecase.GetLatestConfig, GetConfig, ConfigStore.GetLatestConfig, SetConfig.
  destruct (match agentID with Some _ => agent_GetById env | None => None end).
  { destruct (IsNotFound _); by intros [= <- _]. }
  assert (match (match db_Get_fault env with
                 | Some e0 => Err (Database e0)
                 | None => match latest (db h) with
                           | Some cfg => Ok cfg
                           | None => Err (NotFound "config")
                           end
                 end) with
          | Ok config =>
              let '(c', _) := match cache_Set_fault env with
                              | Some e0 => (cache h, Some e0)
                              | None => (Some config, None)
                              end in (mkHub (db h) c', Ok config)
          | Err err =>
              if IsNotFound (Some err) then (h, Err (NotFound "config"))
              else (h, Err (Wrap err ErrCodeInternal "failed to get latest config"))
          end = (h', Err e) -> h' = h) as Hmiss.
  { destruct (db_Get_fault env); [cbn; by intros [= <- _] |].
    destruct (latest (db h)); [by destruct (cache_Set_fault env) |].
    rewrite IsNotFound_NotFound. by intros [= <- _]. }
  destruct (cache_Get_fault env); [exact Hmiss |].
  destruct (cache h); [discriminate | exact Hmiss].
Qed.

(** A read keeps the store, and keeps the cache in sync with it. *)
Lemma GetLatestConfig_keeps env agentID h :
  cache_in_sync h ->
  db (fst (ConfigUsecase.GetLatestConfig env agentID h)) = db h /\
  cache_in_sync (fst (ConfigUsecase.GetLatestConfig env agentID h)).
Proof.
  intros Hsync.
  destruct (ConfigUsecase.GetLatestConfig env agentID h) as [h' [c | e]] eqn:E;
    cbn [fst].
  - by destruct (GetLatestConfig_in_sync _ _ _ _ _ Hsync E) as (_ & ? & ?).
  - by rewrite (GetLatestConfig_Err_hub _ _ _ _ _ E).
Qed.

(** In sync, a read answers with the greatest version of the store. *)
Lemma read_version_in_sync env agentID h v :
  cache_in_sync h -> read_version env agentID h = Some v ->
  latest_version (db h) = Some v.
Proof.
  intros Hsync. unfold read_version.
  destruct (ConfigUsecase.GetLatestConfig env agentID h) as [h' [c | e]] eqn:E;
    cbn [snd]; [| discriminate].
  intros [= <-]. by destruct (GetLatestConfig_in_sync _ _ _ _ _ Hsync E).
Qed.

(** An operation leaves the greatest version as it is or, a create,
    advances it by one. *)
Lemma step_latest_version h o :
  version_in_range h ->
  latest_version (db (step h o)) = latest_version (db h) \/
  ((exists env save, o = OpCreate env save) /\
   latest_version (db (step h o))
   = Some (match latest_version (db h) with None => 1 | Some v => v + 1 end)).
Proof.
  intros Hrange. destruct o as [env save | env save]; cbn [step].
  - destruct (Create_db env save h) as [-> | (Hfresh & _ & _ & ->)]; [by left |].
    right. split; [eauto |].
    unfold latest_version at 1. rewrite created_config_latest by assumption.
    cbn [fmap option_fmap option_map]. by rewrite created_config_version.
  - left. apply latest_version_ext, Update_versions.
Qed.

Lemma version_room_in_range n h : 0 <= n -> version_room n h -> version_in_range h.
Proof. intros Hn [_ Hroom] v Hv. destruct (Hroom v Hv). lia. Qed.

Lemma act_invariant h a n :
  0 <= n -> cache_in_sync h -> version_room (n + 1) h -> cache_write_ok a ->
  cache_in_sync (act h a) /\ version_room n (act h a) /\
  version_le (latest_version (db h)) (latest_version (db (act h a))) /\
  (latest_version (db (act h a)) <> latest_version (db h) ->
   exists env save, a = Do (OpCreate env save)).
Proof.
  intros Hn Hsync Hroom Hok.
  pose proof (version_room_in_range (n + 1) h ltac:(lia) Hroom) as Hrange.
  destruct Hroom as [Hn1 Hroom].
  destruct a as [o | env agentID]; cbn [act cache_write_ok] in *.
  - split; [by apply step_cache_in_sync |].
    split; [| split; [apply step_version_le |]].
    + split; [lia |]. intros v Hv.
      destruct (step_latest_version h o Hrange) as [E | [_ E]]; rewrite E in Hv.
      * destruct (Hroom v Hv). lia.
      * destruct (latest_version (db h)) as [v0 |] eqn:E0; injection Hv as <-.
        -- destruct (Hroom v0 eq_refl). lia.
        -- unfold MinInt64. lia.
    + intros Hne. destruct (step_latest_version h o Hrange) as [E | [(env & save & ->) _]];
        [congruence | eauto].
  - destruct (GetLatestConfig_keeps env agentID h Hsync) as [Hdb Hsync'].
    rewrite Hdb. split; [exact Hsync' |]. split; [| split].
    + split; [lia |]. intros v Hv. rewrite Hdb in Hv. destruct (Hroom v Hv). lia.
    + apply version_le_refl.
    + congruence.
Qed.

Lemma history_invariant acts : forall h n,
  0 <= n -> cache_in_sync h -> version_room (n + Z.of_nat (length acts)) h ->
  Forall cache_write_ok acts ->
  cache_in_sync (history acts h) /\ version_room n (history acts h) /\
  version_le (latest_version (db h)) (latest_version (db (history acts h))) /\
  (latest_version (db (history acts h)) <> latest_version (db h) ->
   exists env save, In (Do (OpCreate env save)) acts).
Proof.
  induction acts as [| a acts IH]; intros h n Hn Hsync Hroom Hok.
  - cbn in *. rewrite Z.add_0_r in Hroom.
    split; [done |]. split; [done |]. split; [apply version_le_refl | done].
  - inversion Hok as [| ? ? Ha Hrest]; subst.
    change (history (a :: acts) h) with (history acts (act h a)).
    destruct (act_invariant h a (n + Z.of_nat (length acts)) ltac:(lia) Hsync)
      as (Hsync1 & Hroom1 & Hle1 & Hcreate1); [| exact Ha |].
    { replace (n + Z.of_nat (length acts) + 1)
        with (n + Z.of_nat (length (a :: acts))) by (cbn [length]; lia).
      exact Hroom. }
    destruct (IH (act h a) n Hn Hsync1 Hroom1 Hrest) as (Hsync2 & Hroom2 & Hle2 & Hcreate2).
    split; [done |]. split; [done |].
    split; [by apply (version_le_trans _ _ _ Hle1) |].
    intros Hne.
    destruct (decide (latest_version (db (act h a)) = latest_version (db h))) as [E | E].
    + rewrite <- E in Hne. destruct (Hcreate2 Hne) as (env & save & Hin).
      exists env, save. by right.
    + destruct (Hcreate1 E) as (env & save & ->). exists env, save. by left.
Qed.

(** A create whose calls all succeed, on an identifier that is new. *)
Lemma Create_no_fault env save h :
  no_fault env -> db h !! uuid_New env = None ->
  Create env save h
  = (mkHub (<[uuid_New env := to_row (created_config env save h)]> (db h))
           (Some (created_config env save h)),
     Ok (created_config env save h)).
Proof.
  intros (Hget & Hwrite & Hset) Hfresh.
  unfold Create, created_config, ConfigStore.GetLatestConfig, ConfigStore.Create,
    SetConfig.
  rewrite Hget, Hwrite, Hset.
  destruct (latest (db h)) as [c |];
    try rewrite IsNotFound_NotFound; cbn [negb UUID]; rewrite Hfresh; reflexivity.
Qed.

(** An update whose calls all succeed, on a store that is not empty. *)
Lemma Update_no_fault env save h c :
  no_fault env -> latest (db h) = Some c ->
  Update env save h
  = (mkHub (<[UUID c := to_row (updated_config save c)]> (db h))
           (Some (updated_config save c)),
     None).
Proof.
  intros (Hget & Hwrite & Hset) Hc.
  unfold Update, ConfigStore.GetLatestConfig, ConfigStore.Update, SetConfig.
  rewrite Hget, Hc, Hwrite, Hset. fold (updated_config save c).
  by rewrite (proj1 (updated_config_key save c)).
Qed.

(** C3 (as amended).  Over every sequence of create and update operations
    at the hub, whatever their inputs and whichever of their database and
    cache calls fail, the greatest version of the store never decreases and
    changes only across a create, and an update leaves the version stored
    under every key as it was.  A create whose calls succeed on a new
    identifier returns the configuration it stores and caches, its version
    the previous greatest version plus one (that version being below the
    greatest [int]), or 1 on an empty store, and a read whose cache read
    succeeds then returns it; an
    update whose calls succeed rewrites and caches the latest row with its
    version unchanged.  [get_latest], the cache-first read of the use case,
    answers with the greatest version of the store as long as the cache is
    in sync with it, which holds as long as no cache write of an operation
    has failed: over operations and reads in any order, the cache writes of
    the operations succeeding, a later read never answers a smaller version
    than an earlier one, and a greater one only if a create lies between
    them. *)
Theorem hub_version_monotone (h : hub) :
  (forall o,
     version_le (latest_version (db h)) (latest_version (db (step h o))) /\
     (latest_version (db (step h o)) <> latest_version (db h) ->
      exists env save, o = OpCreate env save)) /\
  (forall ops1 ops2,
     version_le (latest_version (db (run ops1 h)))
                (latest_version (db (run (ops1 ++ ops2) h)))) /\
  (forall env save h' cfg,
     Create env save h = (h', Ok cfg) ->
     match latest_version (db h) with
     | None => Version cfg = 1 /\ latest (db h') = Some cfg
     | Some v =>
         MinInt64 <= v < MaxInt64 ->
         Version cfg = v + 1 /\ latest (db h') = Some cfg
     end) /\
  (forall env save k,
     col_version <$> db (fst (Update env save h)) !! k = col_version <$> db h !! k) /\
  (forall o,
     version_in_range h -> cache_in_sync h -> cache_Set_fault (op_env o) = None ->
     cache_in_sync (step h o)) /\
  (forall env agentID h' c,
     cache_in_sync h ->
     ConfigUsecase.GetLatestConfig env agentID h = (h', Ok c) ->
     latest_version (db h) = Some (Version c) /\ db h' = db h /\ cache_in_sync h') /\
  (forall env save,
     no_fault env -> db h !! uuid_New env = None -> version_in_range h ->
     let cfg := created_config env save h in
     Create env save h
     = (mkHub (<[uuid_New env := to_row cfg]> (db h)) (Some cfg), Ok cfg) /\
     Version cfg = match latest_version (db h) with None => 1 | Some v => v + 1 end /\
     latest_version (db (fst (Create env save h))) = Some (Version cfg) /\
     forall env' agentID,
       cache_Get_fault env' = None ->
       match agentID with Some _ => agent_GetById env' = None | None => True end ->
       read_version env' agentID (fst (Create env save h)) = Some (Version cfg)) /\
  (forall env save c,
     no_fault env -> latest (db h) = Some c ->
     Update env save h
     = (mkHub (<[UUID c := to_row (updated_config save c)]> (db h))
              (Some (updated_config save c)), None) /\
     Version (updated_config save c) = Version c /\
     latest_version (db (fst (Update env save h))) = Some (Version c)) /\
  (forall acts1 acts2 env1 agentID1 env2 agentID2 v1 v2,
     cache_in_sync h ->
     version_room (Z.of_nat (length (acts1 ++ acts2))) h ->
     Forall cache_write_ok (acts1 ++ acts2) ->
     read_version env1 agentID1 (history acts1 h) = Some v1 ->
     read_version env2 agentID2 (history (acts1 ++ acts2) h) = Some v2 ->
     v1 <= v2 /\
     (v1 < v2 -> exists env save, In (Do (OpCreate env save)) acts2)).
Proof.
  split; [| split; [| split; [| split; [| split; [| split; [| split; [| split]]]]]]];
    [| | | | intros o; apply step_cache_in_sync
     | intros env agentID h' c; apply GetLatestConfig_in_sync | | |].
  - intros o. split; [apply step_version_le |].
    destruct o as [env save | env save]; [eauto |].
    intros Hne. exfalso. apply Hne. cbn [step].
    apply latest_version_ext, Update_versions.
  - intros ops1 ops2. unfold run. rewrite foldl_app.
    apply (run_version_le ops2).
  - intros env save h' cfg Hok.
    destruct (Create_Ok _ _ _ _ _ Hok) as (Hcfg & Hfresh & Hdb & _).
    assert (Huuid : UUID cfg = uuid_New env) by (subst cfg; reflexivity).
    rewrite Hdb, <- Huuid. rewrite <- Huuid in Hfresh.
    unfold latest_version.
    destruct (latest (db h)) as [c |] eqn:Hc; cbn [fmap option_fmap option_map].
    + intros Hv.
      assert (Hver : Version cfg = Version c + 1).
      { subst cfg. unfold created_config. rewrite Hc. cbn [Version].
        by apply add64_succ. }
      split; [exact Hver |].
      apply latest_insert_greatest; [exact Hfresh |].
      intros k r Hk. destruct (latest_Some _ _ Hc) as [_ Hall].
      specialize (Hall _ _ Hk). lia.
    + assert (Hver : Version cfg = 1).
      { subst cfg. unfold created_config. rewrite Hc. reflexivity. }
      split; [exact Hver |].
      apply latest_insert_greatest; [exact Hfresh |].
      apply latest_None in Hc. intros k r Hk. rewrite Hc, lookup_empty in Hk. done.
  - intros env save k. apply Update_versions.
  - intros env save Hno Hfresh Hrange cfg. subst cfg.
    rewrite (Create_no_fault env save h Hno Hfresh). cbn [fst db].
    assert (latest (<[uuid_New env := to_row (created_config env save h)]> (db h))
            = Some (created_config env save h)) as Hlatest
        by (by apply created_config_latest).
    split; [reflexivity |]. split; [by apply created_config_version |].
    split; [unfold latest_version; by rewrite Hlatest |].
    intros env' agentID Hget Hagent. unfold read_version, ConfigUsecase.GetLatestConfig,
      GetConfig.
    cbn [cache]. rewrite Hget.
    destruct agentID; [rewrite Hagent |]; reflexivity.
  - intros env save c Hno Hc.
    rewrite (Update_no_fault env save h c Hno Hc). cbn [fst db].
    destruct (updated_config_key save c) as [Huuid Hver].
    split; [reflexivity |]. split; [exact Hver |].
    rewrite (latest_version_ext (db h)).
    + unfold latest_version. by rewrite Hc.
    + intros k. destruct (latest_Some _ _ Hc) as [Hrow _].
      destruct (decide (UUID c = k)) as [<- | Hne].
      * rewrite lookup_insert_eq, Hrow. cbn. by rewrite Hver.
      * by rewrite lookup_insert_ne.
  - intros acts1 acts2 env1 agentID1 env2 agentID2 v1 v2 Hsync Hroom Hok Hr1 Hr2.
    rewrite length_app, Nat2Z.inj_add in Hroom.
    apply Forall_app in Hok as [Hok1 Hok2].
    destruct (history_invariant acts1 h (Z.of_nat (length acts2)) ltac:(lia) Hsync)
      as (Hsync1 & Hroom1 & _ & _); [| exact Hok1 |].
    { replace (Z.of_nat (length acts2) + Z.of_nat (length acts1))
        with (Z.of_nat (length acts1) + Z.of_nat (length acts2)) by lia.
      exact Hroom. }
    destruct (history_invariant acts2 (history acts1 h) 0 ltac:(lia) Hsync1)
      as (Hsync2 & _ & Hle & Hcreate); [exact Hroom1 | exact Hok2 |].
    unfold history in Hr2. rewrite foldl_app in Hr2. fold (history acts1 h) in Hr2.
    fold (history acts2 (history acts1 h)) in Hr2.
    apply (read_version_in_sync _ _ _ _ Hsync1) in Hr1.
    apply (read_version_in_sync _ _ _ _ Hsync2) in Hr2.
    rewrite Hr1, Hr2 in Hle. cbn in Hle. split; [exact Hle |].
    intros Hlt. apply Hcreate. rewrite Hr1, Hr2. intros [= E]. lia.
Qed.

(** A create, a read and an update after version 1, every call succeeding:
    the reads before and after answer 1 and 2. *)
Lemma hub_version_monotone_witness :
  let acts := [Do (OpCreate env_ok (mkSaveCreate "https://example.com/b" 60));
               Get env_ok None;
               Do (OpUpdate env_ok (mkSaveUpdate EmptyString (Some 45)))] in
  1 <= 2 /\ (1 < 2 -> exists env save, In (Do (OpCreate env save)) acts).
Proof.
  intros acts.
  apply (proj2 (proj2 (proj2 (proj2 (proj2 (proj2 (proj2 (proj2
           (hub_version_monotone hub_v1))))))))
         [] acts env_ok None env_ok None 1 2).
  - intros c [= <-]. vm_compute. reflexivity.
  - split; [unfold MaxInt64; cbn; lia |].
    intros v Hv. vm_compute in Hv. injection Hv as <-.
    unfold MinInt64, MaxInt64. cbn. lia.
  - repeat constructor.
  - vm_compute. reflexivity.
  - vm_compute. reflexivity.
Defined.

(** C3 fails as stated, on what [get_latest] returns once a cache write has
    failed.  The hub holds version 1, stored and cached, and a create
    stores version 2 while its cache write fails.  With the cache down for
    one read and back for the next, and no operation between the two, the
    reads answer 2 and then 1: the version decreases.  And with the cache
    up, the reads before and after an update, the only operation between
    them, answer 1 and then 2: the version increases across an update. *)
Lemma get_latest_version_counterexample :
  let h1 := fst (Create env_cache_down (mkSaveCreate "https://example.com/b" 60) hub_v1) in
  let update := OpUpdate env_ok (mkSaveUpdate EmptyString (Some 45)) in
  read_version env_cache_off None h1 = Some 2 /\
  act h1 (Get env_cache_off None) = h1 /\
  read_version env_ok None h1 = Some 1 /\
  read_version env_ok None (step h1 update) = Some 2.
Proof. vm_compute. repeat split. Qed.

(** A run of the hub from an empty store: two creates and an update that
    changes the interval; the versions read are 1, 2 and 2. *)
Example hub_run_versions :
  let env u := mkEnv u "2024-01-01T00:00:00Z" None None None None None in
  let ops := [ OpCreate (env "id-1") (mkSaveCreate "https://example.com/a" 30);
               OpCreate (env "id-2") (mkSaveCreate "https://example.com/b" 60);
               OpUpdate (env "id-3") (mkSaveUpdate EmptyString (Some 45)) ] in
  map (fun n => latest_version (db (run (take n ops) (mkHub ∅ None)))) [0; 1; 2; 3]%nat
  = [None; Some 1; Some 2; Some 2].
Proof. vm_compute. reflexivity. Qed.

(** The limit of the cache: after the create of C10, whose cache write
    fails, the store reads version 2 while the cache-first read still
    answers version 1; a later update, whose cache write succeeds, brings
    the cache back in sync. *)
Example cached_read_lags_store :
  let h1 := fst (Create env_cache_down (mkSaveCreate "https://example.com/b" 60) hub_v1) in
  let h2 := fst (Update env_ok (mkSaveUpdate EmptyString (Some 45)) h1) in
  latest_version (db h1) = Some 2 /\
  Version <$> cache h1 = Some 1 /\
  latest_version (db h2) = Some 2 /\
  Version <$> cache h2 = Some 2.
Proof. vm_compute. auto. Qed.

(** C10.  When the write to the database succeeds and the write to the cache
    fails, [Create] returns an error although the new configuration is
    stored: the store's [GetLatestConfig] then returns it, with the version
    advanced by one (or 1 on an empty store), while the cache keeps what it
    held. *)
Theorem Create_cache_failure_persists (env : Env) (save : SaveCreate) (h : hub) (e : error) :
  db_Get_fault env = None -> db_Write_fault env = None ->
  cache_Set_fault env = Some e ->
  db h !! uuid_New env = None ->
  (forall c, latest (db h) = Some c -> MinInt64 <= Version c < MaxInt64) ->
  snd (Create env save h) = Err (Wrap e "config" "failed to cache config") /\
  cache (fst (Create env save h)) = cache h /\
  ConfigStore.GetLatestConfig None (db (fst (Create env save h)))
    = Ok (created_config env save h) /\
  Version (created_config env save h)
    = match latest_version (db h) with None => 1 | Some v => v + 1 end.
Proof.
  intros Hget Hwrite Hcache Hfresh Hrange.
  assert (Hver : Version (created_config env save h)
                 = match latest_version (db h) with None => 1 | Some v => v + 1 end).
  { unfold created_config, latest_version.
    destruct (latest (db h)) as [c |] eqn:Hc; cbn; [| reflexivity].
    apply add64_succ. by apply Hrange. }
  assert (Hrun : Create env save h
                 = (mkHub (<[uuid_New env := to_row (created_config env save h)]> (db h))
                          (cache h),
                    Err (Wrap e "config" "failed to cache config"))).
  { unfold Create, created_config, ConfigStore.GetLatestConfig, ConfigStore.Create,
      SetConfig.
    rewrite Hget, Hwrite, Hcache.
    destruct (latest (db h)) as [c |];
      try rewrite IsNotFound_NotFound; cbn [negb UUID]; rewrite Hfresh; reflexivity. }
  rewrite Hrun. cbn [fst snd db cache].
  split; [reflexivity |]. split; [reflexivity |]. split; [| exact Hver].
  unfold ConfigStore.GetLatestConfig.
  change (uuid_New env) with (UUID (created_config env save h)).
  rewrite latest_insert_greatest; [reflexivity | exact Hfresh |].
  intros k r Hk. rewrite Hver. unfold latest_version.
  destruct (latest (db h)) as [c |] eqn:Hc; cbn.
  - destruct (latest_Some _ _ Hc) as [_ Hall]. specialize (Hall _ _ Hk). lia.
  - apply latest_None in Hc. rewrite Hc, lookup_empty in Hk. done.
Qed.

(** The failed create of C10 on [hub_v1]: the error is returned, version 2
    is stored and read back, the cache still holds version 1. *)
Lemma Create_cache_failure_persists_witness :
  let save := mkSaveCreate "https://example.com/b" 60 in
  snd (Create env_cache_down save hub_v1)
    = Err (Wrap (RawError "dial tcp: connection refused") "config" "failed to cache config") /\
  cache (fst (Create env_cache_down save hub_v1)) = cache hub_v1 /\
  ConfigStore.GetLatestConfig None (db (fst (Create env_cache_down save hub_v1)))
    = Ok (created_config env_cache_down save hub_v1) /\
  Version (created_config env_cache_down save hub_v1)
    = match latest_version (db hub_v1) with None => 1 | Some v => v + 1 end.
Proof.
  intros save.
  apply (Create_cache_failure_persists env_cache_down save hub_v1
           (RawError "dial tcp: connection refused")).
  - reflexivity.
  - reflexivity.
  - reflexivity.
  - vm_compute. reflexivity.
  - intros c Hc. vm_compute in Hc. injection Hc as <-.
    unfold MinInt64, MaxInt64. cbn [Version]. lia.
Defined.

(** C7.  At the hub's handlers a create request whose interval is below 30,
    and an update request that carries an interval below 30, are answered
    with the validation failure (status 400, code ERR_VALIDATION) and leave
    the hub as it was.  A request with interval 30 (and, for a create, a
    non-empty URL) passes validation: its answer is never the validation
    failure, and when no database or cache call fails it is a success that
    stores the interval 30. *)
Theorem interval_floor (env : Env) (h : hub) :
  (forall input,
     CreatePoolingInterval input < 30 ->
     ConfigHandler.Create env input h = (h, ConfigHandler.response_ValidationFailed)) /\
  (forall input i,
     UpdatePoolingInterval input = Some i -> i < 30 ->
     ConfigHandler.Update env input h = (h, ConfigHandler.response_ValidationFailed)) /\
  (forall input,
     CreatePoolingInterval input = 30 -> CreateConfigUrl input <> EmptyString ->
     ConfigHandler.ErrorCode (snd (ConfigHandler.Create env input h))
       <> Some ErrCodeValidation /\
     (no_fault env -> db h !! uuid_New env = None ->
      exists h',
        ConfigHandler.Create env input h
          = (h', ConfigHandler.response_Success (Some (created_config env input h))) /\
        db h' !! uuid_New env = Some (to_row (created_config env input h)) /\
        PoolingInterval (created_config env input h) = 30)) /\
  (forall input,
     UpdatePoolingInterval input = Some 30 ->
     ConfigHandler.ErrorCode (snd (ConfigHandler.Update env input h))
       <> Some ErrCodeValidation /\
     (no_fault env -> forall c, latest (db h) = Some c ->
      exists h' row,
        ConfigHandler.Update env input h = (h', ConfigHandler.response_Success None) /\
        db h' !! UUID c = Some row /\
        col_pooling_interval row = 30 /\ col_version row = Version c)).
Proof.
  split; [| split; [| split]].
  - intros input Hlt. unfold ConfigHandler.Create, ConfigHandler.binding_SaveCreate.
    replace (30 <=? CreatePoolingInterval input) with false by (symmetry; lia).
    rewrite andb_false_r. reflexivity.
  - intros input i Hi Hlt. unfold ConfigHandler.Update, ConfigHandler.binding_SaveUpdate.
    rewrite Hi. replace (30 <=? i) with false by (symmetry; lia). reflexivity.
  - intros input Hint Hurl.
    unfold ConfigHandler.Create, ConfigHandler.binding_SaveCreate.
    rewrite Hint, (is_empty_string_false _ Hurl). cbn [negb andb Z.leb Z.compare].
    cbn.
    split.
    + unfold Create, ConfigStore.GetLatestConfig, ConfigStore.Create, SetConfig.
      destruct (db_Get_fault env); [cbn; discriminate |].
      destruct (latest (db h));
        try rewrite IsNotFound_NotFound; cbn [negb UUID];
        (destruct (db_Write_fault env); [cbn; discriminate |]);
        (destruct (db h !! uuid_New env); [cbn; discriminate |]);
        (destruct (cache_Set_fault env); cbn; discriminate).
    + intros (Hget & Hwrite & Hcache) Hfresh.
      assert (Hrun : Create env input h
                = (mkHub (<[uuid_New env := to_row (created_config env input h)]> (db h))
                         (Some (created_config env input h)),
                   Ok (created_config env input h))).
      { unfold Create, created_config, ConfigStore.GetLatestConfig,
          ConfigStore.Create, SetConfig.
        rewrite Hget, Hwrite, Hcache.
        destruct (latest (db h));
          try rewrite IsNotFound_NotFound; cbn [negb UUID]; rewrite Hfresh;
          reflexivity. }
      rewrite Hrun. eexists. split; [reflexivity |]. cbn [db].
      split; [apply lookup_insert_eq | exact Hint].
  - intros input Hint.
    unfold ConfigHandler.Update, ConfigHandler.binding_SaveUpdate.
    rewrite Hint. cbn [Z.leb Z.compare negb].
    cbn.
    split.
    + unfold Update, ConfigStore.GetLatestConfig, ConfigStore.Update, SetConfig.
      destruct (db_Get_fault env); [cbn; discriminate |].
      destruct (latest (db h)); [| cbn; discriminate].
      rewrite Hint. cbn [Z.leb Z.compare].
      destruct (db_Write_fault env); [cbn; discriminate |].
      destruct (cache_Set_fault env); cbn; discriminate.
    + intros (Hget & Hwrite & Hcache) c Hc.
      unfold Update, ConfigStore.GetLatestConfig, ConfigStore.Update, SetConfig.
      rewrite Hget, Hc, Hint, Hwrite, Hcache. cbn [Z.leb Z.compare].
      destruct (is_empty_string (UpdateConfigUrl input)); cbn;
        eexists _, _; (split; [reflexivity |]); cbn;
        rewrite lookup_insert_eq; auto.
Qed.

(** The floor on [hub_v1]: intervals 29 are refused by both handlers and
    nothing changes; interval 30 is accepted by both. *)
Lemma interval_floor_witness :
  ConfigHandler.Create env_ok (mkSaveCreate "https://example.com/b" 29) hub_v1
    = (hub_v1, ConfigHandler.response_ValidationFailed) /\
  ConfigHandler.Update env_ok (mkSaveUpdate EmptyString (Some 29)) hub_v1
    = (hub_v1, ConfigHandler.response_ValidationFailed) /\
  ConfigHandler.Success
    (snd (ConfigHandler.Create env_ok (mkSaveCreate "https://example.com/b" 30) hub_v1))
    = true /\
  ConfigHandler.Success
    (snd (ConfigHandler.Update env_ok (mkSaveUpdate EmptyString (Some 30)) hub_v1))
    = true.
Proof.
  destruct (interval_floor env_ok hub_v1) as (Hc & Hu & Hc30 & Hu30).
  split; [| split; [| split]].
  - apply Hc. cbn. lia.
  - apply (Hu _ 29); [reflexivity | lia].
  - destruct (Hc30 (mkSaveCreate "https://example.com/b" 30)) as [_ Hok];
      [reflexivity | discriminate |].
    destruct Hok as (h' & -> & _); [repeat split | vm_compute; reflexivity |].
    reflexivity.
  - destruct (Hu30 (mkSaveUpdate EmptyString (Some 30))) as [_ Hok]; [reflexivity |].
    destruct (Hok ltac:(repeat split)
                (mkConfig "id-1" 1 "https://example.com/a" 30 "2024-01-01T00:00:00Z"))
      as (h' & row & -> & _); [vm_compute; reflexivity |].
    reflexivity.
Defined.

End HubProperties.

(* ===================================================================== *)
(** * Properties of the relay *)
(* ===================================================================== *)

Module RelayProperties.
Import GoInt GoProperties ConfigStore Agent RelaySpec.

(** ** The polling loop *)

Lemma seconds_to_duration i :
  0 < i <= MaxSeconds -> mul64 i Second = i * Second /\ 0 < i * Second.
Proof.
  unfold MaxSeconds, Second. intros Hi. split; [| lia].
  unfold mul64. apply wrap64_small.
  unfold in_int64, MinInt64, MaxInt64. lia.
Qed.

(** The address a fetch returns differs from every address in use. *)
Lemma changed_fresh (st : state) count :
  (lastConfig st < length (heap st))%nat ->
  changed (length (heap st)) (lastConfig st) count = true.
Proof.
  intros Hlt. unfold changed.
  replace (Nat.eqb (length (heap st)) (lastConfig st)) with false; [reflexivity |].
  symmetry. apply Nat.eqb_neq. lia.
Qed.

Lemma pushes_app tr1 tr2 : pushes (tr1 ++ tr2) = pushes tr1 || pushes tr2.
Proof. unfold pushes. apply existsb_app. Qed.

(** The cycle, case by case, when the fetch succeeds. *)
Lemma tick_fetched (st : state) cfg ok :
  let st1 := fst (fst (fetchConfigFromController cfg st)) in
  let tr := snd (fetchConfigFromController cfg st) in
  let count := add64 (countFetch st) 1 in
  let newInterval := mul64 (PoolingInterval cfg) Second in
  tick (mkAnswers (Some cfg) ok) st =
    if changed (length (heap st)) (lastConfig st) count then
      if negb (newInterval =? interval st) then
        if newInterval <=? 0 then Panic (tr ++ [Pushed cfg ok])
        else Continue (mkState (heap st ++ [cfg]) (length (heap st)) newInterval 0
                               (version st) (configFile st1))
                      ((tr ++ [Pushed cfg ok]) ++ [TickerReset newInterval])
      else Continue (mkState (heap st ++ [cfg]) (length (heap st)) (interval st) 0
                             (version st) (configFile st1))
                    (tr ++ [Pushed cfg ok])
    else Continue (mkState (heap st ++ [cfg]) (lastConfig st) (interval st) count
                           (version st) (configFile st1))
                  (tr ++ [Unchanged]).
Proof. reflexivity. Qed.

Lemma fetch_trace_no_push cfg st :
  pushes (snd (fetchConfigFromController cfg st)) = false.
Proof.
  unfold fetchConfigFromController. cbn [snd].
  destruct ((version st =? 0) || (version st <? Version cfg)); reflexivity.
Qed.

(** A cycle pushes exactly when the condition of the loop holds. *)
Lemma tick_pushes (st : state) cfg ok :
  pushes (trace_of (tick (mkAnswers (Some cfg) ok) st))
  = changed (length (heap st)) (lastConfig st) (add64 (countFetch st) 1).
Proof.
  rewrite tick_fetched. pose proof (fetch_trace_no_push cfg st) as Hno.
  destruct (changed _ _ _).
  - destruct (negb _); [destruct (_ <=? 0) |]; cbn [trace_of];
      rewrite !pushes_app; cbn; rewrite ?orb_true_r; reflexivity.
  - cbn [trace_of]. rewrite pushes_app, Hno. reflexivity.
Qed.

(** C1 fails on the code: in every cycle whose fetch succeeds the relay
    pushes, whatever the versions and the counter, because the loop compares
    the address of the fetched configuration, always a new one, with the
    address of the last one. *)
Theorem tick_pushes_on_every_fetch (st : state) (cfg : Config) (ok : bool) :
  (lastConfig st < length (heap st))%nat ->
  pushes (trace_of (tick (mkAnswers (Some cfg) ok) st)) = true.
Proof.
  intros Hlt. rewrite tick_pushes. apply changed_fresh, Hlt.
Qed.

(** Scenario B at its first unchanged poll: the fetched configuration is
    version 1 again and the counter only reaches 1, so no push is due, and
    yet the relay pushes. *)
Lemma tick_pushes_on_every_fetch_witness :
  last_applied relay_v1 = Some cfg_v1 /\
  should_push cfg_v1 cfg_v1 (add64 (countFetch relay_v1) 1) = false /\
  pushes (trace_of (tick (mkAnswers (Some cfg_v1) true) relay_v1)) = true.
Proof.
  split; [reflexivity | split; [reflexivity |]].
  apply tick_pushes_on_every_fetch. cbn. lia.
Defined.

(** C2 (as amended).  In a polling cycle in which the relay attempts a
    push, the last applied configuration becomes the fetched one and the
    counter is reset, whether the push succeeds or fails. *)
Theorem tick_last_applied_after_push (st st' : state) (cfg : Config) (ok : bool)
    (tr : list event) :
  tick (mkAnswers (Some cfg) ok) st = Continue st' tr ->
  pushes tr = true ->
  last_applied st' = Some cfg /\ countFetch st' = 0.
Proof.
  intros Htick Hpush.
  assert (Hchanged : changed (length (heap st)) (lastConfig st)
                             (add64 (countFetch st) 1) = true).
  { rewrite <- tick_pushes with (cfg := cfg) (ok := ok). rewrite Htick. exact Hpush. }
  rewrite tick_fetched, Hchanged in Htick. unfold last_applied.
  destruct (negb _); [destruct (_ <=? 0); [discriminate |] |];
    injection Htick as <- _; cbn [heap lastConfig countFetch];
    (split; [| reflexivity]); by apply list_lookup_middle.
Qed.

(** The amended C2 on a failed push of version 2. *)
Lemma tick_last_applied_after_push_witness :
  exists st' tr,
    tick (mkAnswers (Some cfg_v2) false) relay_v1 = Continue st' tr /\
    last_applied st' = Some cfg_v2 /\ countFetch st' = 0.
Proof.
  eexists _, _. split; [reflexivity |].
  eapply (tick_last_applied_after_push relay_v1 _ cfg_v2 false); reflexivity.
Defined.

(** C2 fails as stated: the relay has applied version 1, fetches version 2,
    and the push fails; after the cycle the last applied configuration is
    version 2, not the old value. *)
Lemma tick_push_failure_counterexample :
  exists st',
    tick (mkAnswers (Some cfg_v2) false) relay_v1
      = Continue st' [WroteConfigFile cfg_v2; Pushed cfg_v2 false;
                      TickerReset (60 * Second)] /\
    last_applied relay_v1 = Some cfg_v1 /\
    last_applied st' = Some cfg_v2 /\
    last_applied st' <> last_applied relay_v1.
Proof.
  eexists. split; [reflexivity |].
  split; [reflexivity | split; [reflexivity | discriminate]].
Qed.

(** C6 (as amended).  In a polling cycle in which the relay attempts a push
    of a configuration whose interval, as a duration, differs from the
    current one, what follows the attempt does not depend on whether the
    push succeeded or failed: the duration is the fetched number of seconds
    times 10^9, computed in 64 bits with wrap-around, so it is the fetched
    interval itself when that is positive and at most [MaxSeconds]; when
    the duration is positive the relay resets its ticker to it right after
    the attempt and polls at it from then on; when it is not, the reset
    panics right after the attempt. *)
Theorem tick_resets_ticker_after_push_attempt (st : state) (cfg : Config) (ok : bool) :
  let newInterval := mul64 (PoolingInterval cfg) Second in
  newInterval <> interval st ->
  pushes (trace_of (tick (mkAnswers (Some cfg) ok) st)) = true ->
  (0 < PoolingInterval cfg <= MaxSeconds ->
   newInterval = PoolingInterval cfg * Second /\ 0 < newInterval) /\
  (0 < newInterval ->
   exists st' tr0,
     tick (mkAnswers (Some cfg) ok) st
       = Continue st' (tr0 ++ [Pushed cfg ok; TickerReset newInterval]) /\
     pushes tr0 = false /\
     interval st' = newInterval) /\
  (newInterval <= 0 ->
   exists tr0,
     tick (mkAnswers (Some cfg) ok) st = Panic (tr0 ++ [Pushed cfg ok]) /\
     pushes tr0 = false).
Proof.
  intros newInterval Hne. rewrite tick_pushes, tick_fetched. cbv zeta.
  fold newInterval. intros Hchanged. rewrite Hchanged.
  replace (newInterval =? interval st) with false by (symmetry; by apply Z.eqb_neq).
  cbn [negb]. split; [| split].
  - intros Hrange. destruct (seconds_to_duration _ Hrange) as [Hmul Hpos].
    subst newInterval. rewrite Hmul. by split.
  - intros Hpos. replace (newInterval <=? 0) with false by (symmetry; lia).
    eexists _, (snd (fetchConfigFromController cfg st)).
    split; [rewrite <- app_assoc; reflexivity |].
    split; [apply fetch_trace_no_push | reflexivity].
  - intros Hneg. replace (newInterval <=? 0) with true by (symmetry; lia).
    exists (snd (fetchConfigFromController cfg st)).
    split; [reflexivity | apply fetch_trace_no_push].
Qed.

(** Scenario C with a failing push: the interval goes from 30 s to 60 s. *)
Lemma tick_resets_ticker_after_push_attempt_witness :
  exists st' tr0,
    tick (mkAnswers (Some cfg_v2) false) relay_v1
      = Continue st' (tr0 ++ [Pushed cfg_v2 false;
                              TickerReset (PoolingInterval cfg_v2 * Second)]) /\
    pushes tr0 = false /\
    interval st' = PoolingInterval cfg_v2 * Second.
Proof.
  destruct (tick_resets_ticker_after_push_attempt relay_v1 cfg_v2 false)
    as (_ & Hreset & _).
  - vm_compute. discriminate.
  - reflexivity.
  - apply Hreset. vm_compute. reflexivity.
Defined.

(** Intervals the hub's floor lets through and a [time.Duration] does not
    hold: the first wraps to a duration that is not positive, the second to
    290448384 ns. *)
Example wrapped_intervals :
  ConfigHandler.binding_SaveCreate
    (ConfigUsecase.mkSaveCreate "https://example.com/a" 9223372037) = true /\
  mul64 9223372037 Second = -9223372036709551616 /\
  ConfigHandler.binding_SaveCreate
    (ConfigUsecase.mkSaveCreate "https://example.com/a" 18446744074) = true /\
  mul64 18446744074 Second = 290448384.
Proof. vm_compute. repeat split. Qed.

(** C6 fails as stated: the push of version 2 fails and the ticker is reset
    to 60 s all the same. *)
Lemma tick_reset_without_push_counterexample :
  exists st',
    tick (mkAnswers (Some cfg_v2) false) relay_v1
      = Continue st' [WroteConfigFile cfg_v2; Pushed cfg_v2 false;
                      TickerReset (60 * Second)] /\
    interval relay_v1 = 30 * Second /\
    interval st' = 60 * Second.
Proof.
  eexists. split; [reflexivity |]. split; reflexivity.
Qed.

(** ** The other implementations of the relay *)

(** The scheduler of internal/agent decides by version: it hands a fetched
    configuration on exactly when it holds none or the fetched version is
    greater than the one it holds (unless the new ticker cannot be made). *)
Lemma fetchConfig_updates_iff_newer (st st' : Scheduler.state) (newConfig : Config)
    (tr : list Scheduler.event) :
  Scheduler.fetchConfig (Some newConfig) true st = Scheduler.Continue st' tr ->
  In (Scheduler.ConfigUpdate newConfig) tr
  <-> match Scheduler.currentConfig st with
      | None => True
      | Some cur => Version cur < Version newConfig
      end.
Proof.
  unfold Scheduler.fetchConfig.
  destruct (Scheduler.currentConfig st) as [cur |].
  - destruct (Version cur <? Version newConfig) eqn:E.
    + destruct (negb _); [destruct (Scheduler.updateInterval _ _); [| discriminate] |];
        intros [= <- <-]; cbn; split; intros _; try lia; auto.
    + intros [= <- <-]. cbn. split; [intros [H | []]; discriminate | lia].
  - intros [= <- <-]. cbn. split; auto.
Qed.

(** The scheduler too changes its period before the configuration is
    handed on, and independently of what becomes of it. *)
Lemma fetchConfig_interval_first (cur newConfig : Config) (t : option Z) :
  Version cur < Version newConfig ->
  PoolingInterval cur <> PoolingInterval newConfig ->
  0 < PoolingInterval newConfig <= MaxSeconds ->
  Scheduler.fetchConfig (Some newConfig) true (Scheduler.mkState (Some cur) t)
  = Scheduler.Continue
      (Scheduler.mkState (Some newConfig) (Some (PoolingInterval newConfig * Second)))
      [Scheduler.IntervalUpdated (PoolingInterval newConfig);
       Scheduler.ConfigUpdate newConfig].
Proof.
  intros Hv Hi Hrange. destruct (seconds_to_duration _ Hrange) as [Hmul Hpos].
  unfold Scheduler.fetchConfig, Scheduler.updateInterval.
  cbn [Scheduler.currentConfig].
  replace (Version cur <? Version newConfig) with true by (symmetry; lia).
  replace (PoolingInterval cur =? PoolingInterval newConfig) with false
    by (symmetry; lia).
  cbn [negb]. rewrite Hmul.
  replace (PoolingInterval newConfig * Second <=? 0) with false by (symmetry; lia).
  reflexivity.
Qed.

(** The version checker pushes exactly on a greater remote version, and
    records that version whether the push succeeds or fails. *)
Lemma checkVersion_pushes_iff_newer (remote current : Z) (cfg : Config) (ok cb : bool) :
  let a := VersionChecker.mkAnswers (Some remote) (Some cfg) ok in
  (In (VersionChecker.Pushed cfg ok) (snd (VersionChecker.checkVersion a cb current))
   <-> current < remote) /\
  (current < remote -> fst (VersionChecker.checkVersion a cb current) = remote).
Proof.
  unfold VersionChecker.checkVersion. cbn.
  destruct (current <? remote) eqn:E.
  - split; [| destruct ok; reflexivity].
    split; [lia |]. intros _. destruct ok; cbn; auto.
  - split; [| lia]. cbn. split; [intros [H | []]; discriminate | lia].
Qed.

End RelayProperties.

(* ===================================================================== *)
(** * Properties of the leaf *)
(* ===================================================================== *)

Module LeafProperties.
Import GoInt GoProperties Errors Worker LeafSpec.

(** While a configuration is held the lock is free between requests. *)
Lemma held_config_unlocked st :
  reachable st -> is_Some (globalConfig st) -> configMutex st = false.
Proof.
  induction 1 as [| st JSON unmarshal http Hst IH | st req Hst IH].
  - intros [c Hc]. discriminate.
  - unfold Hit. destruct (configMutex st) eqn:Hm; cbn [state_after].
    { intros Hs. rewrite Hm. exact (IH Hs). }
    destruct (globalConfig st) as [held |] eqn:Hg.
    + destruct (is_empty_string _); cbn [state_after]; [intros _; exact Hm |].
      destruct (http _); cbn [state_after]; try (intros _; exact Hm).
      destruct (unmarshal _); cbn [state_after]; intros _; exact Hm.
    + cbn. intros [c Hc]. discriminate.
  - unfold HandleUpdateConfig, UpdateConfig.
    destruct (negb _); cbn [state_after]; [exact IH |].
    destruct (configMutex st) eqn:Hm; cbn [state_after].
    { intros Hs. rewrite Hm. exact (IH Hs). }
    reflexivity.
Qed.

(** C5.  The leaf's apply overwrites the held configuration with the pushed
    one, all fields at once, without looking at versions: whenever the lock
    is free, and so whenever a configuration is held, [UpdateConfig] returns
    no error and leaves exactly the pushed configuration, also when its
    version is lower than the held one; the handler accepts every push that
    passes the binding. *)
Theorem UpdateConfig_unconditional (st : state) (req : UpdateConfigRequest) :
  (configMutex st = false ->
   UpdateConfig req st = Returns (mkState (Some (config_of req)) false) None) /\
  (reachable st ->
   forall held, globalConfig st = Some held ->
     UpdateConfig req st = Returns (mkState (Some (config_of req)) false) None /\
     (binding_UpdateConfigRequest req = true ->
      HandleUpdateConfig req st
        = Returns (mkState (Some (config_of req)) false) (Updated (ReqVersion req))) /\
     (ReqVersion req < Version held ->
      globalConfig (state_after (UpdateConfig req st) st) = Some (config_of req) /\
      Version (config_of req) < Version held)).
Proof.
  assert (Hfree : configMutex st = false ->
                  UpdateConfig req st = Returns (mkState (Some (config_of req)) false) None).
  { intros Hm. unfold UpdateConfig. rewrite Hm. reflexivity. }
  split; [exact Hfree |].
  intros Hst held Hheld.
  assert (Hm : configMutex st = false).
  { apply held_config_unlocked; [exact Hst | rewrite Hheld; eauto]. }
  split; [exact (Hfree Hm) |]. split.
  - intros Hb. unfold HandleUpdateConfig. rewrite Hb, (Hfree Hm). reflexivity.
  - intros Hlt. rewrite (Hfree Hm). cbn [state_after globalConfig]. split; [reflexivity |].
    exact Hlt.
Qed.

Lemma held_v5_reachable : reachable held_v5.
Proof.
  exact (reachable_UpdateConfig (mkState None false)
           (mkRequest "https://example.com/b" 60 5 "id-5") reachable_start).
Qed.

Lemma UpdateConfig_unconditional_witness :
  HandleUpdateConfig push_v3 held_v5
    = Returns (mkState (Some (mkWorkerConfig "https://example.com/a" 30 3 "id-3")) false)
              (Updated 3) /\
  globalConfig (state_after (UpdateConfig push_v3 held_v5) held_v5)
    = Some (mkWorkerConfig "https://example.com/a" 30 3 "id-3").
Proof.
  destruct (proj2 (UpdateConfig_unconditional held_v5 push_v3) held_v5_reachable
              (mkWorkerConfig "https://example.com/b" 60 5 "id-5") eq_refl)
    as (_ & Hhandler & Hlower).
  split.
  - apply Hhandler. reflexivity.
  - apply Hlower. cbn. lia.
Defined.

(** C9 fails on the code: whenever the request to the held target is
    answered, [Hit] returns the body as it is, a string, whether
    [json.Unmarshal] decodes it or not; the decoded value is dropped. *)
Theorem Hit_returns_raw_body (JSON : Type) (json_Unmarshal : string -> option JSON)
    (http : string -> http_result) (st : state) (held : WorkerConfig)
    (status : Z) (body : string) :
  configMutex st = false ->
  globalConfig st = Some held ->
  ConfigURL held <> EmptyString ->
  http (ConfigURL held) = Body status body ->
  Hit JSON json_Unmarshal http st = Returns st (Ok (RawText body)).
Proof.
  intros Hm Hheld Hurl Hhttp. unfold Hit.
  rewrite Hm, Hheld, (is_empty_string_false _ Hurl), Hhttp.
  destruct (json_Unmarshal body); reflexivity.
Qed.

(** The target answers with the JSON text [true]: it decodes, and [Hit]
    returns the string all the same. *)
Lemma Hit_returns_raw_body_witness :
  decode_literal "true" = Some JTrue /\
  Hit literal decode_literal (fun _ => Body 200 "true") held_v5
    = Returns held_v5 (Ok (RawText "true")).
Proof.
  split; [reflexivity |].
  apply (Hit_returns_raw_body literal decode_literal (fun _ => Body 200 "true")
           held_v5 (mkWorkerConfig "https://example.com/b" 60 5 "id-5") 200 "true");
    [reflexivity | reflexivity | discriminate | reflexivity].
Defined.

End LeafProperties.

(* ===================================================================== *)
(** * pkg/errors: properties of the classification *)
(* ===================================================================== *)

Module ErrorsEdgeProperties.
Import GoInt Errors ErrorsEdge.

Lemma eq_fold_length a : forall b,
  eq_fold a b = true -> String.length a = String.length b.
Proof.
  induction a as [| x a IH]; intros [| y b]; cbn; try discriminate; auto.
  intros [_ H]%andb_prop. f_equal. exact (IH _ H).
Qed.

Lemma eq_fold_refl a : eq_fold a a = true.
Proof. induction a as [| x a IH]; cbn; [reflexivity |]. by rewrite Z.eqb_refl. Qed.

Lemma length_append (a b : string) :
  String.length (a ++ b) = (String.length a + String.length b)%nat.
Proof.
  induction a as [| x a IH]; [reflexivity |].
  change (String x a ++ b)%string with (String x (a ++ b)). cbn. by rewrite IH.
Qed.

(** The comparison of two bytes in the inner loop. *)
Lemma byte_mismatch c1 c2 :
  negb (Ascii.eqb c1 c2) && negb (or32 c1 =? or32 c2) = negb (or32 c1 =? or32 c2).
Proof.
  destruct (Ascii.eqb c1 c2) eqn:E; [| reflexivity].
  apply Ascii.eqb_eq in E. subst. by rewrite Z.eqb_refl.
Qed.

Lemma match_at_spec s : forall substr,
  match_at s substr = true <->
  exists mid post, s = (mid ++ post)%string /\ eq_fold mid substr = true.
Proof.
  induction s as [| c1 s IH]; intros [| c2 substr]; cbn [match_at].
  - split; [intros _; by exists EmptyString, EmptyString | done].
  - split; [discriminate |].
    intros (mid & post & Hs & Hm). destruct mid; cbn in Hm; [discriminate |].
    discriminate.
  - split; [intros _; by exists EmptyString, (String c1 s) | done].
  - rewrite byte_mismatch. destruct (or32 c1 =? or32 c2) eqn:E; cbn [negb].
    + rewrite IH. split.
      * intros (mid & post & -> & Hm). exists (String c1 mid), post.
        split; [reflexivity |]. cbn. by rewrite E.
      * intros (mid & post & Hs & Hm). destruct mid as [| x mid]; [discriminate |].
        change (String x mid ++ post)%string with (String x (mid ++ post)) in Hs.
        injection Hs as -> ->. cbn in Hm. apply andb_prop in Hm as [_ Hm].
        by exists mid, post.
    + split; [discriminate |].
      intros (mid & post & Hs & Hm). destruct mid as [| x mid]; [discriminate |].
      change (String x mid ++ post)%string with (String x (mid ++ post)) in Hs.
      injection Hs as -> ->. cbn in Hm. rewrite E in Hm. discriminate.
Qed.

Lemma containsIgnoreCaseSlow_unfold s substr :
  containsIgnoreCaseSlow s substr =
  if (String.length s <? String.length substr)%nat then false
  else if match_at s substr then true
  else match s with
       | EmptyString => false
       | String _ s' => containsIgnoreCaseSlow s' substr
       end.
Proof. destruct s; reflexivity. Qed.

(** The loops of [containsIgnoreCaseSlow] find an occurrence of [substr]
    at some index, bytes compared up to bit 5. *)
Lemma containsIgnoreCaseSlow_spec s substr :
  containsIgnoreCaseSlow s substr = true <-> occurs_fold substr s.
Proof.
  split.
  - induction s as [| c s IH]; rewrite containsIgnoreCaseSlow_unfold.
    + destruct (_ <? _)%nat; [discriminate |].
      destruct (match_at _ _) eqn:Hm; [| discriminate].
      intros _. apply match_at_spec in Hm as (mid & post & Hs & Hm).
      by exists EmptyString, mid, post.
    + destruct (_ <? _)%nat; [discriminate |].
      destruct (match_at _ _) eqn:Hm.
      * intros _. apply match_at_spec in Hm as (mid & post & Hs & Hm).
        by exists EmptyString, mid, post.
      * intros (pre & mid & post & -> & Hmid)%IH.
        by exists (String c pre), mid, post.
  - intros (pre & mid & post & -> & Hmid).
    induction pre as [| c pre IH]; rewrite containsIgnoreCaseSlow_unfold.
    + change (EmptyString ++ mid ++ post)%string with (mid ++ post)%string.
      pose proof (eq_fold_length _ _ Hmid) as Hlen.
      destruct (_ <? _)%nat eqn:Hlt.
      { apply Nat.ltb_lt in Hlt. rewrite length_append in Hlt. lia. }
      assert (match_at (mid ++ post) substr = true) as ->; [| reflexivity].
      apply match_at_spec. by exists mid, post.
    + change (String c pre ++ mid ++ post)%string
        with (String c (pre ++ mid ++ post)).
      pose proof (eq_fold_length _ _ Hmid) as Hlen.
      destruct (_ <? _)%nat eqn:Hlt.
      { apply Nat.ltb_lt in Hlt. cbn in Hlt. rewrite !length_append in Hlt. lia. }
      destruct (match_at _ _); [reflexivity | exact IH].
Qed.

Lemma occurs_fold_length substr s :
  occurs_fold substr s -> (String.length substr <= String.length s)%nat.
Proof.
  intros (pre & mid & post & -> & Hmid). apply eq_fold_length in Hmid.
  rewrite !length_append. lia.
Qed.

Lemma occurs_fold_refl s : occurs_fold s s.
Proof.
  exists EmptyString, s, EmptyString. split; [| apply eq_fold_refl].
  change (EmptyString ++ s ++ EmptyString)%string with (s ++ EmptyString)%string.
  induction s as [| c s IH]; [reflexivity |].
  change (String c s ++ EmptyString)%string with (String c (s ++ EmptyString)).
  by rewrite <- IH.
Qed.

(** What a positive answer of [containsIgnoreCase] means. *)
Lemma containsIgnoreCase_true s substr :
  containsIgnoreCase s substr = true ->
  s = substr \/
  (substr <> EmptyString /\ first_is_letter s = true /\ occurs_fold substr s).
Proof.
  unfold containsIgnoreCase.
  intros [Hlen H]%andb_prop. apply orb_prop in H as [H | H].
  - left. by apply String.eqb_eq.
  - right. apply andb_prop in H as [H Hslow]. apply andb_prop in H as [H Hletter].
    apply andb_prop in H as [_ Hsub].
    split; [| split; [exact Hletter | by apply containsIgnoreCaseSlow_spec]].
    intros ->. discriminate.
Qed.

(** An occurrence in a text that starts with a letter is found. *)
Lemma containsIgnoreCase_occurs s substr :
  substr <> EmptyString -> first_is_letter s = true -> occurs_fold substr s ->
  containsIgnoreCase s substr = true.
Proof.
  intros Hne Hletter Hocc. unfold containsIgnoreCase.
  pose proof (occurs_fold_length _ _ Hocc) as Hlen.
  apply Nat.leb_le in Hlen as ->.
  apply containsIgnoreCaseSlow_spec in Hocc as ->. rewrite Hletter.
  destruct substr as [| c substr]; [done |].
  destruct s as [| c' s]; [discriminate |].
  cbn. by rewrite orb_true_r.
Qed.

Lemma containsIgnoreCase_refl s : containsIgnoreCase s s = true.
Proof. unfold containsIgnoreCase. by rewrite Nat.leb_refl, String.eqb_refl. Qed.

(** X1.  [containsIgnoreCase s substr] holds exactly when the two texts are
    equal, or [substr] is not empty, the first byte of [s] is a letter and
    [substr] occurs in [s] at some index, bytes being compared up to bit 5
    (the bit that separates the two cases of a letter).  So a text whose
    first byte is not a letter contains nothing but itself, and the empty
    text is contained in the empty text only. *)
Theorem containsIgnoreCase_spec (s substr : string) :
  containsIgnoreCase s substr = true <->
  s = substr \/
  (substr <> EmptyString /\ first_is_letter s = true /\ occurs_fold substr s).
Proof.
  split.
  - apply containsIgnoreCase_true.
  - intros [-> | (Hne & Hletter & Hocc)].
    + apply containsIgnoreCase_refl.
    + by apply containsIgnoreCase_occurs.
Qed.

Lemma existsb_containsIgnoreCase msg :
  existsb (containsIgnoreCase msg) retryablePatterns = true <->
  first_is_letter msg = true /\
  exists pattern, In pattern retryablePatterns /\ occurs_fold pattern msg.
Proof.
  rewrite existsb_exists. split.
  - intros (p & Hin & Hc). apply containsIgnoreCase_true in Hc as [-> | (_ & Hl & Ho)].
    + split; [| exists p; split; [exact Hin | apply occurs_fold_refl]].
      cbn in Hin. repeat (destruct Hin as [<- | Hin]; [reflexivity |]). done.
    + split; [exact Hl | by exists p].
  - intros (Hl & p & Hin & Ho). exists p. split; [exact Hin |].
    apply containsIgnoreCase_occurs; [| done | done].
    cbn in Hin. repeat (destruct Hin as [<- | Hin]; [discriminate |]). done.
Qed.

Lemma retryableCodes_In code :
  retryableCodes code = true <->
  In code [ErrCodeExternalService; ErrCodeTimeout; ErrCodeRateLimit; ErrCodeDBError].
Proof.
  unfold retryableCodes. rewrite !orb_true_iff, !String.eqb_eq. cbn [In].
  intuition congruence.
Qed.

(** X2.  [IsRetryable] classifies an error by the first [AppError] on its
    chain of [Unwrap], the error itself or one it wraps, as [fmt.Errorf]
    does with [%w]: the error is retryable exactly when the code of that
    [AppError] is one of the four retryable codes, whatever lies below it
    and whatever the messages say.  When the chain holds no [AppError], the
    error is retryable exactly when its message starts with a letter and
    one of the nine patterns occurs in it (bytes compared up to bit 5); a
    message starting with a digit, a bracket or a space is never
    retryable.  Nil is not retryable. *)
Theorem IsRetryable_spec :
  (forall w,
     IsRetryable_chain w = true <->
     match As_chain w with
     | Some (code, _, _) =>
         In code [ErrCodeExternalService; ErrCodeTimeout; ErrCodeRateLimit;
                  ErrCodeDBError]
     | None =>
         first_is_letter (Error_chain w) = true /\
         exists pattern, In pattern retryablePatterns /\
                         occurs_fold pattern (Error_chain w)
     end) /\
  (forall e, IsRetryable_chain (Direct e) = IsRetryable (Some e)) /\
  (forall text inner code message status cause,
     As_chain (Errorf text inner) = As_chain inner /\
     As_chain (Direct (AppError code message status cause))
     = Some (code, message, status) /\
     As_chain (Direct (RawError message)) = None) /\
  (forall msg,
     IsRetryable (Some (RawError msg)) = true <->
     first_is_letter msg = true /\
     exists pattern, In pattern retryablePatterns /\ occurs_fold pattern msg) /\
  (forall code message status cause,
     IsRetryable (Some (AppError code message status cause)) = true <->
     In code [ErrCodeExternalService; ErrCodeTimeout; ErrCodeRateLimit; ErrCodeDBError]) /\
  IsRetryable None = false.
Proof.
  split; [| split; [| split; [| split; [| split; [| reflexivity]]]]].
  - intros w. unfold IsRetryable_chain.
    destruct (As_chain w) as [[[code message] status] |].
    + apply retryableCodes_In.
    + apply existsb_containsIgnoreCase.
  - intros e. reflexivity.
  - intros. repeat split.
  - intros msg. cbn [IsRetryable As Error]. apply existsb_containsIgnoreCase.
  - intros code message status cause. cbn [IsRetryable As]. apply retryableCodes_In.
Qed.

Example IsRetryable_messages :
  IsRetryable (Some (RawError "dial tcp 10.0.0.5:5432: connect: Connection Refused")) = true /\
  IsRetryable (Some (RawError "[::1]:6379: connection refused")) = false /\
  IsRetryable (Some (RawError "503 service unavailable")) = false /\
  IsRetryable (Some (Database (RawError "duplicate key value"))) = true /\
  IsRetryable (Some (Wrap (RawError "connection refused") "config" "failed to get config"))
  = false /\
  IsRetryable_chain
    (Errorf "wrapped: ERR_DATABASE: Database operation failed (duplicate key value)"
            (Direct (Database (RawError "duplicate key value")))) = true /\
  IsRetryable_chain
    (Errorf "wrapped: ERR_NOT_FOUND: timeout not found" (Direct (NotFound "timeout")))
  = false.
Proof. vm_compute. repeat split. Qed.

(** [Wrap] hides what it wraps from every classifier: the result has
    status 500 and counts as a server error, it is "not found" only if the
    code given to [Wrap] is [ERR_NOT_FOUND], and retryable only if that
    code is a retryable one; a wrapped [NotFound] is no longer "not found"
    and no longer a 404. *)
Lemma Wrap_hides_cause (err : error) (code message : string) :
  GetHTTPStatus (Some (Wrap err code message)) = StatusInternalServerError /\
  IsServerError (Some (Wrap err code message)) = true /\
  IsClientError (Some (Wrap err code message)) = false /\
  IsNotFound (Some (Wrap err code message)) = String.eqb code ErrCodeNotFound /\
  IsRetryable (Some (Wrap err code message)) = retryableCodes code /\
  (forall resource,
     IsNotFound (Some (NotFound resource)) = true /\
     GetHTTPStatus (Some (NotFound resource)) = StatusNotFound /\
     IsClientError (Some (NotFound resource)) = true /\
     IsNotFound (Some (Wrap (NotFound resource) ErrCodeInternal message)) = false).
Proof. repeat split. Qed.

End ErrorsEdgeProperties.
(* ===================================================================== *)
(** * pkg/response: properties of the pagination *)
(* ===================================================================== *)

Module PaginationProperties.
Import GoInt GoProperties Pagination.

(** X3.  For a total that is not negative, [Paginated] reports a
    positive page size (10 when the one given is not positive), a page of
    at least 1, and as total pages the least number of pages of that size
    that hold all items: none for no item, and otherwise pages whose last
    one is not empty. *)
Theorem Paginated_total_pages (page pageSize total : Z) :
  0 <= total <= MaxInt64 ->
  let m := Paginated page pageSize total in
  0 < PageSize m /\
  PageSize m = (if pageSize <=? 0 then 10 else pageSize) /\
  1 <= Page m /\
  TotalItems m = total /\
  0 <= TotalPages m /\
  total <= TotalPages m * PageSize m < total + PageSize m.
Proof.
  intros Htotal. unfold Paginated. cbn [PageSize Page TotalItems TotalPages].
  set (ps := if pageSize <=? 0 then 10 else pageSize).
  assert (0 < ps) as Hps by (subst ps; destruct (Z.leb_spec pageSize 0); lia).
  rewrite Z.quot_div_nonneg, Z.rem_mod_nonneg by lia.
  pose proof (Z.div_mod total ps ltac:(lia)) as Hdm.
  pose proof (Z.mod_pos_bound total ps Hps) as Hmod.
  assert (0 <= total / ps) as Hq0 by (apply Z.div_pos; lia).
  assert (total / ps <= ps * (total / ps)) as Hq1.
  { rewrite <- (Z.mul_1_l (total / ps)) at 1. apply Z.mul_le_mono_nonneg_r; lia. }
  split; [exact Hps |]. split; [reflexivity |].
  split; [destruct (Z.leb_spec page 0); lia |]. split; [reflexivity |].
  destruct (Z.ltb_spec 0 (total mod ps)) as [Hr | Hr].
  - unfold add64. rewrite wrap64_small by (unfold in_int64, MinInt64, MaxInt64 in *; lia).
    nia.
  - nia.
Qed.

Lemma Paginated_total_pages_witness :
  let m := Paginated 0 0 25 in
  0 < PageSize m /\
  PageSize m = 10 /\
  1 <= Page m /\
  TotalItems m = 25 /\
  0 <= TotalPages m /\
  25 <= TotalPages m * PageSize m < 25 + PageSize m.
Proof.
  apply (Paginated_total_pages 0 0 25). unfold MaxInt64. lia.
Defined.

End PaginationProperties.
(* ===================================================================== *)
(** * pkg/crypto: what a valid answer of Verify means *)
(* ===================================================================== *)

Module VerifyProperties.
Import GoInt GoProperties Crypto CryptoProperties CryptoSpec.

(** X4.  [Verify] answers valid exactly when the signed text has two
    parts separated by a dot, both parts are base64, and the second part
    decodes to the HMAC-SHA256, under the secret, of what the first part
    decodes to; the text it returns is then the decoded first part.  It
    never answers valid together with an error, and the text of every
    answer that is not valid is empty. *)
Theorem Verify_valid_iff (signedText secretKey text : string) :
  (Verify signedText secretKey = (true, text, None) <->
   exists part0 part1,
     Split signedText "."%char = [part0; part1] /\
     DecodeString part0 = Some (list_ascii_of_string text) /\
     DecodeString part1
     = Some (hmac_sha256 (list_ascii_of_string secretKey) (list_ascii_of_string text))) /\
  (forall e, Verify signedText secretKey <> (true, text, Some e)) /\
  (forall e, Verify signedText secretKey = (false, text, e) -> text = EmptyString).
Proof.
  unfold Verify. split; [split | split].
  - destruct (Split signedText ".") as [| p0 [| p1 [| p2 ps]]]; try discriminate.
    destruct (DecodeString p0) as [t |] eqn:H0; [| discriminate].
    destruct (DecodeString p1) as [g |] eqn:H1; [| discriminate].
    destruct (hmac_equal g _) eqn:E; cbn [negb]; [| discriminate].
    intros [= <-]. apply hmac_equal_spec in E. subst g.
    exists p0, p1. rewrite H0, H1, !list_ascii_of_string_of_list_ascii. repeat split.
  - intros (p0 & p1 & -> & -> & ->).
    rewrite string_of_list_ascii_of_string, hmac_equal_refl. reflexivity.
  - intros e.
    destruct (Split signedText ".") as [| p0 [| p1 [| p2 ps]]]; try discriminate.
    destruct (DecodeString p0) as [t |]; [| discriminate].
    destruct (DecodeString p1) as [g |]; [| discriminate].
    destruct (negb _); discriminate.
  - intros e.
    destruct (Split signedText ".") as [| p0 [| p1 [| p2 ps]]];
      try (intros [= <-]; reflexivity).
    destruct (DecodeString p0) as [t |]; [| intros [= <-]; reflexivity].
    destruct (DecodeString p1) as [g |]; [| intros [= <-]; reflexivity].
    destruct (negb _); [intros [= <-]; reflexivity | discriminate].
Qed.


(** X5.  [Verify] does not see carriage returns and line feeds: two
    signed texts whose parts agree once line breaks are removed get the
    same answer under every secret, so a signed text is not the only text
    that verifies to its identity. *)
Theorem Verify_ignores_line_breaks (part0 part1 part0' part1' secretKey : string) :
  has_char "."%char part0 = false -> has_char "."%char part1 = false ->
  has_char "."%char part0' = false -> has_char "."%char part1' = false ->
  without_line_breaks part0 = without_line_breaks part0' ->
  without_line_breaks part1 = without_line_breaks part1' ->
  Verify (part0 ++ "." ++ part1) secretKey = Verify (part0' ++ "." ++ part1') secretKey.
Proof.
  intros H0 H1 H0' H1' E0 E1. unfold Verify.
  change ("." ++ part1)%string with (String "."%char part1).
  change ("." ++ part1')%string with (String "."%char part1').
  rewrite !Split_app, !Split_no_sep by assumption.
  unfold DecodeString. fold (without_line_breaks part0) (without_line_breaks part1)
    (without_line_breaks part0') (without_line_breaks part1').
  rewrite E0, E1. reflexivity.
Qed.

Lemma Verify_ignores_line_breaks_witness :
  Verify ((String "Y" (String "010"%char "WdlbnQtMQ=="))
            ++ "." ++ (String "f" (String "013"%char "Rhoj")
                         ++ String "010"%char "HI5FdO/zLoS7o5hkWzYNJPUAQ7o3n9g69jYeBQ="))
         "secret"
  = Verify ("YWdlbnQtMQ==" ++ "." ++ "fRhojHI5FdO/zLoS7o5hkWzYNJPUAQ7o3n9g69jYeBQ=")
           "secret".
Proof.
  apply (Verify_ignores_line_breaks
           (String "Y" (String "010"%char "WdlbnQtMQ=="))
           (String "f" (String "013"%char "Rhoj")
              ++ String "010"%char "HI5FdO/zLoS7o5hkWzYNJPUAQ7o3n9g69jYeBQ=")
           "YWdlbnQtMQ==" "fRhojHI5FdO/zLoS7o5hkWzYNJPUAQ7o3n9g69jYeBQ=" "secret");
    vm_compute; reflexivity.
Defined.

End VerifyProperties.
(* ===================================================================== *)
(** * The hub and the leaf: properties of the guards and of registration *)
(* ===================================================================== *)

Module GuardProperties.
Import GoInt GoProperties Errors ConfigStore ConfigUsecase ConfigHandler.
Import Middleware AgentRoute.

Lemma SplitN2_no_sep s sep :
  Crypto.has_char sep s = false -> SplitN2 s sep = [s].
Proof.
  induction s as [| c rest IH]; cbn [Crypto.has_char SplitN2]; intros H.
  - reflexivity.
  - apply orb_false_elim in H as [Hc Hrest].
    rewrite Hc, IH by exact Hrest. reflexivity.
Qed.

Lemma SplitN2_app a b sep :
  Crypto.has_char sep a = false ->
  SplitN2 (a ++ String sep b)%string sep = [a; b].
Proof.
  induction a as [| c rest IH]; cbn [Crypto.has_char]; intros H.
  - change (EmptyString ++ String sep b)%string with (String sep b).
    cbn [SplitN2]. by rewrite Ascii.eqb_refl.
  - apply orb_false_elim in H as [Hc Hrest].
    change (String c rest ++ String sep b)%string
      with (String c (rest ++ String sep b)%string).
    cbn [SplitN2]. rewrite Hc, IH by exact Hrest. reflexivity.
Qed.

(** [SplitN2] gives the text itself, or the two texts around its first
    separator. *)
Lemma SplitN2_cases s sep :
  (Crypto.has_char sep s = false /\ SplitN2 s sep = [s]) \/
  (exists a b, Crypto.has_char sep a = false /\
               s = (a ++ String sep b)%string /\ SplitN2 s sep = [a; b]).
Proof.
  induction s as [| c rest IH].
  - left. split; reflexivity.
  - cbn [Crypto.has_char SplitN2]. destruct (Ascii.eqb c sep) eqn:Hc.
    + right. apply Ascii.eqb_eq in Hc as ->. by exists EmptyString, rest.
    + destruct IH as [[Hno ->] | (a & b & Ha & -> & ->)].
      * left. by rewrite Hno.
      * right. exists (String c a), b. cbn [Crypto.has_char]. by rewrite Hc, Ha.
Qed.

(** X6.  A header [Authorization] that is not empty and holds no space
    makes both guards panic on [SplitN(...)[1]], whatever the secrets; only
    the empty header is answered 401 before the index is taken. *)
Theorem guards_panic_without_space (authHeader secret : string) :
  authHeader <> EmptyString ->
  Crypto.has_char " "%char authHeader = false ->
  InternalGetConfigVaidation secret authHeader = PanicIndexOutOfRange /\
  ValidationAgentWorker secret authHeader = PanicIndexOutOfRange /\
  InternalGetConfigVaidation secret EmptyString = Unauthorized /\
  ValidationAgentWorker secret EmptyString = Unauthorized.
Proof.
  intros Hne Hno. unfold InternalGetConfigVaidation, ValidationAgentWorker.
  rewrite (is_empty_string_false _ Hne), (SplitN2_no_sep _ _ Hno). repeat split.
Qed.

Lemma guards_panic_without_space_witness :
  InternalGetConfigVaidation "sig" "Bearer" = PanicIndexOutOfRange /\
  ValidationAgentWorker "sig" "Bearer" = PanicIndexOutOfRange /\
  InternalGetConfigVaidation "sig" EmptyString = Unauthorized /\
  ValidationAgentWorker "sig" EmptyString = Unauthorized.
Proof.
  apply (guards_panic_without_space "Bearer" "sig"); [discriminate | reflexivity].
Defined.

(** X7.  The guard of the worker lets a request through exactly when
    the header is some word without a space, one space, and then the
    internal key (which may itself hold spaces): the scheme word is not
    looked at.  For the header the relay sends, [Bearer] and its own key,
    this is the case exactly when the two keys are equal. *)
Theorem ValidationAgentWorker_iff (InternalKey authHeader : string) :
  (ValidationAgentWorker InternalKey authHeader = Next tt <->
   exists scheme, Crypto.has_char " "%char scheme = false /\
                  authHeader = (scheme ++ " " ++ InternalKey)%string) /\
  (forall key,
     ValidationAgentWorker InternalKey ("Bearer " ++ key) = Next tt <-> key = InternalKey).
Proof.
  split; [split |].
  - unfold ValidationAgentWorker.
    destruct (is_empty_string authHeader); [discriminate |].
    destruct (SplitN2_cases authHeader " "%char) as [[_ ->] | (a & b & Ha & -> & ->)];
      [discriminate |].
    destruct (String.eqb InternalKey b) eqn:E; cbn [negb]; [| discriminate].
    intros _. apply String.eqb_eq in E as ->. by exists a.
  - intros (scheme & Hs & ->). unfold ValidationAgentWorker.
    change (" " ++ InternalKey)%string with (String " "%char InternalKey).
    rewrite SplitN2_app by exact Hs. rewrite String.eqb_refl.
    destruct scheme; reflexivity.
  - intros key. unfold ValidationAgentWorker.
    change ("Bearer " ++ key)%string with ("Bearer" ++ String " "%char key)%string.
    rewrite SplitN2_app by reflexivity.
    change (is_empty_string ("Bearer" ++ String " "%char key)) with false.
    destruct (String.eqb InternalKey key) eqn:E; cbn [negb].
    + apply String.eqb_eq in E. by split.
    + apply String.eqb_neq in E. split; [discriminate | congruence].
Qed.

Lemma Verify_own_token uuid sig :
  uuid <> EmptyString -> sig <> EmptyString ->
  Crypto.Verify (fst (Crypto.Generate uuid sig)) sig = (true, uuid, None).
Proof.
  intros Hu Hs. rewrite (CryptoProperties.Verify_Generate uuid sig sig Hu Hs).
  by rewrite CryptoProperties.hmac_equal_refl.
Qed.

Lemma guard_accepts_own_token uuid sig :
  uuid <> EmptyString -> sig <> EmptyString ->
  InternalGetConfigVaidation sig ("Bearer " ++ fst (Crypto.Generate uuid sig)) = Next uuid.
Proof.
  intros Hu Hs. unfold InternalGetConfigVaidation.
  change ("Bearer " ++ ?t)%string with ("Bearer" ++ String " "%char t)%string.
  rewrite SplitN2_app by reflexivity.
  change (is_empty_string ("Bearer" ++ String " "%char _)) with false.
  cbv iota. by rewrite Verify_own_token.
Qed.

(** X8.  Registration and the agent's read fit together: when
    [AgentUsecase.Create] stores a new agent (signature secret and
    identifier not empty, the insert succeeding), it returns a token with
    which [GET /config/agent] passes the guard and answers exactly what the
    admin's read answers, leaving the hub in the same state; the same
    token presented while the agent is not in the table is answered
    "agent not found" with status 404, before cache or store are read. *)
Theorem registered_agent_reads_config
    (aenv : AgentUsecase.Env) (AgentSig : string) (t : gmap string string) :
  AgentSig <> EmptyString ->
  AgentUsecase.uuid_New aenv <> EmptyString ->
  AgentUsecase.db_Write_fault aenv = None ->
  t !! AgentUsecase.uuid_New aenv = None ->
  exists token,
    AgentUsecase.Create aenv AgentSig t
    = (<[AgentUsecase.uuid_New aenv := AgentUsecase.time_Now aenv]> t, Ok token) /\
    forall env h,
      get_config_agent AgentSig env None
        (<[AgentUsecase.uuid_New aenv := AgentUsecase.time_Now aenv]> t)
        ("Bearer " ++ token) h
      = Some (GetLatestConfigAdmin env h) /\
      get_config_agent AgentSig env None t ("Bearer " ++ token) h
      = Some (h, mkResponse StatusNotFound false (Some ErrCodeNotFound)
                            (Some "agent not found") None).
Proof.
  intros Hsig Huuid Hfault Hfresh.
  exists (fst (Crypto.Generate (AgentUsecase.uuid_New aenv) AgentSig)).
  split.
  - unfold AgentUsecase.Create, Agents.Create. rewrite Hfault.
    cbn [Agents.UUID Agents.CreatedAt]. rewrite Hfresh.
    unfold Crypto.Generate.
    rewrite (is_empty_string_false _ Huuid), (is_empty_string_false _ Hsig).
    reflexivity.
  - intros env h. unfold get_config_agent.
    rewrite (guard_accepts_own_token _ _ Huuid Hsig).
    unfold GetLatestConfigModel, GetLatestConfigAdmin, ConfigUsecase.GetLatestConfig,
      with_agents, Agents.GetById.
    cbn [agent_GetById cache_Get_fault db_Get_fault cache_Set_fault].
    rewrite lookup_insert_eq, Hfresh. split; reflexivity.
Qed.

Lemma registered_agent_reads_config_witness :
  exists token,
    AgentUsecase.Create (AgentUsecase.mkEnv "agent-1" "2024-01-01T00:00:00Z" None)
                        "secret" ∅
    = (<["agent-1" := "2024-01-01T00:00:00Z"]> ∅, Ok token) /\
    forall env h,
      get_config_agent "secret" env None (<["agent-1" := "2024-01-01T00:00:00Z"]> ∅)
                       ("Bearer " ++ token) h
      = Some (GetLatestConfigAdmin env h) /\
      get_config_agent "secret" env None ∅ ("Bearer " ++ token) h
      = Some (h, mkResponse StatusNotFound false (Some ErrCodeNotFound)
                            (Some "agent not found") None).
Proof.
  apply (registered_agent_reads_config
           (AgentUsecase.mkEnv "agent-1" "2024-01-01T00:00:00Z" None) "secret" ∅);
    [discriminate | discriminate | reflexivity | reflexivity].
Defined.

(** X9.  With an empty signature secret every registration fails
    with "failed to create access token", yet each one whose insert
    succeeds leaves its agent in the table: the row is written before the
    token is made, and nothing removes it. *)
Theorem Create_agent_without_signature (aenv : AgentUsecase.Env) (t : gmap string string) :
  AgentUsecase.db_Write_fault aenv = None ->
  t !! AgentUsecase.uuid_New aenv = None ->
  AgentUsecase.Create aenv EmptyString t
  = (<[AgentUsecase.uuid_New aenv := AgentUsecase.time_Now aenv]> t,
     Err (Wrap (RawError "text and secretKey cannot be empty") "agent"
               "failed to create access token")) /\
  Agents.GetById None (AgentUsecase.uuid_New aenv)
                 (fst (AgentUsecase.Create aenv EmptyString t))
  = Ok (Agents.mkAgent (AgentUsecase.uuid_New aenv) (AgentUsecase.time_Now aenv)).
Proof.
  intros Hfault Hfresh.
  assert (AgentUsecase.Create aenv EmptyString t
          = (<[AgentUsecase.uuid_New aenv := AgentUsecase.time_Now aenv]> t,
             Err (Wrap (RawError "text and secretKey cannot be empty") "agent"
                       "failed to create access token"))) as E.
  { unfold AgentUsecase.Create, Agents.Create. rewrite Hfault.
    cbn [Agents.UUID Agents.CreatedAt]. rewrite Hfresh.
    unfold Crypto.Generate. cbn [is_empty_string]. by rewrite orb_true_r. }
  split; [exact E |]. rewrite E. cbn [fst]. unfold Agents.GetById.
  by rewrite lookup_insert_eq.
Qed.

Lemma Create_agent_without_signature_witness :
  let aenv := AgentUsecase.mkEnv "agent-1" "2024-01-01T00:00:00Z" None in
  AgentUsecase.Create aenv EmptyString ∅
  = (<["agent-1" := "2024-01-01T00:00:00Z"]> ∅,
     Err (Wrap (RawError "text and secretKey cannot be empty") "agent"
               "failed to create access token")) /\
  Agents.GetById None "agent-1" (fst (AgentUsecase.Create aenv EmptyString ∅))
  = Ok (Agents.mkAgent "agent-1" "2024-01-01T00:00:00Z").
Proof.
  intros aenv.
  apply (Create_agent_without_signature aenv ∅); reflexivity.
Defined.

End GuardProperties.
(* ===================================================================== *)
(** * The hub: further properties of the store and of the routes *)
(* ===================================================================== *)

Module HubInvariantProperties.
Import GoInt GoProperties Errors ConfigStore ConfigUsecase HubSpec.
Import HubProperties HubInvariants.

(** ** Reads *)

Lemma GetLatestConfig_cases env agentID h :
  (fst (ConfigUsecase.GetLatestConfig env agentID h) = h /\
   forall c, snd (ConfigUsecase.GetLatestConfig env agentID h) = Ok c ->
             cache h = Some c) \/
  (exists c, latest (db h) = Some c /\
             snd (ConfigUsecase.GetLatestConfig env agentID h) = Ok c /\
             db (fst (ConfigUsecase.GetLatestConfig env agentID h)) = db h /\
             (cache (fst (ConfigUsecase.GetLatestConfig env agentID h)) = cache h \/
              cache (fst (ConfigUsecase.GetLatestConfig env agentID h)) = Some c)).
Proof.
  unfold ConfigUsecase.GetLatestConfig, GetConfig, ConfigStore.GetLatestConfig, SetConfig.
  destruct (match agentID with Some _ => agent_GetById env | None => None end).
  { left. destruct (IsNotFound _); split; try reflexivity; discriminate. }
  assert (forall X : hub * result Config,
            X = match db_Get_fault env with
                | Some e => (h, Err (Wrap (Database e) ErrCodeInternal
                                          "failed to get latest config"))
                | None =>
                    match latest (db h) with
                    | None => (h, Err (NotFound "config"))
                    | Some cfg =>
                        (mkHub (db h)
                               (match cache_Set_fault env with
                                | Some _ => cache h
                                | None => Some cfg
                                end), Ok cfg)
                    end
                end ->
            (fst X = h /\ forall c, snd X = Ok c -> cache h = Some c) \/
            (exists c, latest (db h) = Some c /\ snd X = Ok c /\ db (fst X) = db h /\
                       (cache (fst X) = cache h \/ cache (fst X) = Some c))) as Hmiss.
  { intros X ->. destruct (db_Get_fault env); [left; split; [reflexivity | discriminate] |].
    destruct (latest (db h)) as [cfg |]; [| left; split; [reflexivity | discriminate]].
    right. exists cfg. cbn. repeat split.
    destruct (cache_Set_fault env); [left | right]; reflexivity. }
  destruct (cache_Get_fault env).
  - apply Hmiss. destruct (db_Get_fault env); [reflexivity |].
    destruct (latest (db h)); [| reflexivity]. by destruct (cache_Set_fault env).
  - destruct (cache h) as [cached |] eqn:Hcache.
    + left. split; [reflexivity |]. cbn. by intros c [= <-].
    + apply Hmiss. destruct (db_Get_fault env); [reflexivity |].
      destruct (latest (db h)); [| reflexivity]. by destruct (cache_Set_fault env).
Qed.

(** X10.  A read whose agent lookup raises no error is answered
    whenever the cache or the database can answer: what the cache holds is
    returned without the database being asked, so also while it is down;
    and when the cache fails or is empty, the row of the greatest version
    is returned, whether or not the cache accepts it afterwards.  No read
    changes the table. *)
Theorem GetLatestConfig_resilient (env : Env) (agentID : option string) (h : hub) :
  match agentID with Some _ => agent_GetById env = None | None => True end ->
  (forall c, cache_Get_fault env = None -> cache h = Some c ->
             ConfigUsecase.GetLatestConfig env agentID h = (h, Ok c)) /\
  (forall c, cache_Get_fault env <> None \/ cache h = None ->
             db_Get_fault env = None -> latest (db h) = Some c ->
             snd (ConfigUsecase.GetLatestConfig env agentID h) = Ok c) /\
  db (fst (ConfigUsecase.GetLatestConfig env agentID h)) = db h.
Proof.
  intros Hagent.
  assert (match agentID with Some _ => agent_GetById env | None => None end = None) as Ha.
  { destruct agentID; [exact Hagent | reflexivity]. }
  split; [| split].
  - intros c Hget Hc. unfold ConfigUsecase.GetLatestConfig, GetConfig.
    by rewrite Ha, Hget, Hc.
  - intros c Hmiss Hdb Hlatest.
    unfold ConfigUsecase.GetLatestConfig, GetConfig, ConfigStore.GetLatestConfig, SetConfig.
    rewrite Ha, Hdb, Hlatest.
    destruct (cache_Get_fault env) as [e |].
    + by destruct (cache_Set_fault env).
    + destruct Hmiss as [Hf | Hc]; [done |]. rewrite Hc.
      by destruct (cache_Set_fault env).
  - destruct (GetLatestConfig_cases env agentID h) as [[-> _] | (c & _ & _ & Hdb & _)];
      [reflexivity | exact Hdb].
Qed.

Lemma GetLatestConfig_resilient_witness :
  let env := mkEnv "id-2" "2024-01-02T00:00:00Z" None None
                   (Some (RawError "connection refused")) None None in
  (forall c, cache_Get_fault env = None -> cache hub_v1 = Some c ->
             ConfigUsecase.GetLatestConfig env (Some "agent-1") hub_v1 = (hub_v1, Ok c)) /\
  (forall c, cache_Get_fault env <> None \/ cache hub_v1 = None ->
             db_Get_fault env = None -> latest (db hub_v1) = Some c ->
             snd (ConfigUsecase.GetLatestConfig env (Some "agent-1") hub_v1) = Ok c) /\
  db (fst (ConfigUsecase.GetLatestConfig env (Some "agent-1") hub_v1)) = db hub_v1.
Proof.
  intros env.
  apply (GetLatestConfig_resilient env (Some "agent-1") hub_v1). reflexivity.
Defined.

(** ** Writes leave the other rows alone *)

(** X11.  [Create] never changes or removes a row: every row of the table
    is there unchanged afterwards, whether the call succeeds or fails; and
    when the identifier it draws is already a key of the table, the call
    fails and leaves table and cache as they were. *)
Theorem Create_keeps_rows (env : Env) (save : SaveCreate) (h : hub)
    (k : string) (r : ConfigRow) :
  db h !! k = Some r ->
  db (fst (Create env save h)) !! k = Some r /\
  (k = uuid_New env ->
   fst (Create env save h) = h /\ exists e, snd (Create env save h) = Err e).
Proof.
  intros Hk. split.
  - destruct (Create_db env save h) as [-> | (Hfresh & _ & _ & ->)]; [exact Hk |].
    rewrite lookup_insert_ne; [exact Hk |]. intros <-. congruence.
  - intros ->. unfold Create, ConfigStore.GetLatestConfig, ConfigStore.Create.
    destruct h as [d c]. cbn [db cache] in *.
    destruct (db_Get_fault env) as [e |]; [cbn; eauto |].
    destruct (latest d) as [l |]; try rewrite IsNotFound_NotFound; cbn [negb UUID];
      (destruct (db_Write_fault env) as [e |]; [cbn; eauto |]);
      rewrite Hk; cbn; eauto.
Qed.

Lemma Create_keeps_rows_witness :
  let save := mkSaveCreate "https://example.com/b" 60 in
  let env := mkEnv "id-1" "2024-01-02T00:00:00Z" None None None None None in
  let r := mkRow 1 "https://example.com/a" 30 "2024-01-01T00:00:00Z" in
  db (fst (Create env save hub_v1)) !! "id-1" = Some r /\
  ("id-1" = uuid_New env ->
   fst (Create env save hub_v1) = hub_v1 /\
   exists e, snd (Create env save hub_v1) = Err e).
Proof.
  intros save env r.
  apply (Create_keeps_rows env save hub_v1 "id-1" r). reflexivity.
Defined.

(** X12.  [Update] adds and removes no row and rewrites at most the row
    of the greatest version, of which it keeps key, version and creation
    time: its target becomes the one given unless that is empty, its
    interval the one given unless that is missing or negative.  On an
    empty table it changes nothing. *)
Theorem Update_frame (env : Env) (save : SaveUpdate) (h : hub) (k : string) :
  let d' := db (fst (Update env save h)) in
  (is_Some (d' !! k) <-> is_Some (db h !! k)) /\
  col_version <$> d' !! k = col_version <$> db h !! k /\
  col_created_at <$> d' !! k = col_created_at <$> db h !! k /\
  (forall c, latest (db h) = Some c -> k <> UUID c -> d' !! k = db h !! k) /\
  (forall c, latest (db h) = Some c ->
             d' !! UUID c = Some (to_row c) \/
             d' !! UUID c
             = Some (mkRow (Version c)
                           (if is_empty_string (UpdateConfigUrl save) then ConfigURL c
                            else UpdateConfigUrl save)
                           (match UpdatePoolingInterval save with
                            | Some i => if 0 <=? i then i else PoolingInterval c
                            | None => PoolingInterval c
                            end)
                           (CreatedAt c))) /\
  (latest (db h) = None -> fst (Update env save h) = h).
Proof.
  intros d'. subst d'.
  assert (forall c, to_row (updated_config save c)
                    = mkRow (Version c)
                            (if is_empty_string (UpdateConfigUrl save) then ConfigURL c
                             else UpdateConfigUrl save)
                            (match UpdatePoolingInterval save with
                             | Some i => if 0 <=? i then i else PoolingInterval c
                             | None => PoolingInterval c
                             end)
                            (CreatedAt c)) as Hrow.
  { intros c. unfold updated_config.
    destruct (is_empty_string (UpdateConfigUrl save));
      destruct (UpdatePoolingInterval save) as [i |]; cbn [negb];
      try destruct (0 <=? i); reflexivity. }
  destruct (Update_cases env save h) as [-> | (c & Hc & Hupd)].
  - repeat split; auto.
    intros c Hc. left. apply (latest_Some _ _ Hc).
  - assert (db (fst (Update env save h))
            = <[UUID c := to_row (updated_config save c)]> (db h)) as ->.
    { destruct Hupd as [[_ ->] | [_ ->]]; reflexivity. }
    destruct (latest_Some _ _ Hc) as [Hrowc _].
    destruct (decide (k = UUID c)) as [-> | Hne].
    + rewrite Hrow, lookup_insert_eq, Hrowc. cbn.
      repeat split; eauto; try congruence.
      intros c' Hc'. right. assert (c' = c) as -> by congruence.
      by rewrite lookup_insert_eq.
    + rewrite Hrow, lookup_insert_ne by done.
      repeat split; eauto; try congruence.
      intros c' Hc'. right. assert (c' = c) as -> by congruence.
      by rewrite lookup_insert_eq.
Qed.

(** ** The numbering of versions *)

Lemma numbered_empty : numbered ∅.
Proof.
  split; [| split].
  - intros k r Hk. by rewrite lookup_empty in Hk.
  - intros k1 k2 r1 r2 Hk. by rewrite lookup_empty in Hk.
  - intros v Hv. rewrite map_size_empty in Hv. lia.
Qed.

Lemma numbered_latest d :
  numbered d ->
  latest_version d = if decide (size d = 0%nat) then None else Some (Z.of_nat (size d)).
Proof.
  intros (Hrange & _ & Hall). destruct (decide (size d = 0%nat)) as [Hz | Hnz].
  - apply latest_version_None. by apply map_size_empty_iff.
  - apply latest_version_Some. split.
    + apply Hall. lia.
    + intros k r Hk. apply (Hrange _ _ Hk).
Qed.

Lemma numbered_insert_new d k r :
  numbered d -> d !! k = None -> col_version r = Z.of_nat (size d) + 1 ->
  numbered (<[k := r]> d).
Proof.
  intros (Hrange & Hinj & Hall) Hfresh Hv.
  unfold numbered. rewrite (map_size_insert_None _ _ _ Hfresh).
  split; [| split].
  - intros k' r' [[-> <-] | [Hne Hk']]%lookup_insert_Some; [lia |].
    specialize (Hrange _ _ Hk'). lia.
  - intros k1 k2 r1 r2 [[<- <-] | [Hne1 Hk1]]%lookup_insert_Some
                       [[<- <-] | [Hne2 Hk2]]%lookup_insert_Some Heq.
    + reflexivity.
    + specialize (Hrange _ _ Hk2). lia.
    + specialize (Hrange _ _ Hk1). lia.
    + exact (Hinj _ _ _ _ Hk1 Hk2 Heq).
  - intros v Hv'. destruct (decide (v = Z.of_nat (size d) + 1)) as [-> | Hne].
    + exists k, r. by rewrite lookup_insert_eq.
    + destruct (Hall v ltac:(lia)) as (k' & r' & Hk' & Hr').
      exists k', r'. split; [| exact Hr'].
      rewrite lookup_insert_ne; [exact Hk' | congruence].
Qed.

Lemma numbered_rewrite d k r r' :
  numbered d -> d !! k = Some r -> col_version r' = col_version r ->
  numbered (<[k := r']> d).
Proof.
  intros (Hrange & Hinj & Hall) Hk Hv.
  unfold numbered. rewrite (map_size_insert_Some k r' d) by (rewrite Hk; eauto).
  split; [| split].
  - intros k' r'' [[<- <-] | [Hne Hk']]%lookup_insert_Some.
    + rewrite Hv. exact (Hrange _ _ Hk).
    + exact (Hrange _ _ Hk').
  - intros k1 k2 r1 r2 [[<- <-] | [Hne1 Hk1]]%lookup_insert_Some
                       [[<- <-] | [Hne2 Hk2]]%lookup_insert_Some Heq.
    + reflexivity.
    + rewrite Hv in Heq. exact (Hinj _ _ _ _ Hk Hk2 Heq).
    + rewrite Hv in Heq. exact (Hinj _ _ _ _ Hk1 Hk Heq).
    + exact (Hinj _ _ _ _ Hk1 Hk2 Heq).
  - intros v Hv'. destruct (Hall v Hv') as (k' & r'' & Hk' & Hr').
    destruct (decide (k' = k)) as [-> | Hne].
    + exists k, r'. rewrite lookup_insert_eq. split; [reflexivity | congruence].
    + exists k', r''. by rewrite lookup_insert_ne.
Qed.

(** The version [Create] gives in a numbered table is the number of rows
    plus one. *)
Lemma created_config_numbered env save h :
  numbered (db h) -> Z.of_nat (size (db h)) < MaxInt64 ->
  Version (created_config env save h) = Z.of_nat (size (db h)) + 1.
Proof.
  intros Hn Hsize. pose proof (numbered_latest _ Hn) as Hl.
  unfold created_config, latest_version in *. cbn [Version].
  destruct (latest (db h)) as [c |]; destruct (decide _) as [Hz | Hnz];
    cbn in Hl; try discriminate.
  - injection Hl as ->. apply add64_succ. unfold MinInt64, MaxInt64 in *. lia.
  - rewrite Hz. reflexivity.
Qed.

Lemma Create_numbered env save h :
  numbered (db h) -> Z.of_nat (size (db h)) < MaxInt64 ->
  numbered (db (fst (Create env save h))) /\
  (size (db (fst (Create env save h))) <= S (size (db h)))%nat.
Proof.
  intros Hn Hsize.
  destruct (Create_db env save h) as [-> | (Hfresh & _ & _ & ->)]; [split; [done | lia] |].
  split.
  - apply numbered_insert_new; [done | done |].
    apply (created_config_numbered env save h Hn Hsize).
  - rewrite (map_size_insert_None _ _ _ Hfresh). lia.
Qed.

Lemma Update_numbered env save h :
  numbered (db h) ->
  numbered (db (fst (Update env save h))) /\
  size (db (fst (Update env save h))) = size (db h).
Proof.
  intros Hn.
  destruct (Update_db env save h) as [-> | (c & url & interval & Hc & ->)]; [done |].
  destruct (latest_Some _ _ Hc) as [Hrow _].
  split; [| rewrite map_size_insert_Some by (rewrite Hrow; eauto); reflexivity].
  by apply (numbered_rewrite _ _ (to_row c)).
Qed.

Lemma step_numbered h o :
  numbered (db h) -> Z.of_nat (size (db h)) < MaxInt64 ->
  numbered (db (step h o)) /\ (size (db (step h o)) <= S (size (db h)))%nat.
Proof.
  intros Hn Hsize. destruct o as [env save | env save]; cbn [step].
  - by apply Create_numbered.
  - destruct (Update_numbered env save h Hn) as [H ->]. split; [done | lia].
Qed.

Lemma run_numbered ops : forall h,
  numbered (db h) ->
  Z.of_nat (size (db h)) + Z.of_nat (length ops) <= MaxInt64 ->
  numbered (db (run ops h)) /\
  (size (db (run ops h)) <= size (db h) + length ops)%nat.
Proof.
  induction ops as [| o ops IH]; intros h Hn Hsize; cbn [length] in *.
  - split; [exact Hn | cbn; lia].
  - destruct (step_numbered h o Hn ltac:(lia)) as [Hn' Hs'].
    destruct (IH (step h o) Hn' ltac:(lia)) as [Hn'' Hs''].
    change (run (o :: ops) h) with (run ops (step h o)).
    split; [exact Hn'' | lia].
Qed.

(** X13.  Starting from an empty table, after any sequence of [Create]
    and [Update] calls (any inputs, any of their calls failing), the
    versions in the table are exactly 1, 2, ..., n for the n rows of the
    table, each on one row: no version is used twice, none is skipped, and
    the greatest version is the number of rows.  The sequence is taken
    shorter than the greatest [int]. *)
Theorem versions_numbered (ops : list op) (cached : option Config) :
  Z.of_nat (length ops) < MaxInt64 ->
  let d := db (run ops (mkHub ∅ cached)) in
  let n := Z.of_nat (size d) in
  (forall k r, d !! k = Some r -> 1 <= col_version r <= n) /\
  (forall k1 k2 r1 r2,
     d !! k1 = Some r1 -> d !! k2 = Some r2 ->
     col_version r1 = col_version r2 -> k1 = k2) /\
  (forall v, 1 <= v <= n -> exists k r, d !! k = Some r /\ col_version r = v) /\
  n <= Z.of_nat (length ops) /\
  latest_version d = (if decide (size d = 0%nat) then None else Some n).
Proof.
  intros Hlen d n.
  destruct (run_numbered ops (mkHub ∅ cached)) as [Hn Hs].
  { apply numbered_empty. }
  { cbn [db]. rewrite map_size_empty. lia. }
  cbn [db] in Hs. rewrite map_size_empty in Hs.
  destruct Hn as (H1 & H2 & H3).
  split; [exact H1 |]. split; [exact H2 |]. split; [exact H3 |].
  split; [subst n d; lia |].
  apply numbered_latest. by split.
Qed.

Lemma versions_numbered_witness :
  let ops := [OpCreate env_ok (mkSaveCreate "https://example.com/a" 30);
              OpUpdate env_ok (mkSaveUpdate "https://example.com/b" None);
              OpCreate (mkEnv "id-3" "2024-01-03T00:00:00Z" None None None None None)
                       (mkSaveCreate "https://example.com/c" 45)] in
  let d := db (run ops (mkHub ∅ None)) in
  let n := Z.of_nat (size d) in
  (forall k r, d !! k = Some r -> 1 <= col_version r <= n) /\
  (forall k1 k2 r1 r2,
     d !! k1 = Some r1 -> d !! k2 = Some r2 ->
     col_version r1 = col_version r2 -> k1 = k2) /\
  (forall v, 1 <= v <= n -> exists k r, d !! k = Some r /\ col_version r = v) /\
  n <= Z.of_nat (length ops) /\
  latest_version d = (if decide (size d = 0%nat) then None else Some n).
Proof.
  intros ops.
  apply (versions_numbered ops None). unfold MaxInt64. cbn. lia.
Defined.

(** ** The answers of the routes *)

(** X14.  The statuses of the two writing routes.  [POST /config] answers
    200, 400 or 500 and never 404; [PUT /config] answers 200, 400, 404 or
    500.  Either answers 400 exactly when the body fails its tags, and the
    update answers 404 exactly when a body that passes meets an empty table
    on a database that answers; hub and cache are then left as they
    were. *)
Theorem handler_statuses (env : Env) (h : hub) :
  (forall input,
     let r := snd (ConfigHandler.Create env input h) in
     (ConfigHandler.Status r = 200 \/ ConfigHandler.Status r = 400
      \/ ConfigHandler.Status r = 500) /\
     (ConfigHandler.Status r = 400 <-> ConfigHandler.binding_SaveCreate input = false)) /\
  (forall input,
     let r := snd (ConfigHandler.Update env input h) in
     (ConfigHandler.Status r = 200 \/ ConfigHandler.Status r = 400
      \/ ConfigHandler.Status r = 404 \/ ConfigHandler.Status r = 500) /\
     (ConfigHandler.Status r = 400 <-> ConfigHandler.binding_SaveUpdate input = false) /\
     (ConfigHandler.Status r = 404 <->
      ConfigHandler.binding_SaveUpdate input = true /\ db_Get_fault env = None
      /\ db h = ∅) /\
     (ConfigHandler.Status r = 404 -> fst (ConfigHandler.Update env input h) = h)).
Proof.
  split.
  - intros input r. subst r. unfold ConfigHandler.Create.
    destruct (ConfigHandler.binding_SaveCreate input); cbn [negb];
      [| cbn; split; [auto | done]].
    assert (forall X : hub * result Config,
              (exists h' status code message cause,
                 X = (h', Err (AppError code message status cause)) /\ status = 500)
              \/ (exists h' c, X = (h', Ok c)) ->
              let r := snd (match X with
                            | (h', Err err) => (h', ConfigHandler.response_Error err)
                            | (h', Ok config) =>
                                (h', ConfigHandler.response_Success (Some config))
                            end) in
              (ConfigHandler.Status r = 200 \/ ConfigHandler.Status r = 400
               \/ ConfigHandler.Status r = 500) /\
              (ConfigHandler.Status r = 400 <-> true = false)) as Hshape.
    { intros X [(h' & status & code & message & cause & -> & ->)
               | (h' & c & ->)]; cbn; (split; [auto | split; [intros [=] | done]]). }
    apply Hshape.
    unfold ConfigUsecase.Create, ConfigStore.GetLatestConfig, ConfigStore.Create,
      SetConfig, Database.
    destruct (db_Get_fault env) as [e |]; [cbn; left; eauto 10 |].
    destruct (latest (db h)) as [l |]; try rewrite IsNotFound_NotFound; cbn [negb UUID];
      (destruct (db_Write_fault env) as [e |]; [left; unfold Wrap; eauto 10 |]);
      (destruct (db h !! uuid_New env); [left; unfold Wrap; eauto 10 |]);
      (destruct (cache_Set_fault env); [left; unfold Wrap; eauto 10 | right; eauto]).
  - intros input r. subst r. unfold ConfigHandler.Update.
    destruct (ConfigHandler.binding_SaveUpdate input); cbn [negb];
      [| cbn; repeat split; auto; try done; try lia; intros (? & _); done].
    unfold ConfigUsecase.Update, ConfigStore.GetLatestConfig, ConfigStore.Update,
      SetConfig.
    destruct (db_Get_fault env) as [e |].
    { cbn. repeat split; auto; try done; try lia. intros (_ & ? & _); done. }
    destruct (latest (db h)) as [l |] eqn:Hl.
    + assert (db h <> ∅) as Hne.
      { intros He. apply latest_None in He. congruence. }
      destruct (db_Write_fault env) as [e |];
        [cbn; repeat split; auto; try done; try lia; intros (_ & _ & ?); done |].
      destruct (cache_Set_fault env);
        cbn; repeat split; auto; try done; try lia; intros (_ & _ & ?); done.
    + apply latest_None in Hl. rewrite IsNotFound_NotFound. cbn.
      repeat split; auto; try done; lia.
Qed.

(** X15.  How the classifiers of pkg/errors see the errors of the hub's use
    case.  An error of [Create] is never "not found" and has status 500;
    it is retryable exactly when the initial read of the database failed,
    the only error [Create] hands on as it is.  An error of [Update] or of
    a read is never retryable, a failed database included, because it is
    wrapped under a code of its own; an error of [Update] is "not found"
    exactly when the table is empty and the database answers, and has
    status 500 otherwise. *)
Theorem usecase_error_classes (env : Env) (h : hub) :
  (forall save e,
     snd (ConfigUsecase.Create env save h) = Err e ->
     ErrorsEdge.GetHTTPStatus (Some e) = 500 /\
     IsNotFound (Some e) = false /\
     (ErrorsEdge.IsRetryable (Some e) = true <-> db_Get_fault env <> None)) /\
  (forall save e,
     snd (ConfigUsecase.Update env save h) = Some e ->
     ErrorsEdge.IsRetryable (Some e) = false /\
     (IsNotFound (Some e) = true <-> db_Get_fault env = None /\ db h = ∅) /\
     (IsNotFound (Some e) = false -> ErrorsEdge.GetHTTPStatus (Some e) = 500)) /\
  (forall agentID e,
     snd (ConfigUsecase.GetLatestConfig env agentID h) = Err e ->
     ErrorsEdge.IsRetryable (Some e) = false /\
     ErrorsEdge.GetHTTPStatus (Some e) = (if IsNotFound (Some e) then 404 else 500)).
Proof.
  split; [| split].
  - intros save e.
    unfold ConfigUsecase.Create, ConfigStore.GetLatestConfig, ConfigStore.Create,
      SetConfig.
    destruct (db_Get_fault env) as [e0 |].
    { cbn. intros [= <-]. repeat split; done. }
    destruct (latest (db h)) as [l |]; try rewrite IsNotFound_NotFound; cbn [negb UUID];
      (destruct (db_Write_fault env) as [e1 |];
       [cbn; intros [= <-]; repeat split; done |]);
      (destruct (db h !! uuid_New env);
       [cbn; intros [= <-]; repeat split; done |]);
      (destruct (cache_Set_fault env);
       [cbn; intros [= <-]; repeat split; done | discriminate]).
  - intros save e.
    unfold ConfigUsecase.Update, ConfigStore.GetLatestConfig, ConfigStore.Update,
      SetConfig.
    destruct (db_Get_fault env) as [e0 |].
    { cbn. intros [= <-]. repeat split; try done. intros (? & _); done. }
    destruct (latest (db h)) as [l |] eqn:Hl.
    + assert (db h <> ∅) as Hne.
      { intros He. apply latest_None in He. congruence. }
      destruct (db_Write_fault env) as [e1 |];
        [cbn; intros [= <-]; repeat split; try done; intros (_ & ?); done |].
      destruct (cache_Set_fault env);
        [cbn; intros [= <-]; repeat split; try done; intros (_ & ?); done
        | discriminate].
    + apply latest_None in Hl. rewrite IsNotFound_NotFound. cbn.
      intros [= <-]. repeat split; done.
  - intros agentID e.
    unfold ConfigUsecase.GetLatestConfig, GetConfig, ConfigStore.GetLatestConfig,
      SetConfig.
    destruct (match agentID with Some _ => agent_GetById env | None => None end).
    { destruct (IsNotFound _); cbn; intros [= <-]; split; reflexivity. }
    assert (forall X : hub * result Config,
              X = match db_Get_fault env with
                  | Some e0 => (h, Err (Wrap (Database e0) ErrCodeInternal
                                             "failed to get latest config"))
                  | None =>
                      match latest (db h) with
                      | None => (h, Err (NotFound "config"))
                      | Some cfg =>
                          (mkHub (db h)
                                 (match cache_Set_fault env with
                                  | Some _ => cache h
                                  | None => Some cfg
                                  end), Ok cfg)
                      end
                  end ->
              snd X = Err e ->
              ErrorsEdge.IsRetryable (Some e) = false /\
              ErrorsEdge.GetHTTPStatus (Some e)
              = (if IsNotFound (Some e) then 404 else 500)) as Hmiss.
    { intros X ->. destruct (db_Get_fault env); [cbn; intros [= <-]; by split |].
      destruct (latest (db h)); [discriminate |]. cbn. intros [= <-]. by split. }
    destruct (cache_Get_fault env).
    + apply Hmiss. destruct (db_Get_fault env); [reflexivity |].
      destruct (latest (db h)); [| reflexivity]. by destruct (cache_Set_fault env).
    + destruct (cache h) as [cached |]; [discriminate |].
      apply Hmiss. destruct (db_Get_fault env); [reflexivity |].
      destruct (latest (db h)); [| reflexivity]. by destruct (cache_Set_fault env).
Qed.

(** ** What the routes let into the store *)

Lemma of_row_to_row c : of_row (UUID c, to_row c) = c.
Proof. by destruct c. Qed.

Lemma hub_servable_latest h c :
  hub_servable h -> latest (db h) = Some c -> servable c.
Proof.
  intros [Hdb _] Hc. destruct (latest_Some _ _ Hc) as [Hrow _].
  rewrite <- (of_row_to_row c). exact (Hdb _ _ Hrow).
Qed.

Lemma hub_servable_insert h c cache' :
  hub_servable h -> servable c ->
  (cache' = cache h \/ cache' = Some c) ->
  hub_servable (mkHub (<[UUID c := to_row c]> (db h)) cache').
Proof.
  intros [Hdb Hcache] Hc Hcache'. split; cbn [db cache].
  - intros k r [[<- <-] | [_ Hk]]%lookup_insert_Some.
    + by rewrite of_row_to_row.
    + exact (Hdb _ _ Hk).
  - intros c' Hc'. destruct Hcache' as [-> | ->]; [exact (Hcache _ Hc') |].
    by injection Hc' as <-.
Qed.

Lemma updated_config_servable save c :
  ConfigHandler.binding_SaveUpdate save = true -> servable c ->
  servable (updated_config save c).
Proof.
  unfold ConfigHandler.binding_SaveUpdate, updated_config, servable.
  intros Hb (Hu & Hurl & Hi & Hv).
  destruct (is_empty_string (UpdateConfigUrl save)) eqn:He; cbn [negb];
    destruct (UpdatePoolingInterval save) as [i |]; cbn;
    try (apply Z.leb_le in Hb; destruct (Z.leb_spec 0 i); [| lia]; cbn);
    repeat split; auto; try lia;
    intros Habs; rewrite Habs in He; discriminate.
Qed.

Lemma serve_invariant h r :
  hub_servable h -> numbered (db h) -> Z.of_nat (size (db h)) < MaxInt64 ->
  (forall id, AgentRoute.fresh_uuid r = Some id -> id <> EmptyString) ->
  hub_servable (AgentRoute.serve h r) /\ numbered (db (AgentRoute.serve h r)) /\
  (size (db (AgentRoute.serve h r)) <= S (size (db h)))%nat.
Proof.
  intros Hs Hn Hsize Hid.
  assert (forall env agentID,
            let h' := fst (ConfigUsecase.GetLatestConfig env agentID h) in
            hub_servable h' /\ numbered (db h') /\ (size (db h') <= S (size (db h)))%nat)
    as Hread.
  { intros env agentID h'. subst h'.
    destruct (GetLatestConfig_cases env agentID h)
      as [[-> _] | (c & Hc & _ & Hdb & Hcache)]; [split; [done | split; [done | lia]] |].
    rewrite Hdb. split; [| split; [done | lia]].
    destruct Hs as [Hrows Hcached]. split; [by rewrite Hdb |].
    intros c' Hc'. destruct Hcache as [E | E]; rewrite E in Hc'.
    - exact (Hcached _ Hc').
    - injection Hc' as <-. by apply (hub_servable_latest h). }
  destruct r as [env input | env input | env | env fault t uuid]; cbn [AgentRoute.serve].
  - unfold ConfigHandler.Create.
    destruct (ConfigHandler.binding_SaveCreate input) eqn:Hb; cbn [negb];
      [| split; [done | split; [done | cbn; lia]]].
    assert (fst (let (h', r) := ConfigUsecase.Create env input h in
                 match r with
                 | Ok config => (h', ConfigHandler.response_Success (Some config))
                 | Err err => (h', ConfigHandler.response_Error err)
                 end) = fst (ConfigUsecase.Create env input h)) as ->.
    { by destruct (ConfigUsecase.Create env input h) as [h' [c | e]]. }
    destruct (Create_numbered env input h Hn Hsize) as [Hn' Hs'].
    split; [| by split].
    assert (servable (created_config env input h)) as Hc.
    { unfold servable. rewrite (created_config_numbered env input h Hn Hsize).
      unfold ConfigHandler.binding_SaveCreate in Hb.
      apply andb_prop in Hb as [Hurl Hi]. apply Z.leb_le in Hi.
      cbn [created_config UUID ConfigURL PoolingInterval].
      split; [apply Hid; reflexivity |]. split; [| lia].
      intros E. by rewrite E in Hurl. }
    destruct (Create_cases env input h) as [-> | (Hfresh & [[_ ->] | [_ ->]])];
      [done | |]; cbn [fst];
      change (uuid_New env) with (UUID (created_config env input h));
      apply hub_servable_insert; auto.
  - unfold ConfigHandler.Update.
    destruct (ConfigHandler.binding_SaveUpdate input) eqn:Hb; cbn [negb];
      [| split; [done | split; [done | cbn; lia]]].
    assert (fst (let (h', o) := ConfigUsecase.Update env input h in
                 match o with
                 | Some err => (h', ConfigHandler.response_Error err)
                 | None => (h', ConfigHandler.response_Success None)
                 end) = fst (ConfigUsecase.Update env input h)) as ->.
    { by destruct (ConfigUsecase.Update env input h) as [h' [e |]]. }
    destruct (Update_numbered env input h Hn) as [Hn' Hs'].
    split; [| split; [done | lia]].
    destruct (Update_cases env input h) as [-> | (c & Hc & [[_ ->] | [_ ->]])];
      [done | |];
      rewrite <- (proj1 (updated_config_key input c));
      apply hub_servable_insert; auto;
      apply updated_config_servable; auto; by apply (hub_servable_latest h).
  - unfold AgentRoute.GetLatestConfigAdmin.
    assert (fst (let (h', r) := ConfigUsecase.GetLatestConfig env None h in
                 match r with
                 | Ok config => (h', ConfigHandler.response_Success (Some config))
                 | Err err => (h', ConfigHandler.response_Error err)
                 end) = fst (ConfigUsecase.GetLatestConfig env None h)) as ->.
    { by destruct (ConfigUsecase.GetLatestConfig env None h) as [h' [c | e]]. }
    apply Hread.
  - unfold AgentRoute.GetLatestConfigModel.
    set (env' := AgentRoute.with_agents fault t uuid env).
    assert (fst (let (h', r) := ConfigUsecase.GetLatestConfig env' (Some uuid) h in
                 match r with
                 | Ok config => (h', ConfigHandler.response_Success (Some config))
                 | Err err => (h', ConfigHandler.response_Error err)
                 end) = fst (ConfigUsecase.GetLatestConfig env' (Some uuid) h)) as ->.
    { by destruct (ConfigUsecase.GetLatestConfig env' (Some uuid) h) as [h' [c | e]]. }
    apply Hread.
Qed.

Lemma serve_all_invariant rs : forall h,
  hub_servable h -> numbered (db h) ->
  Z.of_nat (size (db h)) + Z.of_nat (length rs) <= MaxInt64 ->
  (forall r id, In r rs -> AgentRoute.fresh_uuid r = Some id -> id <> EmptyString) ->
  hub_servable (AgentRoute.serve_all rs h).
Proof.
  induction rs as [| r rs IH]; intros h Hs Hn Hsize Hid; cbn [length] in *.
  - exact Hs.
  - destruct (serve_invariant h r Hs Hn ltac:(lia)) as (Hs' & Hn' & Hsz).
    { intros id. apply Hid. by left. }
    change (AgentRoute.serve_all (r :: rs) h)
      with (AgentRoute.serve_all rs (AgentRoute.serve h r)).
    apply IH; [done | done | lia |].
    intros r' id Hin. apply Hid. by right.
Qed.

(** X16.  What the hub serves, the worker accepts.  Starting from an
    empty hub, after any sequence of requests to the configuration routes
    (creates, updates and reads, any of their database and cache calls
    failing, the identifiers drawn not empty), every configuration a read
    returns has an identifier, a target, an interval of at least 30 and a
    version of at least 1; so the body the relay makes of it passes the
    tags of the worker's push route, and the worker, its lock free, takes
    over exactly its four fields and answers with its version. *)
Theorem served_config_passes_worker (rs : list AgentRoute.request) :
  Z.of_nat (length rs) < MaxInt64 ->
  (forall r id, In r rs -> AgentRoute.fresh_uuid r = Some id -> id <> EmptyString) ->
  forall env agentID c,
    snd (ConfigUsecase.GetLatestConfig env agentID
           (AgentRoute.serve_all rs (mkHub ∅ None))) = Ok c ->
    servable c /\
    Worker.binding_UpdateConfigRequest (AgentRun.pushConfigToWorker_request c) = true /\
    forall held,
      Worker.HandleUpdateConfig (AgentRun.pushConfigToWorker_request c)
                                (Worker.mkState held false)
      = Worker.Returns
          (Worker.mkState
             (Some (Worker.mkWorkerConfig (ConfigURL c) (PoolingInterval c)
                                          (Version c) (UUID c)))
             false)
          (Worker.Updated (Version c)).
Proof.
  intros Hlen Hid env agentID c Hread.
  assert (hub_servable (AgentRoute.serve_all rs (mkHub ∅ None))) as Hs.
  { apply serve_all_invariant; [| apply numbered_empty | | exact Hid].
    - split; cbn [db cache]; [| done]. intros k r Hk. by rewrite lookup_empty in Hk.
    - cbn [db]. rewrite map_size_empty. lia. }
  assert (servable c) as Hc.
  { destruct (GetLatestConfig_cases env agentID (AgentRoute.serve_all rs (mkHub ∅ None)))
      as [[_ Hcache] | (c' & Hc' & Hok & _)].
    - apply (proj2 Hs). by apply Hcache.
    - rewrite Hok in Hread. injection Hread as <-.
      by apply (hub_servable_latest (AgentRoute.serve_all rs (mkHub ∅ None))). }
  split; [exact Hc |].
  destruct Hc as (Hu & Hurl & Hi & Hv).
  assert (Worker.binding_UpdateConfigRequest (AgentRun.pushConfigToWorker_request c)
          = true) as Hb.
  { unfold Worker.binding_UpdateConfigRequest, AgentRun.pushConfigToWorker_request.
    cbn [Worker.ReqConfigURL Worker.ReqPoolingInterval Worker.ReqVersion Worker.ReqUUID].
    rewrite (is_empty_string_false _ Hu), (is_empty_string_false _ Hurl).
    destruct (Z.eqb_spec (PoolingInterval c) 0); [lia |].
    destruct (Z.eqb_spec (Version c) 0); [lia |].
    destruct (Z.leb_spec 30 (PoolingInterval c)); [reflexivity | lia]. }
  split; [exact Hb |].
  intros held. unfold Worker.HandleUpdateConfig. rewrite Hb. reflexivity.
Qed.

Lemma served_config_passes_worker_witness :
  let rs := [AgentRoute.PostConfig env_ok (mkSaveCreate "https://example.com/a" 30);
             AgentRoute.PutConfig env_ok (mkSaveUpdate "https://example.com/b" (Some 45))] in
  let c := mkConfig "id-2" 1 "https://example.com/b" 45 "2024-01-02T00:00:00Z" in
  servable c /\
  Worker.binding_UpdateConfigRequest (AgentRun.pushConfigToWorker_request c) = true /\
  forall held,
    Worker.HandleUpdateConfig (AgentRun.pushConfigToWorker_request c)
                              (Worker.mkState held false)
    = Worker.Returns
        (Worker.mkState
           (Some (Worker.mkWorkerConfig (ConfigURL c) (PoolingInterval c)
                                        (Version c) (UUID c)))
           false)
        (Worker.Updated (Version c)).
Proof.
  intros rs c.
  apply (served_config_passes_worker rs ltac:(unfold MaxInt64; cbn; lia)) with
    (env := env_ok) (agentID := None).
  - intros r id [<- | [<- | []]]; cbn; [intros [= <-]; discriminate | discriminate].
  - vm_compute. reflexivity.
Defined.

End HubInvariantProperties.
(* ===================================================================== *)
(** * pkg/utils and the start of the relay *)
(* ===================================================================== *)

Module StartupProperties.
Import GoInt GoProperties Utils AgentStartup.

(** ** The two file names of pkg/utils *)

Lemma string_length_append (a b : string) :
  String.length (a ++ b) = (String.length a + String.length b)%nat.
Proof.
  induction a as [| x a IH]; [reflexivity |].
  change (String x a ++ b)%string with (String x (a ++ b)). cbn. by rewrite IH.
Qed.

(** Appending a text without separator to [s] appends it to the last
    element of [s]. *)
Lemma Split_append s sep :
  exists pre l,
    Crypto.Split s sep = pre ++ [l] /\
    forall t, Crypto.has_char sep t = false ->
              Crypto.Split (s ++ t) sep = pre ++ [(l ++ t)%string].
Proof.
  induction s as [| c s (pre & l & Hs & Ht)].
  - exists [], EmptyString. split; [reflexivity |].
    intros t Hno. apply (CryptoProperties.Split_no_sep t sep Hno).
  - cbn [Crypto.Split].
    change (fun t => String c s ++ t)%string with (fun t => String c (s ++ t)%string).
    destruct (Ascii.eqb c sep) eqn:Hc.
    + exists (EmptyString :: pre), l. rewrite Hs. split; [reflexivity |].
      intros t Hno.
      change (String c s ++ t)%string with (String c (s ++ t)).
      cbn [Crypto.Split]. rewrite Hc, (Ht t Hno). reflexivity.
    + destruct pre as [| h pre].
      * exists [], (String c l). rewrite Hs. split; [reflexivity |].
        intros t Hno.
        change (String c s ++ t)%string with (String c (s ++ t)).
        cbn [Crypto.Split]. rewrite Hc, (Ht t Hno). reflexivity.
      * exists (String c h :: pre), l. rewrite Hs. split; [reflexivity |].
        intros t Hno.
        change (String c s ++ t)%string with (String c (s ++ t)).
        cbn [Crypto.Split]. rewrite Hc, (Ht t Hno). reflexivity.
Qed.

Lemma join_elems_snoc es x :
  String.length (join_elems (es ++ [x]))
  = match es with
    | [] => String.length x
    | _ => (String.length (join_elems es) + 1 + String.length x)%nat
    end.
Proof.
  induction es as [| e es IH]; [reflexivity |].
  destruct es as [| e' es].
  - cbn [app join_elems]. rewrite !string_length_append. cbn. lia.
  - change ((e :: e' :: es) ++ [x]) with (e :: (e' :: es) ++ [x]).
    change (join_elems (e :: (e' :: es) ++ [x]))
      with (e ++ "/" ++ join_elems ((e' :: es) ++ [x]))%string.
    change (join_elems (e :: e' :: es)) with (e ++ "/" ++ join_elems (e' :: es))%string.
    rewrite !string_length_append, IH. cbn [String.length]. lia.
Qed.

Lemma path_of_cons x kept :
  String.length (path_of (x :: kept))
  = match kept with
    | [] => String.length x
    | _ => (String.length (path_of kept) + 1 + String.length x)%nat
    end.
Proof.
  unfold path_of. cbn [rev].
  assert (forall es, match es ++ [x] with
                     | [] => "."
                     | e :: r => join_elems (e :: r)
                     end = join_elems (es ++ [x])) as -> by (by intros []).
  rewrite join_elems_snoc.
  destruct kept as [| k kept]; [reflexivity |].
  destruct (rev (k :: kept)) eqn:E; [| reflexivity].
  apply (f_equal (@length string)) in E. rewrite length_rev in E. discriminate.
Qed.

Lemma clean_step_json kept l :
  clean_step kept (l ++ ".json") = (l ++ ".json")%string :: kept.
Proof.
  unfold clean_step.
  assert (forall s, (String.length s < 5)%nat -> String.eqb (l ++ ".json") s = false) as H.
  { intros s Hs. apply String.eqb_neq. intros E.
    apply (f_equal String.length) in E. rewrite string_length_append in E.
    cbn in E. lia. }
  rewrite !H by (cbn; lia). reflexivity.
Qed.

(** The path [WriteJson] writes is longer than the path [ReadJSON] reads. *)
Lemma Join_dot_json_longer fileName :
  (String.length (Join_dot fileName) < String.length (Join_dot (fileName ++ ".json")))%nat.
Proof.
  unfold Join_dot.
  destruct (Split_append fileName "/"%char) as (pre & l & -> & Hjson).
  rewrite (Hjson ".json") by reflexivity.
  rewrite !foldl_app. cbn [foldl]. rewrite clean_step_json.
  set (kept := foldl clean_step [] pre).
  rewrite path_of_cons.
  assert (String.length (l ++ ".json") = String.length l + 5)%nat as Hlen
      by (rewrite string_length_append; reflexivity).
  rewrite Hlen. unfold clean_step.
  destruct (String.eqb l EmptyString || String.eqb l ".") eqn:Hdot.
  { destruct kept; [cbn; lia | lia]. }
  destruct (String.eqb l "..") eqn:Hup.
  { apply String.eqb_eq in Hup as ->.
    destruct kept as [| top below]; [cbn; lia |].
    destruct (String.eqb top ".."); rewrite !path_of_cons.
    - cbn [String.length]. lia.
    - destruct below as [| b below]; [cbn; lia |]. rewrite !path_of_cons. lia. }
  rewrite path_of_cons. destruct kept; lia.
Qed.

(** X17.  [ReadJSON] never reads what [WriteJson] has written under the
    same name: [WriteJson] appends [.json] to the name and [ReadJSON] does
    not, so for every file name the two address different paths, and a
    read after a write returns what it returned before the write. *)
Theorem WriteJson_not_read_back (T : Type) (json_Unmarshal : string -> option T)
    (json_Marshal : T -> string) (write_fails : bool) (fileName : string) (cfg : T)
    (fs : gmap string string) :
  Join_dot fileName <> Join_dot (fileName ++ ".json") /\
  ReadJSON T json_Unmarshal fileName
           (fst (WriteJson T json_Marshal write_fails fileName cfg fs))
  = ReadJSON T json_Unmarshal fileName fs.
Proof.
  assert (Join_dot fileName <> Join_dot (fileName ++ ".json")) as Hne.
  { intros E. pose proof (Join_dot_json_longer fileName) as Hlt.
    rewrite <- E in Hlt. lia. }
  split; [exact Hne |].
  unfold ReadJSON, WriteJson. destruct write_fails; cbn [fst]; [reflexivity |].
  by rewrite lookup_insert_ne.
Qed.

(** ** Registration *)

Lemma selfRegistration_unregistered
    (Credential_Unmarshal : string -> option string)
    (Credential_Marshal : string -> string)
    (response_Unmarshal : string -> option string) register write_fails
    (fs : gmap string string) :
  fs !! "credential" = None ->
  let '(fs', _, tr) :=
    selfRegistration Credential_Unmarshal Credential_Marshal response_Unmarshal
                     true register write_fails fs in
  fs' !! "credential" = None /\ tr = [PostRegister].
Proof.
  intros Hno. unfold selfRegistration, ReadJSON, WriteJson.
  change (Join_dot "credential") with "credential".
  change (Join_dot ("credential" ++ ".json")) with "credential.json".
  rewrite Hno. cbn [negb].
  destruct register as [| status [body |]]; try done.
  destruct (negb (status =? 200)); [done |].
  destruct (response_Unmarshal body) as [Data |]; [| done].
  destruct write_fails; [done |]. split; [| reflexivity].
  by rewrite lookup_insert_ne.
Qed.

(** X18.  The relay registers anew at every start.  [selfRegistration]
    looks for its credential in the file [credential], but stores it in
    [credential.json]: as long as nothing else creates a file named
    [credential], every start sends a registration to the controller, also
    the starts that follow a successful registration, and none of them
    creates that file.  Only a file [credential] holding a key that is not
    empty makes a start return that key without a request. *)
Theorem selfRegistration_repeats
    (Credential_Unmarshal : string -> option string)
    (Credential_Marshal : string -> string)
    (response_Unmarshal : string -> option string)
    (runs : list (do_answer * bool)) (fs : gmap string string) :
  fs !! "credential" = None ->
  Forall (fun out => snd out = [PostRegister])
         (starts Credential_Unmarshal Credential_Marshal response_Unmarshal runs fs) /\
  length (starts Credential_Unmarshal Credential_Marshal response_Unmarshal runs fs)
  = length runs /\
  (forall file key request_ok register write_fails (fs0 : gmap string string),
     fs0 !! "credential" = Some file ->
     Credential_Unmarshal file = Some key -> key <> EmptyString ->
     selfRegistration Credential_Unmarshal Credential_Marshal response_Unmarshal
                      request_ok register write_fails fs0
     = (fs0, (key, None), [])).
Proof.
  intros Hno. split; [| split].
  - revert fs Hno. induction runs as [| [register write_fails] runs IH]; intros fs Hno.
    + constructor.
    + cbn [starts].
      pose proof (selfRegistration_unregistered Credential_Unmarshal Credential_Marshal
                    response_Unmarshal register write_fails fs Hno) as H.
      destruct (selfRegistration _ _ _ true register write_fails fs) as [[fs' r] tr].
      destruct H as [Hno' ->]. constructor; [reflexivity | by apply IH].
  - revert fs Hno. induction runs as [| [register write_fails] runs IH]; intros fs Hno.
    + reflexivity.
    + cbn [starts].
      pose proof (selfRegistration_unregistered Credential_Unmarshal Credential_Marshal
                    response_Unmarshal register write_fails fs Hno) as H.
      destruct (selfRegistration _ _ _ true register write_fails fs) as [[fs' r] tr].
      destruct H as [Hno' ->]. cbn [length]. f_equal. by apply IH.
  - intros file key request_ok register write_fails fs0 Hfile Hkey Hne.
    unfold selfRegistration, ReadJSON.
    change (Join_dot "credential") with "credential".
    by rewrite Hfile, Hkey, (is_empty_string_false _ Hne).
Qed.

Lemma selfRegistration_repeats_witness :
  let runs := [(Answer 200 (Some "token-1"), false); (Answer 200 (Some "token-2"), false)] in
  Forall (fun out => snd out = [PostRegister]) (starts Some id Some runs ∅) /\
  length (starts Some id Some runs ∅) = length runs /\
  (forall file key request_ok register write_fails (fs0 : gmap string string),
     fs0 !! "credential" = Some file ->
     Some file = Some key -> key <> EmptyString ->
     selfRegistration Some id Some request_ok register write_fails fs0
     = (fs0, (key, None), [])).
Proof.
  intros runs. apply (selfRegistration_repeats Some id Some runs ∅). reflexivity.
Defined.

(** ** The exchange with the controller *)




End StartupProperties.
(* ===================================================================== *)
(** * The relay: properties of its loops over many cycles *)
(* ===================================================================== *)

Module RelayRunProperties.
Import GoInt GoProperties ConfigStore Agent RelaySpec RelayProperties AgentRun.

(** A cycle whose fetch succeeds, in the states the loop is in: the
    snapshot is written, the configuration is pushed and becomes the last
    one, and the ticker is reset if the interval differs. *)
Lemma tick_started (st : state) cfg ok :
  (lastConfig st < length (heap st))%nat -> version st = 0 ->
  let newInterval := mul64 (PoolingInterval cfg) Second in
  tick (mkAnswers (Some cfg) ok) st =
    if negb (newInterval =? interval st) then
      if newInterval <=? 0 then Panic [WroteConfigFile cfg; Pushed cfg ok]
      else Continue (mkState (heap st ++ [cfg]) (length (heap st)) newInterval 0 0
                             (Some cfg))
                    [WroteConfigFile cfg; Pushed cfg ok; TickerReset newInterval]
    else Continue (mkState (heap st ++ [cfg]) (length (heap st)) (interval st) 0 0
                           (Some cfg))
                  [WroteConfigFile cfg; Pushed cfg ok].
Proof.
  intros Halloc Hv newInterval. rewrite tick_fetched, changed_fresh by exact Halloc.
  unfold fetchConfigFromController. rewrite Hv. cbn. reflexivity.
Qed.

Lemma filter_app_length {A} (f : A -> bool) l1 l2 :
  length (List.filter f (l1 ++ l2))
  = (length (List.filter f l1) + length (List.filter f l2))%nat.
Proof. by rewrite List.filter_app, length_app. Qed.

Lemma last_fetched_cons a cycles last :
  last_fetched (a :: cycles) last
  = last_fetched cycles (match fetched a with Some cfg => Some cfg | None => last end).
Proof. reflexivity. Qed.

(** X20.  Over any number of cycles of [startPolling], from a state as
    [main] leaves it (the last configuration allocated, the counter and
    the variable [version] at 0): the branch "config unchanged" is never
    taken and the counter is 0 after every cycle, so the forced push after
    three unchanged polls never fires; every successful fetch writes the
    snapshot and is pushed, whatever its version; and the configuration
    applied last is the one fetched last, also when its push failed. *)
Theorem run_pushes_every_fetch (cycles : list answers) (st : state) :
  (lastConfig st < length (heap st))%nat -> countFetch st = 0 -> version st = 0 ->
  List.filter is_unchanged (trace_of (run cycles st)) = [] /\
  forall st' tr,
    run cycles st = Continue st' tr ->
    countFetch st' = 0 /\ version st' = 0 /\
    (lastConfig st' < length (heap st'))%nat /\
    length (List.filter is_push tr) = length (List.filter is_fetch cycles) /\
    length (List.filter is_write tr) = length (List.filter is_fetch cycles) /\
    last_applied st' = last_fetched cycles (last_applied st).
Proof.
  revert st. induction cycles as [| [f ok] cycles IH]; intros st Halloc Hcount Hv.
  - cbn. split; [reflexivity |]. intros st' tr [= <- <-]. repeat split; auto.
  - cbn [run]. rewrite last_fetched_cons. cbn [fetched].
    destruct f as [cfg |].
    + rewrite (tick_started st cfg ok Halloc Hv). cbv zeta.
      set (newInterval := mul64 (PoolingInterval cfg) Second).
      assert (forall i,
                let st1 := mkState (heap st ++ [cfg]) (length (heap st)) i 0 0 (Some cfg) in
                (lastConfig st1 < length (heap st1))%nat /\ countFetch st1 = 0 /\
                version st1 = 0 /\ last_applied st1 = Some cfg) as Hst1.
      { intros i. cbn. rewrite length_app. cbn. repeat split; [lia |].
        unfold last_applied. cbn. by rewrite list_lookup_middle. }
      destruct (negb (newInterval =? interval st)); [destruct (newInterval <=? 0) |].
      * cbn. split; [reflexivity | discriminate].
      * destruct (Hst1 newInterval) as (Ha & Hc & Hv' & Hl).
        destruct (IH _ Ha Hc Hv') as [Hun Hrun].
        destruct (run cycles _) as [st'' tr'' | tr''] eqn:Hr; cbn [trace_of] in *.
        -- split; [exact Hun |]. intros st' tr [= <- <-].
           destruct (Hrun _ _ eq_refl) as (? & ? & ? & Hp & Hw & Hla).
           cbn [List.filter is_push is_write is_fetch fetched length].
           rewrite Hl in Hla. repeat split; auto; lia.
        -- split; [exact Hun | discriminate].
      * destruct (Hst1 (interval st)) as (Ha & Hc & Hv' & Hl).
        destruct (IH _ Ha Hc Hv') as [Hun Hrun].
        destruct (run cycles _) as [st'' tr'' | tr''] eqn:Hr; cbn [trace_of] in *.
        -- split; [exact Hun |]. intros st' tr [= <- <-].
           destruct (Hrun _ _ eq_refl) as (? & ? & ? & Hp & Hw & Hla).
           cbn [List.filter is_push is_write is_fetch fetched length].
           rewrite Hl in Hla. repeat split; auto; lia.
        -- split; [exact Hun | discriminate].
    + cbn [tick fetched].
      destruct (IH _ Halloc Hcount Hv) as [Hun Hrun].
      destruct (run cycles st) as [st'' tr'' | tr''] eqn:Hr; cbn [trace_of] in *.
      * split; [exact Hun |]. intros st' tr [= <- <-].
        destruct (Hrun _ _ eq_refl) as (? & ? & ? & Hp & Hw & Hla).
        cbn [List.filter is_push is_write is_fetch fetched length].
        repeat split; auto.
      * split; [exact Hun | discriminate].
Qed.

Lemma run_pushes_every_fetch_witness :
  let cycles := [mkAnswers (Some cfg_v1) true; mkAnswers None true;
                 mkAnswers (Some cfg_v2) false; mkAnswers (Some cfg_v1) true] in
  List.filter is_unchanged (trace_of (run cycles relay_v1)) = [] /\
  forall st' tr,
    run cycles relay_v1 = Continue st' tr ->
    countFetch st' = 0 /\ version st' = 0 /\
    (lastConfig st' < length (heap st'))%nat /\
    length (List.filter is_push tr) = length (List.filter is_fetch cycles) /\
    length (List.filter is_write tr) = length (List.filter is_fetch cycles) /\
    last_applied st' = last_fetched cycles (last_applied relay_v1).
Proof.
  intros cycles. apply (run_pushes_every_fetch cycles relay_v1).
  - cbn. lia.
  - reflexivity.
  - reflexivity.
Defined.




(** An interval below [- MaxSeconds] that wraps to a positive duration: the
    cycle goes on, the ticker reset to it. *)
Example tick_continues_on_wrapped_interval :
  let cfg := mkConfig "id-3" 3 "https://example.com/a" (-9223372037)
                      "2024-01-03T00:00:00Z" in
  mul64 (PoolingInterval cfg) Second = 9223372036709551616 /\
  exists st', tick (mkAnswers (Some cfg) true) relay_v1
              = Continue st' [WroteConfigFile cfg; Pushed cfg true;
                              TickerReset 9223372036709551616].
Proof. split; [vm_compute; reflexivity |]. eexists. vm_compute. reflexivity. Qed.

End RelayRunProperties.

(* ===================================================================== *)
(** * The relay: properties of the scheduler and of the version checker *)
(* ===================================================================== *)

Module SchedulerProperties.
Import GoInt GoProperties ConfigStore Scheduler RelaySpec RelayProperties.
Import SchedulerLifecycle.

Lemma Second_cancel i j : i * Second = j * Second -> i = j.
Proof. unfold Second. lia. Qed.

(** [fetchConfig] keeps the ticker at the interval of the configuration
    held, and the version from decreasing. *)
Lemma fetchConfig_follows fetched cb st cur :
  interval_ok fetched ->
  currentConfig st = Some cur -> ticker st = Some (PoolingInterval cur * Second) ->
  exists st' tr cur',
    fetchConfig fetched cb st = Scheduler.Continue st' tr /\
    currentConfig st' = Some cur' /\
    ticker st' = Some (PoolingInterval cur' * Second) /\
    Version cur <= Version cur'.
Proof.
  intros Hok Hcur Hticker. unfold fetchConfig.
  destruct fetched as [newConfig |]; [| exists st, [FetchFailed], cur; auto with lia].
  cbn [interval_ok] in Hok. rewrite Hcur.
  destruct (Z.ltb_spec (Version cur) (Version newConfig)) as [Hlt | Hge];
    [| exists st, [Unchanged], cur; auto with lia].
  destruct (Z.eqb_spec (PoolingInterval cur) (PoolingInterval newConfig)) as [E | E];
    cbn [negb].
  - eexists _, _, newConfig. split; [reflexivity |]. cbn.
    rewrite Hticker, E. auto with lia.
  - unfold updateInterval.
    destruct (seconds_to_duration _ Hok) as [-> Hpos].
    destruct (Z.leb_spec (PoolingInterval newConfig * Second) 0); [lia |].
    eexists _, _, newConfig. split; [reflexivity |]. cbn. auto with lia.
Qed.

Lemma fires_follow answers cb : forall st cur,
  Forall interval_ok answers ->
  currentConfig st = Some cur -> ticker st = Some (PoolingInterval cur * Second) ->
  exists st' cur',
    fires answers cb st = Some st' /\
    currentConfig st' = Some cur' /\
    ticker st' = Some (PoolingInterval cur' * Second) /\
    Version cur <= Version cur'.
Proof.
  induction answers as [| fetched answers IH]; intros st cur Hok Hcur Hticker.
  - exists st, cur. cbn. auto with lia.
  - inversion Hok as [| ? ? Hf Hrest]; subst.
    destruct (fetchConfig_follows fetched cb st cur Hf Hcur Hticker)
      as (st1 & tr & cur1 & Hstep & Hcur1 & Ht1 & Hv1).
    destruct (IH st1 cur1 Hrest Hcur1 Ht1) as (st' & cur' & Hrun & Hcur' & Ht' & Hv').
    exists st', cur'. cbn [fires]. rewrite Hstep. auto with lia.
Qed.

(** X22.  A scheduler started with [SetInitialConfig] polls at the
    interval of the configuration it holds, and the version it holds never
    decreases: when the intervals of the initial and of the fetched
    configurations are positive and fit a [time.Duration], neither the
    start nor any later firing of the ticker panics, after each of them
    the period of the ticker is the interval of the configuration held,
    and the version held is at least the initial one. *)
Theorem scheduler_ticker_follows_config
    (cfg : Config) (first : option Config) (answers : list (option Config))
    (cb : bool) (s : scheduler) :
  running s = false ->
  0 < PoolingInterval cfg <= MaxSeconds ->
  interval_ok first -> Forall interval_ok answers ->
  exists st tr st' held,
    SetInitialConfig first cb cfg s = Continue (mkScheduler st true) tr /\
    ticker_follows_config st /\
    fires answers cb st = Some st' /\
    currentConfig st' = Some held /\
    ticker st' = Some (PoolingInterval held * Second) /\
    Version cfg <= Version held.
Proof.
  intros Hrun Hcfg Hfirst Hanswers. unfold SetInitialConfig, Start.
  cbn [running core currentConfig]. rewrite Hrun.
  destruct (seconds_to_duration _ Hcfg) as [-> Hpos].
  destruct (Z.leb_spec (PoolingInterval cfg * Second) 0); [lia |].
  destruct (fetchConfig_follows first cb
              (mkState (Some cfg) (Some (PoolingInterval cfg * Second))) cfg Hfirst
              eq_refl eq_refl) as (st & tr & cur & -> & Hcur & Ht & Hv).
  destruct (fires_follow answers cb st cur Hanswers Hcur Ht)
    as (st' & held & Hfires & Hheld & Ht' & Hv').
  exists st, tr, st', held. repeat split; auto; [by exists cur | lia].
Qed.

Lemma scheduler_ticker_follows_config_witness :
  exists st tr st' held,
    SetInitialConfig (Some cfg_v1) true cfg_v1
                     (mkScheduler (mkState None None) false)
    = Continue (mkScheduler st true) tr /\
    ticker_follows_config st /\
    fires [Some cfg_v2; None; Some cfg_v1] true st = Some st' /\
    currentConfig st' = Some held /\
    ticker st' = Some (PoolingInterval held * Second) /\
    Version cfg_v1 <= Version held.
Proof.
  apply (scheduler_ticker_follows_config cfg_v1 (Some cfg_v1)
           [Some cfg_v2; None; Some cfg_v1] true
           (mkScheduler (mkState None None) false)).
  - reflexivity.
  - unfold MaxSeconds, cfg_v1. cbn [PoolingInterval]. lia.
  - unfold interval_ok, MaxSeconds, cfg_v1. cbn [PoolingInterval]. lia.
  - repeat (constructor;
            [first [exact I
                   | unfold interval_ok, MaxSeconds, cfg_v1, cfg_v2;
                     cbn [PoolingInterval]; lia] |]).
    constructor.
Defined.

(** X23.  [ForceFetch] takes whatever the controller returns, also a
    version lower than the one held, and never touches the ticker: after
    it has installed a configuration with another interval, the scheduler
    keeps polling at the old interval, and the next regular fetch of that
    configuration does not repair this, since its version is not newer. *)
Theorem ForceFetch_leaves_ticker (st : state) (cur cfg : Config) (cb : bool) :
  currentConfig st = Some cur -> ticker st = Some (PoolingInterval cur * Second) ->
  PoolingInterval cfg <> PoolingInterval cur ->
  let '(st', tr, failed) := ForceFetch (Some cfg) cb st in
  failed = false /\
  currentConfig st' = Some cfg /\
  tr = (if cb then [ConfigUpdate cfg] else []) /\
  ticker st' = Some (PoolingInterval cur * Second) /\
  ~ ticker_follows_config st' /\
  fetchConfig (Some cfg) cb st' = Scheduler.Continue st' [Unchanged].
Proof.
  intros Hcur Hticker Hne. cbn [ForceFetch]. repeat split.
  - exact Hticker.
  - intros (c & Hc & Ht). cbn in Hc, Ht. injection Hc as <-.
    rewrite Hticker in Ht. injection Ht as Ht. apply Second_cancel in Ht. congruence.
  - unfold fetchConfig. cbn [currentConfig]. by rewrite Z.ltb_irrefl.
Qed.

Lemma ForceFetch_leaves_ticker_witness :
  let st := mkState (Some cfg_v2) (Some (60 * Second)) in
  let '(st', tr, failed) := ForceFetch (Some cfg_v1) true st in
  failed = false /\
  currentConfig st' = Some cfg_v1 /\
  tr = [ConfigUpdate cfg_v1] /\
  ticker st' = Some (PoolingInterval cfg_v2 * Second) /\
  ~ ticker_follows_config st' /\
  fetchConfig (Some cfg_v1) true st' = Scheduler.Continue st' [Unchanged].
Proof.
  intros st.
  apply (ForceFetch_leaves_ticker st cfg_v2 cfg_v1 true);
    [reflexivity | reflexivity | discriminate].
Defined.

(** X24.  The version checker does not retry a push.  When a check finds
    a newer version and the push of its configuration fails, the checker
    has already taken over the version number: no later check pushes until
    the controller reports a version greater than that one, so the worker
    stays without the version whose push failed.  The version the checker
    holds never decreases. *)
Theorem checkVersion_never_retries
    (a : VersionChecker.answers) (cb : bool) (current remote : Z) (cfg : Config) :
  VersionChecker.remoteVersion a = Some remote -> current < remote ->
  VersionChecker.fetched a = Some cfg -> VersionChecker.push_ok a = false ->
  VersionChecker.checkVersion a cb current = (remote, [VersionChecker.Pushed cfg false]) /\
  (forall a' remote',
     VersionChecker.remoteVersion a' = Some remote' -> remote' <= remote ->
     VersionChecker.checkVersion a' cb remote = (remote, [VersionChecker.Unchanged])) /\
  (forall a' v, fst (VersionChecker.checkVersion a' cb v) >= v).
Proof.
  intros Hremote Hlt Hfetched Hpush. split; [| split].
  - unfold VersionChecker.checkVersion. rewrite Hremote, Hfetched, Hpush.
    destruct (Z.ltb_spec current remote); [reflexivity | lia].
  - intros a' remote' Hr' Hle. unfold VersionChecker.checkVersion. rewrite Hr'.
    destruct (Z.ltb_spec remote remote'); [lia | reflexivity].
  - intros a' v. unfold VersionChecker.checkVersion.
    destruct (VersionChecker.remoteVersion a') as [r |]; [| cbn; lia].
    destruct (Z.ltb_spec v r); [| cbn; lia].
    destruct (VersionChecker.fetched a'); [| cbn; lia].
    destruct (VersionChecker.push_ok a'); cbn; lia.
Qed.

Lemma checkVersion_never_retries_witness :
  let a := VersionChecker.mkAnswers (Some 2) (Some cfg_v2) false in
  VersionChecker.checkVersion a true 1 = (2, [VersionChecker.Pushed cfg_v2 false]) /\
  (forall a' remote',
     VersionChecker.remoteVersion a' = Some remote' -> remote' <= 2 ->
     VersionChecker.checkVersion a' true 2 = (2, [VersionChecker.Unchanged])) /\
  (forall a' v, fst (VersionChecker.checkVersion a' true v) >= v).
Proof.
  intros a.
  apply (checkVersion_never_retries a true 1 2 cfg_v2);
    [reflexivity | lia | reflexivity | reflexivity].
Defined.

End SchedulerProperties.

(* ===================================================================== *)
(** * The leaf: further properties *)
(* ===================================================================== *)

Module WorkerRunProperties.
Import GoInt GoProperties Errors Worker WorkerRun LeafProperties.

(** X25.  A task run before any configuration has arrived blocks the
    worker for good.  [Hit] on a worker that holds no configuration answers
    "config not found" without releasing the lock it has taken; from then
    on every [Hit] and every push that passes the tags waits for the lock,
    whatever is requested in whatever order, and the worker never holds a
    configuration. *)
Theorem Hit_without_config_locks
    (JSON : Type) (json_Unmarshal : string -> option JSON) (http : string -> http_result) :
  Hit JSON json_Unmarshal http (mkState None false)
  = Returns (mkState None true) (Err (NotFound "config")) /\
  forall st,
    reachable_from (mkState None true) st ->
    st = mkState None true /\
    (forall req, binding_UpdateConfigRequest req = true ->
                 HandleUpdateConfig req st = Blocks) /\
    (forall J (unmarshal : string -> option J) h, Hit J unmarshal h st = Blocks).
Proof.
  split; [reflexivity |].
  assert (forall st, reachable_from (mkState None true) st -> st = mkState None true) as Hst.
  { induction 1 as [| st J unmarshal h Hr IH | st req Hr IH]; [reflexivity | |];
      subst st; cbn.
    - reflexivity.
    - unfold HandleUpdateConfig. by destruct (negb _). }
  intros st Hr. rewrite (Hst st Hr). split; [reflexivity |]. split.
  - intros req Hb. unfold HandleUpdateConfig. by rewrite Hb.
  - reflexivity.
Qed.

(** X26.  Whatever requests the worker has served since its start, the
    configuration it holds, if any, is one that passed the tags of the push
    route: it has a target, an interval of at least 30, a version other
    than 0 and an identifier.  So the return of [Hit] for an empty target
    is never taken, and [Hit] does not answer "not found" once a
    configuration is held. *)
Theorem held_config_valid (st : state) (c : WorkerConfig) :
  reachable st -> globalConfig st = Some c ->
  valid_config c /\
  forall JSON (json_Unmarshal : string -> option JSON) http,
    exists r, Hit JSON json_Unmarshal http st = Returns st r /\
              r <> Err (NotFound "config").
Proof.
  intros Hr Hc.
  assert (forall st, reachable st -> forall c, globalConfig st = Some c -> valid_config c)
    as Hvalid.
  { clear. induction 1 as [| st JSON unmarshal http Hst IH | st req Hst IH]; intros c.
    - discriminate.
    - unfold Hit. destruct (configMutex st); cbn [state_after]; [apply IH |].
      destruct (globalConfig st) as [held |] eqn:Hg; [| discriminate].
      assert (forall r : call (result (any JSON)),
                (exists x, r = Returns st x) ->
                globalConfig (state_after r st) = Some c -> valid_config c) as Hsame.
      { intros r [x ->]. cbn. rewrite Hg. intros E. apply IH. congruence. }
      apply Hsame. destruct (is_empty_string _); [eauto |].
      destruct (http _); eauto. destruct (unmarshal _); eauto.
    - unfold HandleUpdateConfig, UpdateConfig.
      destruct (binding_UpdateConfigRequest req) eqn:Hb; cbn [negb state_after];
        [| apply IH].
      destruct (configMutex st); cbn [state_after]; [apply IH |].
      cbn. intros [= <-]. unfold binding_UpdateConfigRequest in Hb.
      repeat (apply andb_prop in Hb as [Hb ?]).
      unfold valid_config, config_of. cbn.
      repeat split.
      + intros E. rewrite E in Hb. discriminate.
      + by apply Z.leb_le.
      + intros E. rewrite E in *. discriminate.
      + intros E. rewrite E in *. discriminate. }
  pose proof (Hvalid st Hr c Hc) as Hv. split; [exact Hv |].
  intros JSON json_Unmarshal http.
  pose proof (held_config_unlocked st Hr ltac:(rewrite Hc; eauto)) as Hfree.
  unfold Hit. rewrite Hfree, Hc.
  destruct Hv as (Hurl & _). rewrite (is_empty_string_false _ Hurl).
  destruct (http (ConfigURL c)); try (eexists; split; [reflexivity | discriminate]).
  destruct (json_Unmarshal bodyBytes); eexists; (split; [reflexivity | discriminate]).
Qed.

Lemma held_config_valid_witness :
  valid_config (mkWorkerConfig "https://example.com/b" 60 5 "id-5") /\
  forall JSON (json_Unmarshal : string -> option JSON) http,
    exists r, Hit JSON json_Unmarshal http LeafSpec.held_v5
              = Returns LeafSpec.held_v5 r /\
              r <> Err (NotFound "config").
Proof.
  apply (held_config_valid LeafSpec.held_v5
           (mkWorkerConfig "https://example.com/b" 60 5 "id-5")).
  - exact held_v5_reachable.
  - reflexivity.
Defined.

End WorkerRunProperties.

(* ===================================================================== *)
(** * The relay: properties of the configuration file *)
(* ===================================================================== *)

Module AgentConfigFileProperties.
Import GoInt GoProperties AgentConfigFile.

(** X27.  What [LoadAgentConfig] returns has an agent identifier, a token
    and a controller URL that are not empty and a check interval of at
    least 30, whatever the file holds.  And saving then loading under the
    same path (the empty path standing for [agent_config.json] in both)
    gives back the configuration saved with its interval raised to 30 if it
    was below, provided the three texts are not empty and the JSON of the
    configuration decodes to it; [SaveAgentConfig] itself checks nothing,
    so a configuration saved with one of them empty cannot be loaded. *)
Theorem LoadAgentConfig_after_Save
    (json_Unmarshal : string -> option AgentConfig)
    (json_MarshalIndent : AgentConfig -> string)
    (path : string) (cfg : AgentConfig) (fs : gmap string string) :
  json_Unmarshal (json_MarshalIndent cfg) = Some cfg ->
  let saved := SaveAgentConfig json_MarshalIndent false path cfg fs in
  snd saved = None /\
  (loadable cfg ->
   LoadAgentConfig json_Unmarshal path (fst saved)
   = inl (mkAgentConfig (AgentID cfg) (Token cfg) (ControllerURL cfg)
                        (Z.max 30 (CheckInterval cfg)))) /\
  (~ loadable cfg ->
   exists e, LoadAgentConfig json_Unmarshal path (fst saved) = inr e) /\
  (forall path' fs' loaded,
     LoadAgentConfig json_Unmarshal path' fs' = inl loaded ->
     loadable loaded /\ 30 <= CheckInterval loaded).
Proof.
  intros Hjson saved. subst saved. unfold SaveAgentConfig, LoadAgentConfig.
  cbn [fst snd]. rewrite lookup_insert_eq, Hjson.
  split; [reflexivity |]. split; [| split].
  - intros (Hid & Htoken & Hurl).
    rewrite !is_empty_string_false by assumption.
    destruct (Z.ltb_spec (CheckInterval cfg) 30).
    + by rewrite Z.max_l by lia.
    + rewrite Z.max_r by lia. by destruct cfg.
  - intros Hnot. unfold loadable in Hnot.
    destruct (AgentID cfg) eqn:Hid; [cbn; eauto |].
    destruct (Token cfg) eqn:Htoken; [cbn; eauto |].
    destruct (ControllerURL cfg) eqn:Hurl; [cbn; eauto |].
    exfalso. apply Hnot. repeat split; discriminate.
  - intros path' fs' loaded.
    destruct (fs' !! default_path path') as [data |]; [| discriminate].
    destruct (json_Unmarshal data) as [c |]; [| discriminate].
    destruct (is_empty_string (AgentID c)) eqn:Hid; [discriminate |].
    destruct (is_empty_string (Token c)) eqn:Htoken; [discriminate |].
    destruct (is_empty_string (ControllerURL c)) eqn:Hurl; [discriminate |].
    assert (loadable c) as Hc.
    { unfold loadable. repeat split; intros E; rewrite E in *; discriminate. }
    destruct (Z.ltb_spec (CheckInterval c) 30); intros [= <-]; cbn; split;
      auto; lia.
Qed.

Lemma LoadAgentConfig_after_Save_witness :
  let cfg := mkAgentConfig "agent-1" "token-1" "http://controller:8080" 10 in
  let unmarshal := fun _ : string => Some cfg in
  let marshal := fun _ : AgentConfig => "agent-1 token-1 http://controller:8080 10" in
  let saved := SaveAgentConfig marshal false EmptyString cfg ∅ in
  snd saved = None /\
  (loadable cfg ->
   LoadAgentConfig unmarshal EmptyString (fst saved)
   = inl (mkAgentConfig (AgentID cfg) (Token cfg) (ControllerURL cfg)
                        (Z.max 30 (CheckInterval cfg)))) /\
  (~ loadable cfg ->
   exists e, LoadAgentConfig unmarshal EmptyString (fst saved) = inr e) /\
  (forall path' fs' loaded,
     LoadAgentConfig unmarshal path' fs' = inl loaded ->
     loadable loaded /\ 30 <= CheckInterval loaded).
Proof.
  intros cfg unmarshal marshal.
  apply (LoadAgentConfig_after_Save unmarshal marshal EmptyString cfg ∅). reflexivity.
Defined.

End AgentConfigFileProperties.
